(** * rmbuild.util: the content-hashing walk and the worker pool

    A shallow embedding of [hash_path], [read_in_chunks], [daemon] and the
    [Worker] class of [rmbuild/util.py], together with the properties that
    the specification states about them.

    Conventions.
    - A Python [str] is a [string], which holds the bytes of the name as
      the file system has them; a Python [bytes] value is a [list byte]; a
      Python [int] is a [Z].
    - A [pathlib.Path] is the list of its parts.
    - An exception that propagates is an explicit result, never a missing
      value.
    - The hash object is mutated in place by the source; here every
      operation returns the new state of the object, and an operation that
      raises also returns the state the object was left in. *)

From Stdlib Require Import ZArith List Bool Lia.
From Stdlib.Strings Require Import String Ascii Byte.
From Stdlib Require Import DecimalString.
From Stdlib Require Import Permutation.
From Equations Require Import Equations.
From stdpp Require Import base tactics option list.

Import ListNotations.
Local Open Scope string_scope.
Local Open Scope list_scope.
Local Open Scope Z_scope.

(** ** Exceptions *)

(** The [errno] of an [OSError]. *)
Inductive errno := ENOENT | EACCES | EIO | ENXIO | EISDIR | ELOOP.

(** The exceptions that occur in the module and in tasks.  [SystemExit] and
    [KeyboardInterrupt] derive from [BaseException] only, every other one
    derives from [Exception]; [UnicodeEncodeError] derives from
    [ValueError]. *)
Inductive exception :=
| ValueError
| OSError (e : errno)
| RuntimeError
| TaskError (code : nat)
| SystemExit
| KeyboardInterrupt
| UnicodeEncodeError.

(** [isinstance(e, Exception)]. *)
Definition isinstance_Exception (e : exception) : bool :=
  match e with
  | SystemExit | KeyboardInterrupt => false
  | _ => true
  end.

(** ** Hash objects *)

(** What [hash_path] needs of a [hashlib] object: a constructor, [update]
    and [digest].  [update_app] is the law [hashlib] documents: repeated
    calls of [update] are equivalent to a single call with the
    concatenation of the arguments; [update_nil] is its case of no
    argument at all. *)
Class HashObject (H : Type) := {
  hash_constructor : H;
  update : H -> list byte -> H;
  digest : H -> list byte;
  update_nil : forall h, update h [] = h;
  update_app : forall h a b, update (update h a) b = update h (a ++ b)
}.

(** *** MD5, the module's [hash_constructor] *)

Module MD5.

Definition mask32 (x : Z) : Z := x mod 2 ^ 32.

Definition add32 (x y : Z) : Z := mask32 (x + y).

Definition not32 (x : Z) : Z := Z.lxor x 0xffffffff.

Definition rotl32 (x : Z) (c : Z) : Z :=
  Z.lor (mask32 (Z.shiftl x c)) (Z.shiftr x (32 - c)).

Definition shifts : list Z :=
  [7; 12; 17; 22; 7; 12; 17; 22; 7; 12; 17; 22; 7; 12; 17; 22;
   5; 9; 14; 20; 5; 9; 14; 20; 5; 9; 14; 20; 5; 9; 14; 20;
   4; 11; 16; 23; 4; 11; 16; 23; 4; 11; 16; 23; 4; 11; 16; 23;
   6; 10; 15; 21; 6; 10; 15; 21; 6; 10; 15; 21; 6; 10; 15; 21].

Definition sines : list Z :=
  [0xd76aa478; 0xe8c7b756; 0x242070db; 0xc1bdceee;
   0xf57c0faf; 0x4787c62a; 0xa8304613; 0xfd469501;
   0x698098d8; 0x8b44f7af; 0xffff5bb1; 0x895cd7be;
   0x6b901122; 0xfd987193; 0xa679438e; 0x49b40821;
   0xf61e2562; 0xc040b340; 0x265e5a51; 0xe9b6c7aa;
   0xd62f105d; 0x02441453; 0xd8a1e681; 0xe7d3fbc8;
   0x21e1cde6; 0xc33707d6; 0xf4d50d87; 0x455a14ed;
   0xa9e3e905; 0xfcefa3f8; 0x676f02d9; 0x8d2a4c8a;
   0xfffa3942; 0x8771f681; 0x6d9d6122; 0xfde5380c;
   0xa4beea44; 0x4bdecfa9; 0xf6bb4b60; 0xbebfbc70;
   0x289b7ec6; 0xeaa127fa; 0xd4ef3085; 0x04881d05;
   0xd9d4d039; 0xe6db99e5; 0x1fa27cf8; 0xc4ac5665;
   0xf4292244; 0x432aff97; 0xab9423a7; 0xfc93a039;
   0x655b59c3; 0x8f0ccc92; 0xffeff47d; 0x85845dd1;
   0x6fa87e4f; 0xfe2ce6e0; 0xa3014314; 0x4e0811a1;
   0xf7537e82; 0xbd3af235; 0x2ad7d2bb; 0xeb86d391].

Definition byte_to_Z (b : byte) : Z := Z.of_N (Byte.to_N b).

Definition Z_to_byte (z : Z) : byte :=
  match Byte.of_N (Z.to_N (z mod 256)) with
  | Some b => b
  | None => x00
  end.

(** [n] little-endian bytes of [z]. *)
Fixpoint le_bytes (n : nat) (z : Z) : list Z :=
  match n with
  | O => []
  | S n' => z mod 256 :: le_bytes n' (z / 256)
  end.

Fixpoint le_word (bs : list Z) : Z :=
  match bs with
  | [] => 0
  | b :: bs' => b + 256 * le_word bs'
  end.

(** The message followed by 0x80, zeros up to 56 modulo 64, and the bit
    length on 64 bits. *)
Definition pad (msg : list Z) : list Z :=
  let len := Z.of_nat (List.length msg) in
  let zeros := Z.to_nat ((55 - len) mod 64) in
  msg ++ [0x80] ++ List.repeat 0 zeros ++ le_bytes 8 ((8 * len) mod 2 ^ 64).

(** The sixteen words of a 64-byte block. *)
Fixpoint words (n : nat) (bs : list Z) : list Z :=
  match n with
  | O => []
  | S n' => le_word (firstn 4 bs) :: words n' (skipn 4 bs)
  end.

Definition round (M : list Z) (i : Z) (st : Z * Z * Z * Z) : Z * Z * Z * Z :=
  let '(A, B, C, D) := st in
  let '(F, g) :=
    if i <? 16 then (Z.lor (Z.land B C) (Z.land (not32 B) D), i)
    else if i <? 32 then (Z.lor (Z.land D B) (Z.land (not32 D) C), (5 * i + 1) mod 16)
    else if i <? 48 then (Z.lxor (Z.lxor B C) D, (3 * i + 5) mod 16)
    else (Z.lxor C (Z.lor B (not32 D)), (7 * i) mod 16) in
  let F' := add32 (add32 (add32 F A) (nth (Z.to_nat i) sines 0)) (nth (Z.to_nat g) M 0) in
  (D, add32 B (rotl32 F' (nth (Z.to_nat i) shifts 0)), B, C).

Definition block (st : Z * Z * Z * Z) (bs : list Z) : Z * Z * Z * Z :=
  let M := words 16 bs in
  let '(A, B, C, D) := fold_left (fun s i => round M (Z.of_nat i) s) (seq 0 64) st in
  let '(a0, b0, c0, d0) := st in
  (add32 a0 A, add32 b0 B, add32 c0 C, add32 d0 D).

Fixpoint blocks (n : nat) (st : Z * Z * Z * Z) (bs : list Z) : Z * Z * Z * Z :=
  match n with
  | O => st
  | S n' => blocks n' (block st (firstn 64 bs)) (skipn 64 bs)
  end.

Definition md5 (msg : list byte) : list byte :=
  let padded := pad (List.map byte_to_Z msg) in
  let '(A, B, C, D) :=
    blocks (Nat.div (List.length padded) 64)
      (0x67452301, 0xefcdab89, 0x98badcfe, 0x10325476) padded in
  List.map Z_to_byte (le_bytes 4 A ++ le_bytes 4 B ++ le_bytes 4 C ++ le_bytes 4 D).

(** An MD5 object is determined by the bytes fed so far. *)
Record md5_object := { fed : list byte }.

Definition md5_update (h : md5_object) (data : list byte) : md5_object :=
  {| fed := fed h ++ data |}.

Definition hexdigest (bs : list byte) : list Z := List.map byte_to_Z bs.

End MD5.

#[export] Program Instance md5_hash : HashObject MD5.md5_object := {
  hash_constructor := {| MD5.fed := [] |};
  update := MD5.md5_update;
  digest h := MD5.md5 (MD5.fed h)
}.
Next Obligation.
  intros [h]. unfold MD5.md5_update. simpl. now rewrite app_nil_r.
Qed.
Next Obligation.
  intros [h] a b. unfold MD5.md5_update. simpl. now rewrite <- app_assoc.
Qed.

(** ** Names and their encoding *)

(** A name is held as the bytes that the file system has for it.  Python
    decodes these bytes as UTF-8 and turns every byte that is not part of
    a well-formed sequence into a lone surrogate, so that the [str] can be
    given back to the operating system; a [str] that a name is joined
    from with [/] holds a surrogate exactly when the bytes of the result are
    not well-formed UTF-8. *)

(** The byte lies between [lo] and [hi]. *)
Definition byte_between (lo hi : N) (c : ascii) : bool :=
  ((lo <=? N_of_ascii c) && (N_of_ascii c <=? hi))%N.

(** The bytes are well-formed UTF-8: sequences of one to four bytes, the
    shortest one for every code point, no surrogate, nothing above
    U+10FFFF. *)
Fixpoint well_formed_utf8 (s : string) : bool :=
  match s with
  | EmptyString => true
  | String c0 s1 =>
      if byte_between 0 127 c0 then well_formed_utf8 s1
      else
        match s1 with
        | EmptyString => false
        | String c1 s2 =>
            if byte_between 194 223 c0
            then byte_between 128 191 c1 && well_formed_utf8 s2
            else
              match s2 with
              | EmptyString => false
              | String c2 s3 =>
                  if byte_between 224 224 c0
                  then byte_between 160 191 c1 && byte_between 128 191 c2
                       && well_formed_utf8 s3
                  else if byte_between 225 236 c0 || byte_between 238 239 c0
                  then byte_between 128 191 c1 && byte_between 128 191 c2
                       && well_formed_utf8 s3
                  else if byte_between 237 237 c0
                  then byte_between 128 159 c1 && byte_between 128 191 c2
                       && well_formed_utf8 s3
                  else
                    match s3 with
                    | EmptyString => false
                    | String c3 s4 =>
                        if byte_between 240 240 c0
                        then byte_between 144 191 c1 && byte_between 128 191 c2
                             && byte_between 128 191 c3 && well_formed_utf8 s4
                        else if byte_between 241 243 c0
                        then byte_between 128 191 c1 && byte_between 128 191 c2
                             && byte_between 128 191 c3 && well_formed_utf8 s4
                        else if byte_between 244 244 c0
                        then byte_between 128 143 c1 && byte_between 128 191 c2
                             && byte_between 128 191 c3 && well_formed_utf8 s4
                        else false
                    end
              end
        end
  end.

(** [name.encode('utf-8')]: the bytes of the name, or [None] for the
    [UnicodeEncodeError] that a surrogate raises. *)
Definition encode_utf8 (s : string) : option (list byte) :=
  if well_formed_utf8 s then Some (list_byte_of_string s) else None.

(** ** Paths *)

(** A [pathlib.PurePosixPath]: whether it is anchored at [/], and its
    components. *)
Record Path := { absolute : bool; parts : list string }.

(** [path / name], the way [iterdir] builds the path of a child. *)
Definition joinpath (p : Path) (name : string) : Path :=
  {| absolute := absolute p; parts := parts p ++ [name] |}.

Fixpoint strip_prefix (pre l : list string) : option (list string) :=
  match pre, l with
  | [], _ => Some l
  | a :: pre', b :: l' => if String.eqb a b then strip_prefix pre' l' else None
  | _ :: _, [] => None
  end.

(** [p.relative_to(other)]; [None] stands for the [ValueError] raised when
    [p] does not start with [other]. *)
Definition relative_to (p other : Path) : option Path :=
  if Bool.eqb (absolute p) (absolute other) then
    match strip_prefix (parts other) (parts p) with
    | Some rest => Some {| absolute := false; parts := rest |}
    | None => None
    end
  else None.

(** [p.as_posix()]. *)
Definition as_posix (p : Path) : string :=
  match absolute p, parts p with
  | false, [] => "."
  | false, ps => String.concat "/" ps
  | true, ps => ("/" ++ String.concat "/" ps)%string
  end.

(** ** The file system, as [hash_path] observes it *)

(** Metadata of an entry; [hash_path] never reads it. *)
Record stat := { st_mode : Z; st_uid : Z; st_mtime : Z }.

(** An open binary file: the bytes that can still be read, and the error
    the device reports once a read needs more than those bytes ([None]: the
    end of the file is reached normally). *)
Record file_object := { pending : list byte; fault : option errno }.

(** An entry, seen through [is_dir], [iterdir] and [open], all of which
    follow symbolic links.  The children of a directory are in the order
    in which [iterdir] yields them.  The entries are those on which
    [is_dir] returns: [stat] succeeds on them, or fails with an error that
    [is_dir] takes for an entry that is not there.  [Unlistable] is a
    directory whose iteration raises: [iterdir] raises, or the directory may
    be listed and not searched, so that [is_dir] raises on the first of its
    entries; either way the name of the directory has been fed and nothing
    of what it holds. *)
#[local] Unset Elimination Schemes.
Inductive fsnode :=
| Directory (st : stat) (children : list (string * fsnode))
| Unlistable (st : stat) (e : errno)
| RegularFile (st : stat) (opened : errno + file_object)
| SpecialFile (st : stat) (opened : errno + file_object)
| BrokenSymlink.
#[local] Set Elimination Schemes.

(** [p.is_dir()], on an entry on which it returns. *)
Definition is_dir (n : fsnode) : bool :=
  match n with
  | Directory _ _ | Unlistable _ _ => true
  | _ => false
  end.


(** [open(str(p), 'rb')]. *)
Definition open_rb (n : fsnode) : errno + file_object :=
  match n with
  | RegularFile _ o | SpecialFile _ o => o
  | BrokenSymlink => inl ENOENT
  | Directory _ _ | Unlistable _ _ => inl EISDIR
  end.

(** [fobj.read(size)]: at most [size] bytes; everything that is left when
    [size] is negative; [b''] at the end of the file. *)
Definition read (fobj : file_object) (size : Z) : (errno + list byte) * file_object :=
  let want := if size <? 0 then List.length (pending fobj) else Z.to_nat size in
  match fault fobj with
  | Some e =>
      if (0 <? size) && (Z.of_nat (List.length (pending fobj)) <? size) || (size <? 0)
      then (inl e, fobj)
      else (inr (firstn want (pending fobj)),
            {| pending := skipn want (pending fobj); fault := fault fobj |})
  | None =>
      (inr (firstn want (pending fobj)),
       {| pending := skipn want (pending fobj); fault := None |})
  end.

(** ** [read_in_chunks] *)

Definition inspect {A : Type} (a : A) : {b : A | a = b} := exist _ a eq_refl.

(** [iter(lambda: fobj.read(chunksize), b'')]: the chunks that the iterator
    yields until a read returns [b''], and the error that ends the
    iteration when a read raises. *)
Equations? read_in_chunks (fobj : file_object) (chunksize : Z)
  : list (list byte) * option errno by wf (List.length (pending fobj)) lt :=
  read_in_chunks fobj chunksize with inspect (read fobj chunksize) := {
    | exist _ (inl e, _) _ => ([], Some e)
    | exist _ (inr [], _) _ => ([], None)
    | exist _ (inr (b :: chunk), fobj') _ =>
        let r := read_in_chunks fobj' chunksize in
        ((b :: chunk) :: fst r, snd r)
  }.
Proof.
  unfold read in *.
  destruct (fault fobj);
    [destruct (_ || _); [discriminate|] |];
    match goal with H : (_, _) = (_, _) |- _ => inversion H; subst; clear H end;
    simpl; rewrite length_skipn;
    match goal with H : firstn ?n ?l = _ :: _ |- _ =>
      destruct n; [discriminate|]; destruct l; [discriminate|]; simpl; lia
    end.
Qed.

(** ** [hash_path] *)

(** How a call ends: it returns the hash object, or an exception propagates
    and the hash object is left as it was when the exception was raised. *)
Inductive outcome (H : Type) :=
| Return (h : H)
| Raise (e : exception) (h : H).
Arguments Return {H} h.
Arguments Raise {H} e h.

Definition final_state {H : Type} (o : outcome H) : H :=
  match o with
  | Return h | Raise _ h => h
  end.


Section for_each.
Context {H A : Type} (body : A -> H -> outcome H).

(** A [for] loop whose body mutates the hash object; an exception in the
    body ends the loop. *)
Fixpoint for_each (l : list A) (h : H) : outcome H :=
  match l with
  | [] => Return h
  | x :: l' =>
      match body x h with
      | Return h' => for_each l' h'
      | Raise e h' => Raise e h'
      end
  end.
End for_each.

(** The default of [chunksize] in [read_in_chunks]. *)
Definition chunksize_default : Z := 4096.

Section hash_path.
Context {H : Type} `{HashObject H}.

(** [for chunk in read_in_chunks(f): h.update(chunk)] *)
Definition update_chunks (f : file_object) (h : H) : outcome H :=
  let r := read_in_chunks f chunksize_default in
  let h := fold_left update (fst r) h in
  match snd r with
  | Some e => Raise (OSError e) h
  | None => Return h
  end.

(** [hash_path(path, hashobject, root, namefilter)], where [node] is the
    entry that the file system has at [path]; an omitted argument is
    [None].  The recursive calls, whose result the source drops, act on
    the same hash object. *)
Fixpoint hash_path (path : Path) (node : fsnode) (hashobject : option H)
    (root : option Path) (namefilter : option (string -> bool))
    {struct node} : outcome H :=
  let root := match root with None => path | Some r => r end in
  let h := match hashobject with None => hash_constructor | Some h => h end in
  match relative_to path root with
  | None => Raise ValueError h
  | Some rel =>
      let name := as_posix rel in
      let name := if is_dir node then (name ++ "/")%string else name in
      if match namefilter with Some f => negb (f name) | None => false end
      then Return h
      else
        match encode_utf8 name with
        | None => Raise UnicodeEncodeError h
        | Some encoded =>
            let h := update h encoded in
            match node with
            | Directory _ children =>
                for_each
                  (fun (entry : string * fsnode) h =>
                     hash_path (joinpath path (fst entry)) (snd entry)
                       (Some h) (Some root) namefilter)
                  children h
            | Unlistable _ e => Raise (OSError e) h
            | _ =>
                match open_rb node with
                | inl e => Raise (OSError e) h
                | inr f => update_chunks f h
                end
            end
        end
  end.

End hash_path.

(** ** Sample entries *)

(** A bytes literal. *)
Definition bytes_of (s : string) : list byte := list_byte_of_string s.

Definition st0 : stat := {| st_mode := 420; st_uid := 1000; st_mtime := 0 |}.

Definition plain_file (s : string) : fsnode :=
  RegularFile st0 (inr {| pending := bytes_of s; fault := None |}).

Definition abs_path (ps : list string) : Path := {| absolute := true; parts := ps |}.

Definition sample_tree : fsnode :=
  Directory st0
    [("a.qc", plain_file "one");
     ("sub", Directory st0 [("b.log", plain_file "two"); ("c.qh", plain_file "three")]);
     ("d", plain_file "")].

(** ** The entries that a walk visits *)

(** The name that lines 81-84 compute for an entry whose path relative to
    the root has components [rel]. *)
Definition token (rel : list string) (node : fsnode) : string :=
  let name := as_posix {| absolute := false; parts := rel |} in
  if is_dir node then (name ++ "/")%string else name.

Definition accepts (namefilter : option (string -> bool)) (name : string) : bool :=
  match namefilter with
  | Some f => f name
  | None => true
  end.

(** The entries that are not pruned, in the order of the walk, each with
    its components relative to the root. *)
Fixpoint visited (rel : list string) (node : fsnode)
    (namefilter : option (string -> bool)) {struct node}
  : list (list string * fsnode) :=
  if accepts namefilter (token rel node) then
    (rel, node) ::
    match node with
    | Directory _ children =>
        flat_map (fun entry : string * fsnode =>
                    visited (rel ++ [fst entry]) (snd entry) namefilter)
                 children
    | _ => []
    end
  else [].

(** What the walk reads of an entry. *)
Inductive content :=
| Listed
| ListError (e : errno)
| Opened (f : file_object)
| OpenError (e : errno).

Definition content_of (node : fsnode) : content :=
  match node with
  | Directory _ _ => Listed
  | Unlistable _ e => ListError e
  | _ => match open_rb node with
         | inl e => OpenError e
         | inr f => Opened f
         end
  end.

(** The name token and the content of every entry that is not pruned. *)
Definition entries (rel : list string) (node : fsnode)
    (namefilter : option (string -> bool)) : list (string * content) :=
  List.map (fun v : list string * fsnode => (token (fst v) (snd v), content_of (snd v)))
           (visited rel node namefilter).

Section feed.
Context {H : Type} `{HashObject H}.

(** What [hash_path] feeds for one entry. *)
Definition feed (entry : string * content) (h : H) : outcome H :=
  match encode_utf8 (fst entry) with
  | None => Raise UnicodeEncodeError h
  | Some encoded =>
      let h := update h encoded in
      match snd entry with
      | Listed => Return h
      | ListError e | OpenError e => Raise (OSError e) h
      | Opened f => update_chunks f h
      end
  end.
End feed.


(** Induction on entries, with the hypothesis for every child of a
    directory. *)
Section fsnode_induction.
Variable P : fsnode -> Prop.
Hypothesis P_Directory :
  forall st children, Forall (fun entry => P (snd entry)) children ->
                      P (Directory st children).
Hypothesis P_Unlistable : forall st e, P (Unlistable st e).
Hypothesis P_RegularFile : forall st o, P (RegularFile st o).
Hypothesis P_SpecialFile : forall st o, P (SpecialFile st o).
Hypothesis P_BrokenSymlink : P BrokenSymlink.

Fixpoint fsnode_ind (n : fsnode) : P n :=
  match n with
  | Directory st children =>
      P_Directory st children
        ((fix all (l : list (string * fsnode)) : Forall (fun entry => P (snd entry)) l :=
            match l with
            | [] => List.Forall_nil _
            | x :: l' => List.Forall_cons _ x l' (fsnode_ind (snd x)) (all l')
            end) children)
  | Unlistable st e => P_Unlistable st e
  | RegularFile st o => P_RegularFile st o
  | SpecialFile st o => P_SpecialFile st o
  | BrokenSymlink => P_BrokenSymlink
  end.
End fsnode_induction.

(** ** Well-formed names *)

Fixpoint has_slash (s : string) : bool :=
  match s with
  | EmptyString => false
  | String c s' => Ascii.eqb c "/"%char || has_slash s'
  end.

(** A path component is not empty and holds no separator. *)
Definition valid_name (s : string) : bool :=
  negb (String.eqb s "") && negb (has_slash s).

Fixpoint valid_tree (n : fsnode) : bool :=
  match n with
  | Directory _ children =>
      forallb (fun entry : string * fsnode =>
                 valid_name (fst entry) && valid_tree (snd entry)) children
  | _ => true
  end.

Fixpoint ends_with_slash (s : string) : bool :=
  match s with
  | EmptyString => false
  | String c EmptyString => Ascii.eqb c "/"%char
  | String _ s' => ends_with_slash s'
  end.


(** ** Sample trees and filters *)

(** A filter that prunes the build directory, and such a directory. *)
Definition reject_build (name : string) : bool := negb (String.eqb name "build/").

Definition build_dir : fsnode :=
  Directory st0 [("main.c", plain_file "int main;")].

(** A content that is longer than one chunk and not a multiple of it. *)
Definition five_thousand_bytes : list byte := List.repeat "x"%byte 5000.

(** A filter that rejects the name of the root entry. *)
Definition reject_dot (name : string) : bool :=
  negb (String.eqb name "./") && negb (String.eqb name ".").

(** The same two files, listed in one order and in the other. *)
Definition tree_ab : fsnode :=
  Directory st0 [("a", plain_file "1"); ("b", plain_file "2")].

Definition tree_ba : fsnode :=
  Directory st0 [("b", plain_file "2"); ("a", plain_file "1")].

(** The same sources on two machines: another location, owner and time,
    and other build products, which the filter prunes. *)
Definition checkout_here : fsnode :=
  Directory {| st_mode := 493; st_uid := 1000; st_mtime := 1700000000 |}
    [("a.qc", RegularFile {| st_mode := 420; st_uid := 1000; st_mtime := 1700000001 |}
                (inr {| pending := bytes_of "float x;"; fault := None |}));
     ("out.log", plain_file "built at noon")].

Definition checkout_there : fsnode :=
  Directory {| st_mode := 448; st_uid := 0; st_mtime := 1800000000 |}
    [("a.qc", RegularFile {| st_mode := 384; st_uid := 0; st_mtime := 1800000005 |}
                (inr {| pending := bytes_of "float x;"; fault := None |}));
     ("out.log", plain_file "built at midnight, with warnings")].

(** [name.endswith(suffix)] *)
Fixpoint ends_with (suffix s : string) : bool :=
  String.eqb suffix s ||
  match s with
  | EmptyString => false
  | String _ s' => ends_with suffix s'
  end.

(** [namefilter_qcmodule], the filter of the module. *)
Definition namefilter_qcmodule (name : string) : bool :=
  negb (ends_with ".log" name) && negb (String.eqb name "rm_auto.qh").



(** A directory [a] that holds an empty file [b], and a file [a] that holds
    the bytes [/a/b]. *)
Definition tree_a_directory : fsnode :=
  Directory st0 [("a", Directory st0 [("b", plain_file "")])].

Definition tree_a_file : fsnode :=
  Directory st0 [("a", plain_file "/a/b")].


(** * The worker pool *)

(** ** Tasks *)

(** A task is a callable without arguments.  All that the pool observes of
    an invocation is whether it returns or raises; [task_id] tells apart
    the tasks of a run. *)
Record task := { task_id : nat; raises : option exception }.

(** ** Threads *)

(** Where a thread stands in [Worker._func]. *)
Inductive location :=
| Unstarted                 (* created, [start()] not called yet *)
| AtErrorsCheck             (* line 210: [if self.errors] *)
| AtGet                     (* line 214: [q.get(False)] *)
| AtCall (t : task)         (* line 219: [task()] *)
| AtExcept (e : exception)  (* lines 221-222: the handler *)
| AtTaskDone                (* line 223: [q.task_done()] *)
| AtExit                    (* line 224: after the loop *)
| Finished                  (* [_func] has returned *)
| Died (e : exception).     (* an exception has left [_func] *)

Record thread := {
  thread_name : string;
  thread_daemon : bool;
  loc : location
}.

Definition set_loc (l : location) (th : thread) : thread :=
  {| thread_name := thread_name th; thread_daemon := thread_daemon th; loc := l |}.

(** [daemon(name, func, start)]; the target is always [Worker._func]. *)
Definition daemon (name : string) (start : bool) : thread :=
  let thread := {| thread_name := name; thread_daemon := true; loc := Unstarted |} in
  if start then set_loc AtErrorsCheck thread else thread.

(** [thread.is_alive()] is false: the thread has terminated. *)
Definition terminated (th : thread) : bool :=
  match loc th with
  | Finished | Died _ => true
  | _ => false
  end.

(** ** [queue.Queue] *)

(** An unbounded queue: its items, first in first out, and the number of
    items that were put and for which [task_done] was not called yet. *)
Record Queue := { items : list task; unfinished_tasks : nat }.

(** [queue.Queue()] *)
Definition Queue_new : Queue := {| items := []; unfinished_tasks := 0 |}.

(** [q.put(task)] *)
Definition put (q : Queue) (t : task) : Queue :=
  {| items := items q ++ [t]; unfinished_tasks := S (unfinished_tasks q) |}.

(** [q.get(False)]; [None] stands for [queue.Empty]. *)
Definition get_nowait (q : Queue) : option (task * Queue) :=
  match items q with
  | [] => None
  | t :: rest => Some (t, {| items := rest; unfinished_tasks := unfinished_tasks q |})
  end.

(** [q.task_done()]; [None] stands for the [ValueError] of a call too
    many. *)
Definition task_done (q : Queue) : option Queue :=
  match unfinished_tasks q with
  | O => None
  | S n => Some {| items := items q; unfinished_tasks := n |}
  end.

(** ** The log *)

Inductive message :=
| StartingThread (thread : string)
| AddTaskMsg (t : task)
| ThreadTerminating
| UnhandledException (e : exception).

(** A record of the logger: the thread that emitted it ([None]: the
    caller's thread), the name of the pool, the message. *)
Record log_record := { emitter : option nat; worker : string; msg : message }.

(** ** [Worker] *)

(** The attributes of a pool; [log] holds the records that the logger
    [self.log] has received. *)
Record Worker := {
  name : string;
  queue : Queue;
  threads : list thread;
  log : list log_record;
  started : bool;
  errors : list exception
}.

(** ["%i" % i] *)
Definition decimal (i : nat) : string := NilEmpty.string_of_uint (Nat.to_uint i).

(** [Worker.__init__(name, threads)] *)
Definition Worker_init (name : string) (threads : Z) : Worker :=
  {| name := name;
     queue := Queue_new;
     threads :=
       if 1 <? threads
       then List.map (fun i => daemon (name ++ ":" ++ decimal i)%string false)
                     (seq 0 (Z.to_nat threads))
       else [daemon name false];
     log := [];
     started := false;
     errors := [] |}.

(** [Worker._log]: one more record, at debug level. *)
Definition _log (w : Worker) (who : option nat) (m : message) : list log_record :=
  log w ++ [{| emitter := who; worker := name w; msg := m |}].

(** ** Executions *)

(** What happened in a run, oldest first. *)
Inductive event :=
| Dequeued (i : nat) (t : task)
| Invoked (i : nat) (t : task)
| Recorded (i : nat) (e : exception).

(** The calls that the caller's thread makes on the pool. *)
Inductive call := AddTask (t : task) | Start | Wait.

(** Where the caller stands: between two calls, in the loop of [start] or
    of [wait] at the thread of that index, or stopped by an exception. *)
Inductive caller_location :=
| Between
| InStart (k : nat)
| InWait (k : nat)
| CallerDied (e : exception).

(** A state of a run: the pool, the calls that the caller has still to
    make, where the caller stands, and what happened so far. *)
Record state := {
  self : Worker;
  todo : list call;
  position : caller_location;
  trace : list event
}.

(** The pool, with the thread of index [i] moved to [l]. *)
Definition with_threads (w : Worker) (ths : list thread) : Worker :=
  {| name := name w; queue := queue w; threads := ths; log := log w;
     started := started w; errors := errors w |}.

Definition move (i : nat) (l : location) (w : Worker) : Worker :=
  with_threads w (alter (set_loc l) i (threads w)).

(** [Worker._func], run by the worker thread of index [i]: the step that
    the thread takes from the place where it stands; [None] when the thread
    is not running. *)
Definition _func (i : nat) (s : state) : option state :=
  let w := self s in
  match threads w !! i with
  | None => None
  | Some th =>
      match loc th with
      | Unstarted | Finished | Died _ => None
      | AtErrorsCheck =>
          let next := match errors w with [] => AtGet | _ :: _ => AtExit end in
          Some {| self := move i next w; todo := todo s;
                  position := position s; trace := trace s |}
      | AtGet =>
          match get_nowait (queue w) with
          | None =>
              Some {| self := move i AtExit w; todo := todo s;
                      position := position s; trace := trace s |}
          | Some (t, q) =>
              Some {| self := move i (AtCall t)
                                {| name := name w; queue := q; threads := threads w;
                                   log := log w; started := started w;
                                   errors := errors w |};
                      todo := todo s; position := position s;
                      trace := trace s ++ [Dequeued i t] |}
          end
      | AtCall t =>
          let next :=
            match raises t with
            | None => AtTaskDone
            | Some e => if isinstance_Exception e then AtExcept e else Died e
            end in
          Some {| self := move i next w; todo := todo s;
                  position := position s; trace := trace s ++ [Invoked i t] |}
      | AtExcept e =>
          Some {| self := move i AtTaskDone
                            {| name := name w; queue := queue w; threads := threads w;
                               log := _log w (Some i) (UnhandledException e);
                               started := started w;
                               errors := errors w ++ [e] |};
                  todo := todo s; position := position s;
                  trace := trace s ++ [Recorded i e] |}
      | AtTaskDone =>
          match task_done (queue w) with
          | None =>
              Some {| self := move i (Died ValueError) w; todo := todo s;
                      position := position s; trace := trace s |}
          | Some q =>
              Some {| self := move i AtErrorsCheck
                                {| name := name w; queue := q; threads := threads w;
                                   log := log w; started := started w;
                                   errors := errors w |};
                      todo := todo s; position := position s; trace := trace s |}
          end
      | AtExit =>
          Some {| self := move i Finished
                            {| name := name w; queue := queue w; threads := threads w;
                               log := _log w (Some i) ThreadTerminating;
                               started := started w; errors := errors w |};
                  todo := todo s; position := position s; trace := trace s |}
      end
  end.

(** [Worker.add_task(task)] *)
Definition add_task (w : Worker) (t : task) : Worker :=
  {| name := name w; queue := put (queue w) t; threads := threads w;
     log := _log w None (AddTaskMsg t);
     started := started w; errors := errors w |}.

(** [Worker.start()], at the thread of index [k]: one turn of the loop,
    which logs and starts that thread, or after the last thread the end of
    the loop, which sets [started].  Starting a thread a second time raises
    [RuntimeError]. *)
Definition start (k : nat) (s : state) : state :=
  let w := self s in
  match threads w !! k with
  | Some th =>
      let w' := {| name := name w; queue := queue w; threads := threads w;
                   log := _log w None (StartingThread (thread_name th));
                   started := started w; errors := errors w |} in
      match loc th with
      | Unstarted =>
          {| self := move k AtErrorsCheck w'; todo := todo s;
             position := InStart (S k); trace := trace s |}
      | _ =>
          {| self := w'; todo := todo s;
             position := CallerDied RuntimeError; trace := trace s |}
      end
  | None =>
      {| self := {| name := name w; queue := queue w; threads := threads w;
                    log := log w; started := true; errors := errors w |};
         todo := todo s; position := Between; trace := trace s |}
  end.

(** [Worker.wait()], past the test of [started], at the thread of index
    [k]: [join] returns once that thread has terminated and blocks as long
    as it runs; on a thread that was not started it raises [RuntimeError];
    after the last thread [wait] returns. *)
Definition wait (k : nat) (s : state) : option state :=
  let w := self s in
  match threads w !! k with
  | Some th =>
      match loc th with
      | Unstarted =>
          Some {| self := w; todo := todo s;
                  position := CallerDied RuntimeError; trace := trace s |}
      | Finished | Died _ =>
          Some {| self := w; todo := todo s;
                  position := InWait (S k); trace := trace s |}
      | _ => None
      end
  | None =>
      Some {| self := w; todo := todo s; position := Between; trace := trace s |}
  end.

(** One step of the caller's thread: its next call, or the next turn of
    the loop of [start] or of [wait]; [None] when it has nothing left to do,
    has died, or is blocked in [join]. *)
Definition step_caller (s : state) : option state :=
  let w := self s in
  match position s with
  | CallerDied _ => None
  | Between =>
      match todo s with
      | [] => None
      | AddTask t :: rest =>
          Some {| self := add_task w t; todo := rest;
                  position := Between; trace := trace s |}
      | Start :: rest =>
          Some {| self := w; todo := rest; position := InStart 0; trace := trace s |}
      | Wait :: rest =>
          (* [if self.started] *)
          Some {| self := w; todo := rest;
                  position := if started w then InWait 0 else Between;
                  trace := trace s |}
      end
  | InStart k => Some (start k s)
  | InWait k => wait k s
  end.

(** Who takes the next step. *)
Inductive actor := Caller | Thread (i : nat).

Definition step (a : actor) (s : state) : option state :=
  match a with
  | Caller => step_caller s
  | Thread i => _func i s
  end.

(** Runs a schedule; an actor that cannot run is passed over. *)
Fixpoint run (schedule : list actor) (s : state) : state :=
  match schedule with
  | [] => s
  | a :: rest =>
      match step a s with
      | Some s' => run rest s'
      | None => run rest s
      end
  end.

(** The states that some interleaving reaches from [s]. *)
Inductive reaches (s : state) : state -> Prop :=
| reaches_refl : reaches s s
| reaches_step : forall a s1 s2,
    reaches s s1 -> step a s1 = Some s2 -> reaches s s2.

(** The caller's thread has returned from its last call. *)
Definition returned (s : state) : bool :=
  match todo s, position s with
  | [], Between => true
  | _, _ => false
  end.

(** A pool that has just been built, and the calls that its user makes. *)
Definition initial (w : Worker) (calls : list call) : state :=
  {| self := w; todo := calls; position := Between; trace := [] |}.

(** [add_task] for every task, then [start()], then [wait()]. *)
Definition enqueue_start_wait (tasks : list task) : list call :=
  List.map AddTask tasks ++ [Start; Wait].

Definition invoked (tr : list event) : list task :=
  flat_map (fun ev => match ev with Invoked _ t => [t] | _ => [] end) tr.

Definition recorded (tr : list event) : list exception :=
  flat_map (fun ev => match ev with Recorded _ e => [e] | _ => [] end) tr.

(** The events that follow the first recorded error. *)
Fixpoint after_first_error (tr : list event) : list event :=
  match tr with
  | [] => []
  | Recorded _ _ :: rest => rest
  | _ :: rest => after_first_error rest
  end.


Definition dequeued (tr : list event) : list task :=
  flat_map (fun ev => match ev with Dequeued _ t => [t] | _ => [] end) tr.

(** ** Quantities of a state *)

(** The task that a thread has taken from the queue and not yet invoked. *)
Definition holding (th : thread) : list task :=
  match loc th with
  | AtCall t => [t]
  | _ => []
  end.

Definition in_flight (ths : list thread) : list task := flat_map holding ths.

(** The tasks that the caller has still to enqueue. *)
Definition pending_adds (calls : list call) : list task :=
  flat_map (fun c => match c with AddTask t => [t] | _ => [] end) calls.

Definition count (p : thread -> bool) (ths : list thread) : nat :=
  List.length (List.filter p ths).

(** The thread has taken a task for which [task_done] is still to come. *)
Definition busy (th : thread) : bool :=
  match loc th with
  | AtCall _ | AtExcept _ | AtTaskDone => true
  | _ => false
  end.

Definition at_get (th : thread) : bool :=
  match loc th with
  | AtGet => true
  | _ => false
  end.

(** Past the check of [self.errors], with a task still to invoke. *)
Definition taking (th : thread) : bool :=
  match loc th with
  | AtGet | AtCall _ => true
  | _ => false
  end.

(** An upper bound of the number of steps that a thread can still take
    without a new task. *)
Definition thread_weight (th : thread) : nat :=
  match loc th with
  | Unstarted => 3
  | AtErrorsCheck => 3
  | AtGet => 2
  | AtCall _ => 6
  | AtExcept _ => 5
  | AtTaskDone => 4
  | AtExit => 1
  | Finished | Died _ => 0
  end.

Definition call_weight (n : nat) (c : call) : nat :=
  match c with
  | AddTask _ => 6
  | Start | Wait => n + 3
  end.

Definition caller_weight (n : nat) (s : state) : nat :=
  match position s with
  | CallerDied _ => 0
  | Between => list_sum (List.map (call_weight n) (todo s))
  | InStart k | InWait k => list_sum (List.map (call_weight n) (todo s)) + (n - k) + 1
  end.

(** Every step makes this number smaller. *)
Definition measure (s : state) : nat :=
  caller_weight (List.length (threads (self s))) s
  + list_sum (List.map thread_weight (threads (self s)))
  + 5 * List.length (items (queue (self s))).

(** ** The steps, case by case *)

(** What a step of a worker thread [th] of index [i] changes: the place of
    the thread, the queue, the log, the errors, and the events it adds to
    the trace. *)
Inductive thread_effect (w : Worker) (i : nat) (th : thread)
  : location -> Queue -> list log_record -> list exception -> list event -> Prop :=
| check_passes :
    loc th = AtErrorsCheck -> errors w = [] ->
    thread_effect w i th AtGet (queue w) (log w) (errors w) []
| check_breaks :
    loc th = AtErrorsCheck -> errors w <> [] ->
    thread_effect w i th AtExit (queue w) (log w) (errors w) []
| get_empty :
    loc th = AtGet -> items (queue w) = [] ->
    thread_effect w i th AtExit (queue w) (log w) (errors w) []
| get_task : forall t rest,
    loc th = AtGet -> items (queue w) = t :: rest ->
    thread_effect w i th (AtCall t)
      {| items := rest; unfinished_tasks := unfinished_tasks (queue w) |}
      (log w) (errors w) [Dequeued i t]
| call_returns : forall t,
    loc th = AtCall t -> raises t = None ->
    thread_effect w i th AtTaskDone (queue w) (log w) (errors w) [Invoked i t]
| call_caught : forall t e,
    loc th = AtCall t -> raises t = Some e -> isinstance_Exception e = true ->
    thread_effect w i th (AtExcept e) (queue w) (log w) (errors w) [Invoked i t]
| call_kills : forall t e,
    loc th = AtCall t -> raises t = Some e -> isinstance_Exception e = false ->
    thread_effect w i th (Died e) (queue w) (log w) (errors w) [Invoked i t]
| handler_records : forall e,
    loc th = AtExcept e ->
    thread_effect w i th AtTaskDone (queue w)
      (_log w (Some i) (UnhandledException e)) (errors w ++ [e]) [Recorded i e]
| task_done_fails :
    loc th = AtTaskDone -> unfinished_tasks (queue w) = O ->
    thread_effect w i th (Died ValueError) (queue w) (log w) (errors w) []
| task_done_counts : forall n,
    loc th = AtTaskDone -> unfinished_tasks (queue w) = S n ->
    thread_effect w i th AtErrorsCheck
      {| items := items (queue w); unfinished_tasks := n |}
      (log w) (errors w) []
| thread_exits :
    loc th = AtExit ->
    thread_effect w i th Finished (queue w)
      (_log w (Some i) ThreadTerminating) (errors w) [].

(** A step of the worker thread of index [i]. *)
Inductive thread_step (i : nat) (s : state) : state -> Prop :=
| thread_step_intro : forall pre th post l q lg errs evs,
    threads (self s) = pre ++ th :: post ->
    List.length pre = i ->
    thread_effect (self s) i th l q lg errs evs ->
    thread_step i s
      {| self := {| name := name (self s); queue := q;
                    threads := pre ++ set_loc l th :: post;
                    log := lg; started := started (self s); errors := errs |};
         todo := todo s; position := position s; trace := trace s ++ evs |}.

(** A step of the caller's thread. *)
Inductive caller_step (s : state) : state -> Prop :=
| caller_adds : forall t rest,
    position s = Between -> todo s = AddTask t :: rest ->
    caller_step s
      {| self := {| name := name (self s); queue := put (queue (self s)) t;
                    threads := threads (self s);
                    log := _log (self s) None (AddTaskMsg t);
                    started := started (self s); errors := errors (self s) |};
         todo := rest; position := Between; trace := trace s |}
| caller_enters_start : forall rest,
    position s = Between -> todo s = Start :: rest ->
    caller_step s
      {| self := self s; todo := rest; position := InStart 0; trace := trace s |}
| caller_wait_not_started : forall rest,
    position s = Between -> todo s = Wait :: rest -> started (self s) = false ->
    caller_step s
      {| self := self s; todo := rest; position := Between; trace := trace s |}
| caller_enters_wait : forall rest,
    position s = Between -> todo s = Wait :: rest -> started (self s) = true ->
    caller_step s
      {| self := self s; todo := rest; position := InWait 0; trace := trace s |}
| caller_starts_thread : forall k pre th post,
    position s = InStart k ->
    threads (self s) = pre ++ th :: post -> List.length pre = k ->
    loc th = Unstarted ->
    caller_step s
      {| self := {| name := name (self s); queue := queue (self s);
                    threads := pre ++ set_loc AtErrorsCheck th :: post;
                    log := _log (self s) None (StartingThread (thread_name th));
                    started := started (self s); errors := errors (self s) |};
         todo := todo s; position := InStart (S k); trace := trace s |}
| caller_starts_twice : forall k th,
    position s = InStart k ->
    threads (self s) !! k = Some th -> loc th <> Unstarted ->
    caller_step s
      {| self := {| name := name (self s); queue := queue (self s);
                    threads := threads (self s);
                    log := _log (self s) None (StartingThread (thread_name th));
                    started := started (self s); errors := errors (self s) |};
         todo := todo s; position := CallerDied RuntimeError; trace := trace s |}
| caller_leaves_start : forall k,
    position s = InStart k -> threads (self s) !! k = None ->
    caller_step s
      {| self := {| name := name (self s); queue := queue (self s);
                    threads := threads (self s); log := log (self s);
                    started := true; errors := errors (self s) |};
         todo := todo s; position := Between; trace := trace s |}
| caller_joins_unstarted : forall k th,
    position s = InWait k ->
    threads (self s) !! k = Some th -> loc th = Unstarted ->
    caller_step s
      {| self := self s; todo := todo s;
         position := CallerDied RuntimeError; trace := trace s |}
| caller_joins : forall k th,
    position s = InWait k ->
    threads (self s) !! k = Some th -> terminated th = true ->
    caller_step s
      {| self := self s; todo := todo s; position := InWait (S k); trace := trace s |}
| caller_leaves_wait : forall k,
    position s = InWait k -> threads (self s) !! k = None ->
    caller_step s
      {| self := self s; todo := todo s; position := Between; trace := trace s |}.

(** ** Invariants *)

(** What holds in every state of a run of [calls] on a pool of [n] threads
    called [pool]. *)
Record invariant (pool : string) (n : nat) (calls : list call) (s : state) : Prop := {
  (* the pool keeps its name and its threads *)
  inv_name : name (self s) = pool;
  inv_threads : List.length (threads (self s)) = n;
  (* every task is in exactly one place *)
  inv_conserve :
    Permutation (pending_adds calls)
      (invoked (trace s) ++ in_flight (threads (self s))
       ++ items (queue (self s)) ++ pending_adds (todo s));
  (* the errors are the exceptions that the handlers recorded *)
  inv_errors : errors (self s) = recorded (trace s);
  (* [task_done] is never called once too many *)
  inv_unfinished :
    (List.length (items (queue (self s))) + count busy (threads (self s))
     <= unfinished_tasks (queue (self s)))%nat;
  (* no [Exception] leaves a worker thread *)
  inv_died :
    Forall (fun th => forall e, loc th = Died e -> isinstance_Exception e = false)
           (threads (self s));
  (* an [Exception] that a task raised is recorded, or about to be *)
  inv_raised :
    forall i t e,
      In (Invoked i t) (trace s) -> raises t = Some e ->
      isinstance_Exception e = true ->
      In (Recorded i e) (trace s) \/
      exists th, threads (self s) !! i = Some th /\ loc th = AtExcept e;
  (* what is recorded is logged by the thread that recorded it *)
  inv_logged :
    forall i e,
      In (Recorded i e) (trace s) ->
      In {| emitter := Some i; worker := pool; msg := UnhandledException e |}
         (log (self s));
  (* after the first error, only the threads that were past the check of
     the errors invoke, or take, one more task *)
  inv_after_invoked :
    errors (self s) <> [] ->
    (List.length (invoked (after_first_error (trace s)))
     + count taking (threads (self s)) + 1 <= n)%nat;
  inv_after_dequeued :
    errors (self s) <> [] ->
    (List.length (dequeued (after_first_error (trace s)))
     + count at_get (threads (self s)) + 1 <= n)%nat;
  (* the queue is first in, first out *)
  inv_fifo :
    pending_adds calls
    = dequeued (trace s) ++ items (queue (self s)) ++ pending_adds (todo s);
  (* a task taken from the queue is invoked, or about to be *)
  inv_dequeued :
    Permutation (dequeued (trace s))
                (invoked (trace s) ++ in_flight (threads (self s)))
}.

(** A property of every thread, given its index. *)
Definition every (P : nat -> thread -> Prop) (ths : list thread) : Prop :=
  forall j th, ths !! j = Some th -> P j th.

(** Where a run of [enqueue_start_wait] stands. *)
Inductive phase (s : state) : Prop :=
| enqueueing : forall rest,
    position s = Between ->
    todo s = List.map AddTask rest ++ [Start; Wait] ->
    started (self s) = false ->
    every (fun _ th => loc th = Unstarted) (threads (self s)) ->
    phase s
| starting : forall k,
    position s = InStart k -> todo s = [Wait] ->
    started (self s) = false ->
    every (fun j th => (j < k)%nat -> loc th <> Unstarted) (threads (self s)) ->
    every (fun j th => (k <= j)%nat -> loc th = Unstarted) (threads (self s)) ->
    phase s
| running :
    position s = Between -> todo s = [Wait] ->
    started (self s) = true ->
    every (fun _ th => loc th <> Unstarted) (threads (self s)) ->
    phase s
| waiting : forall k,
    position s = InWait k -> todo s = [] ->
    every (fun _ th => loc th <> Unstarted) (threads (self s)) ->
    every (fun j th => (j < k)%nat -> terminated th = true) (threads (self s)) ->
    phase s
| joined :
    position s = Between -> todo s = [] ->
    every (fun _ th => terminated th = true) (threads (self s)) ->
    phase s.

(** The task raises nothing. *)
Definition peaceful (t : task) : Prop := raises t = None.

(** What holds in a run whose tasks raise nothing. *)
Record calm (s : state) : Prop := {
  calm_errors : errors (self s) = [];
  calm_threads :
    Forall (fun th => match loc th with
                      | Died _ | AtExcept _ => False
                      | AtCall t => peaceful t
                      | _ => True
                      end) (threads (self s));
  calm_queue : Forall peaceful (items (queue (self s)));
  calm_todo : Forall peaceful (pending_adds (todo s));
  (* a thread leaves the loop only when the queue is empty *)
  calm_drained :
    Exists (fun th => loc th = AtExit \/ loc th = Finished) (threads (self s)) ->
    items (queue (self s)) = []
}.

(** ** Sample tasks and schedules *)

Definition peaceful_task (n : nat) : task := {| task_id := n; raises := None |}.

Definition failing_task (n : nat) : task :=
  {| task_id := n; raises := Some (TaskError n) |}.

(** A task that calls [sys.exit()]. *)
Definition exiting_task (n : nat) : task := {| task_id := n; raises := Some SystemExit |}.

Definition round_robin (rounds : nat) (actors : list actor) : list actor :=
  List.concat (List.repeat actors rounds).

(** Three tasks on two threads, everybody in turn. *)
Definition three_tasks : list task := [peaceful_task 1; peaceful_task 2; peaceful_task 3].

Definition three_tasks_run : state :=
  run (round_robin 30 [Caller; Thread 0; Thread 1])
      (initial (Worker_init "qc" 2) (enqueue_start_wait three_tasks)).

(** Two threads pass the check of the errors; the first takes a task that
    raises and records the error; only then does the second take its
    task. *)
Definition race_schedule : list actor :=
  List.repeat Caller 6
  ++ [Thread 0; Thread 1; Thread 0; Thread 0; Thread 0; Thread 1; Thread 1]
  ++ round_robin 10 [Caller; Thread 0; Thread 1].

Definition race_run : state :=
  run race_schedule
      (initial (Worker_init "qc" 2)
               (enqueue_start_wait [failing_task 1; peaceful_task 2])).

(** One thread, one task that exits. *)
Definition exit_run : state :=
  run (round_robin 10 [Caller; Thread 0])
      (initial (Worker_init "qc" 1) (enqueue_start_wait [exiting_task 1])).


(** A started pool whose two threads have run the three tasks and
    terminated before the caller comes to [wait()], which is its next
    call. *)
Definition workers_done : state :=
  run (List.repeat Caller 7 ++ round_robin 14 [Thread 0; Thread 1])
      (initial (Worker_init "qc" 2)
               (enqueue_start_wait three_tasks ++ [AddTask (peaceful_task 4)])).

(** A pool that was never started, with tasks in its queue and [wait()] as
    the next call. *)
Definition idle_pool : state :=
  run [Caller; Caller]
      (initial (Worker_init "qc" 3)
               [AddTask (peaceful_task 1); AddTask (failing_task 2); Wait; Start]).


(** * More of the module *)

(** ** The bytes that a walk feeds *)

(** The bytes that [hash_path] feeds for one entry, and the exception that
    stops it there. *)
Definition feed_bytes (entry : string * content) : list byte * option exception :=
  match encode_utf8 (fst entry) with
  | None => ([], Some UnicodeEncodeError)
  | Some encoded =>
      match snd entry with
      | Listed => (encoded, None)
      | ListError e | OpenError e => (encoded, Some (OSError e))
      | Opened f =>
          let r := read_in_chunks f chunksize_default in
          (encoded ++ List.concat (fst r), option_map OSError (snd r))
      end
  end.

(** The bytes fed for a sequence of entries, up to the first exception. *)
Fixpoint walk_bytes (l : list (string * content)) : list byte * option exception :=
  match l with
  | [] => ([], None)
  | entry :: l' =>
      match feed_bytes entry with
      | (b, Some e) => (b, Some e)
      | (b, None) => (b ++ fst (walk_bytes l'), snd (walk_bytes l'))
      end
  end.


(** ** More about runs of the pool *)

(** The states that a run reaches from [s] in so many steps. *)
Inductive reaches_in (s : state) : nat -> state -> Prop :=
| reaches_in_O : reaches_in s 0 s
| reaches_in_S : forall k a s1 s2,
    reaches_in s k s1 -> step a s1 = Some s2 -> reaches_in s (S k) s2.

(** The thread has been ended by an exception. *)
Definition killed (th : thread) : bool :=
  match loc th with
  | Died _ => true
  | _ => false
  end.

(** The tasks up to the first one that raises, that one included. *)
Fixpoint until_raise (tasks : list task) : list task :=
  match tasks with
  | [] => []
  | t :: rest =>
      match raises t with
      | None => t :: until_raise rest
      | Some _ => [t]
      end
  end.

(** The exception of the first task that raises, when it derives from
    [Exception]. *)
Fixpoint first_error (tasks : list task) : list exception :=
  match tasks with
  | [] => []
  | t :: rest =>
      match raises t with
      | None => first_error rest
      | Some e => if isinstance_Exception e then [e] else []
      end
  end.

(** The number of calls of [start()]. *)
Definition count_starts (calls : list call) : nat :=
  List.length (List.filter (fun c => match c with Start => true | _ => false end) calls).

(** A run that is over, followed by a late [add_task] and a [wait]. *)
Definition late_add : state :=
  {| self := self three_tasks_run;
     todo := [AddTask (peaceful_task 4); Wait];
     position := Between;
     trace := trace three_tasks_run |}.

Definition late_add_run : state :=
  run [Caller; Thread 0; Thread 1; Caller; Caller; Caller; Caller] late_add.

(** The number of steps that a schedule takes, the actors that cannot run
    being passed over. *)
Fixpoint steps_taken (schedule : list actor) (s : state) : nat :=
  match schedule with
  | [] => 0
  | a :: rest =>
      match step a s with
      | Some s' => S (steps_taken rest s')
      | None => steps_taken rest s
      end
  end.

(** Where the caller stands with respect to [start()], in a run that calls
    it at most once. *)
Inductive discipline (s : state) : Prop :=
| before_start :
    position s = Between -> started (self s) = false ->
    (count_starts (todo s) <= 1)%nat ->
    every (fun _ th => loc th = Unstarted) (threads (self s)) ->
    discipline s
| during_start : forall k,
    position s = InStart k -> started (self s) = false ->
    count_starts (todo s) = 0%nat ->
    every (fun j th => (j < k)%nat -> loc th <> Unstarted) (threads (self s)) ->
    every (fun j th => (k <= j)%nat -> loc th = Unstarted) (threads (self s)) ->
    discipline s
| after_start :
    started (self s) = true -> count_starts (todo s) = 0%nat ->
    (position s = Between \/ exists k, position s = InWait k) ->
    every (fun _ th => loc th <> Unstarted) (threads (self s)) ->
    discipline s.

(** What [start()] has done so far, whatever the calls. *)
Inductive start_marks (s : state) : Prop :=
| marks_idle :
    position s = Between -> started (self s) = false ->
    every (fun _ th => loc th = Unstarted) (threads (self s)) ->
    start_marks s
| marks_first_start : forall k,
    position s = InStart k -> started (self s) = false ->
    every (fun j th => (j < k)%nat -> loc th <> Unstarted) (threads (self s)) ->
    every (fun j th => (k <= j)%nat -> loc th = Unstarted) (threads (self s)) ->
    start_marks s
| marks_started :
    started (self s) = true ->
    every (fun _ th => loc th <> Unstarted) (threads (self s)) ->
    (forall e, position s = CallerDied e -> e = RuntimeError) ->
    start_marks s.

(** [start()] is called twice. *)
Definition start_twice : state :=
  run [Caller; Caller; Caller; Thread 0; Caller; Caller]
      (initial (Worker_init "qc" 1) [AddTask (peaceful_task 1); Start; Start; Wait]).

(** The calls in an unusual order, with one [start()]. *)
Definition any_order : list call :=
  [Wait; AddTask (failing_task 1); Start; AddTask (peaceful_task 2); Wait;
   AddTask (peaceful_task 3); Wait].

Definition any_order_run : state :=
  run (round_robin 20 [Caller; Thread 0; Thread 1])
      (initial (Worker_init "qc" 2) any_order).

(** How far a single worker thread has come with the tasks: either
    nothing was raised so far, or the last task invoked is the first that
    raised, and the thread is on its way out. *)
Inductive course (s : state) (th : thread) : Prop :=
| course_clean :
    errors (self s) = [] ->
    Forall peaceful (invoked (trace s)) ->
    match loc th with
    | AtExcept _ | Died _ => False
    | AtExit | Finished => items (queue (self s)) = []
    | _ => True
    end ->
    course s th
| course_tripped : forall ps t e,
    invoked (trace s) = ps ++ [t] -> Forall peaceful ps -> raises t = Some e ->
    match loc th with
    | AtExcept e' =>
        e' = e /\ isinstance_Exception e = true /\ errors (self s) = []
    | Died e' =>
        e' = e /\ isinstance_Exception e = false /\ errors (self s) = []
    | AtTaskDone | AtErrorsCheck | AtExit | Finished =>
        isinstance_Exception e = true /\ errors (self s) = [e]
    | _ => False
    end ->
    course s th.

(** What holds all along a run of a pool of one thread. *)
Definition in_order (s : state) : Prop :=
  exists th, threads (self s) = [th] /\
             dequeued (trace s) = invoked (trace s) ++ holding th /\
             course s th.

(** One thread, three tasks, the second of which raises. *)
Definition one_worker_run : state :=
  run (round_robin 24 [Caller; Thread 0])
      (initial (Worker_init "qc" 1)
               (enqueue_start_wait [peaceful_task 1; failing_task 2; peaceful_task 3])).

(** * Context managers: [in_dir] and [suppress_logged] *)

(** ** Generator functions with one [yield], and [contextlib.contextmanager] *)

(** Where a call of [next] or of [throw] leaves a generator: suspended at
    its [yield] with its local variables, returned, or ended by an
    exception. *)
Inductive suspension (W L : Type) :=
| Yielded (locals : L) (w : W)
| Stopped (w : W)
| Thrown (e : exception) (w : W).
Arguments Yielded {W L} locals w.
Arguments Stopped {W L} w.
Arguments Thrown {W L} e w.

(** A generator function whose body has one [yield]: the code up to the
    [yield], the code that follows it, and what an exception thrown in at
    the [yield] meets.  [W] is the state of the world, [L] the local
    variables that are live at the [yield]. *)
Record generator (W L : Type) := {
  gen_start : W -> suspension W L;
  gen_next : L -> W -> suspension W L;
  gen_throw : L -> exception -> W -> suspension W L
}.
Arguments gen_start {W L} g w.
Arguments gen_next {W L} g l w.
Arguments gen_throw {W L} g l e w.

(** [with cm: body], for [cm] made by [contextlib.contextmanager] from a
    generator function.  [__enter__] runs the generator to its [yield].
    [__exit__] after a body that returned resumes the generator, which has
    to stop; after a body that raised it throws the exception in at the
    [yield]: a generator that stops then has suppressed the exception, one
    that raises lets that exception out.  A generator that does not yield,
    or yields twice, is a [RuntimeError]. *)
Definition with_ {W L : Type} (cm : generator W L) (body : W -> outcome W) (w : W)
    : outcome W :=
  match gen_start cm w with
  | Thrown e w1 => Raise e w1
  | Stopped w1 => Raise RuntimeError w1
  | Yielded l w1 =>
      match body w1 with
      | Return w2 =>
          match gen_next cm l w2 with
          | Stopped w3 => Return w3
          | Thrown e w3 => Raise e w3
          | Yielded _ w3 => Raise RuntimeError w3
          end
      | Raise e w2 =>
          match gen_throw cm l e w2 with
          | Stopped w3 => Return w3
          | Thrown e' w3 => Raise e' w3
          | Yielded _ w3 => Raise RuntimeError w3
          end
      end
  end.

(** ** [in_dir] *)

(** What [in_dir] asks of the operating system: [pathlib.Path.cwd()] and
    [os.chdir], either of which may raise an [OSError] and then changes
    nothing.  The working directory that [cwd] returns is an absolute path
    without symbolic links: changing to it again leads to the same path. *)
Class OS (W : Type) := {
  getcwd : W -> errno + Path;
  chdir : Path -> W -> errno + W;
  chdir_back : forall w0 old w w',
    getcwd w0 = inr old -> chdir old w = inr w' -> getcwd w' = inr old
}.

Section in_dir.
Context {W : Type} `{OS W}.

(** [in_dir(path)]: there is no [try] around the [yield]. *)
Definition in_dir (path : Path) : generator W Path :=
  {| gen_start w :=
       match getcwd w with
       | inl e => Thrown (OSError e) w
       | inr old =>
           match chdir path w with
           | inl e => Thrown (OSError e) w
           | inr w' => Yielded old w'
           end
       end;
     gen_next old w :=
       match chdir old w with
       | inl e => Thrown (OSError e) w
       | inr w' => Stopped w'
       end;
     gen_throw old e w := Thrown e w |}.

(** [with in_dir(p1): with in_dir(p2): ... body]. *)
Fixpoint nested_in_dir (paths : list Path) (body : W -> outcome W) : W -> outcome W :=
  match paths with
  | [] => body
  | p :: rest => with_ (in_dir p) (nested_in_dir rest body)
  end.

(** Entering the directories one after the other: the world in which the
    body starts, or the error of the first directory that cannot be entered
    with the world at that time. *)
Fixpoint enter (paths : list Path) (w : W) : errno * W + W :=
  match paths with
  | [] => inr w
  | p :: rest =>
      match getcwd w with
      | inl e => inl (e, w)
      | inr _ =>
          match chdir p w with
          | inl e => inl (e, w)
          | inr w' => enter rest w'
          end
      end
  end.
End in_dir.

(** ** [suppress_logged] *)

(** The classes of the exceptions at hand. *)
Inductive exception_class :=
| BaseException_class
| Exception_class
| ValueError_class
| OSError_class
| RuntimeError_class
| TaskError_class
| SystemExit_class
| KeyboardInterrupt_class.

(** [isinstance(e, c)]: the class of [e] is [c] or derives from it. *)
Definition isinstance (e : exception) (c : exception_class) : bool :=
  match c with
  | BaseException_class => true
  | Exception_class => isinstance_Exception e
  | ValueError_class =>
      match e with ValueError | UnicodeEncodeError => true | _ => false end
  | OSError_class => match e with OSError _ => true | _ => false end
  | RuntimeError_class => match e with RuntimeError => true | _ => false end
  | TaskError_class => match e with TaskError _ => true | _ => false end
  | SystemExit_class => match e with SystemExit => true | _ => false end
  | KeyboardInterrupt_class => match e with KeyboardInterrupt => true | _ => false end
  end.

Section suppress_logged.
Context {W : Type}.

(** [suppress_logged(log, *ex)]; [log] is [log.exception], called with the
    message while the exception is being handled. *)
Definition suppress_logged (log : string -> exception -> W -> W)
    (ex : list exception_class) : generator W (list exception_class) :=
  {| gen_start w :=
       let ex := match ex with [] => [Exception_class] | _ => ex end in
       Yielded ex w;
     gen_next _ w := Stopped w;
     gen_throw ex e w :=
       if existsb (isinstance e) ex
       then Stopped (log "Suppressed exception" e w)
       else Thrown e w |}.
End suppress_logged.

(** ** A small world *)

(** A process and the directories that exist, as absolute paths. *)
Record small_world := {
  here : list string;
  dirs : list (list string);
  journal : list (string * exception)
}.

Fixpoint same_parts (a b : list string) : bool :=
  match a, b with
  | [], [] => true
  | x :: a', y :: b' => String.eqb x y && same_parts a' b'
  | _, _ => false
  end.

Definition small_getcwd (w : small_world) : errno + Path :=
  inr {| absolute := true; parts := here w |}.

Definition small_chdir (p : Path) (w : small_world) : errno + small_world :=
  let target := if absolute p then parts p else here w ++ parts p in
  if existsb (same_parts target) (dirs w)
  then inr {| here := target; dirs := dirs w; journal := journal w |}
  else inl ENOENT.

Definition small_log (m : string) (e : exception) (w : small_world) : small_world :=
  {| here := here w; dirs := dirs w; journal := journal w ++ [(m, e)] |}.

#[export] Program Instance small_OS : OS small_world := {
  getcwd := small_getcwd;
  chdir := small_chdir
}.
Next Obligation.
  intros w0 old w w' [= <-]. unfold small_chdir. cbn [absolute parts].
  destruct (existsb _ _); [|discriminate]. now intros [= <-].
Qed.

Definition build_tree : small_world :=
  {| here := ["src"]; dirs := [["src"]; ["src"; "qcsrc"]; ["build"]]; journal := [] |}.

(** A body that fails in the directory it runs in. *)
Definition failing_body (w : small_world) : outcome small_world := Raise (TaskError 1) w.

(** * [logged_subprocess] *)

Section logged_subprocess.
(** The characters of the text that comes from the pipe, with
    [str.isspace] for one character, and the newline to which universal
    newlines translate every end of line. *)
Context {char : Type}.
Variable isspace : char -> bool.
Variable is_newline : char -> bool.

(** [s.lstrip()], [s.rstrip()] and [s.strip()]. *)
Fixpoint lstrip (s : list char) : list char :=
  match s with
  | [] => []
  | c :: rest => if isspace c then lstrip rest else s
  end.

Definition rstrip (s : list char) : list char := rev (lstrip (rev s)).

Definition strip (s : list char) : list char := lstrip (rstrip s).

(** [stdout.readline()]: the text up to the next newline, that newline
    included, or what is left when there is none; [''] at the end of the
    stream.  The second component is what remains to be read. *)
Fixpoint readline (stream : list char) : list char * list char :=
  match stream with
  | [] => ([], [])
  | c :: rest =>
      if is_newline c then ([c], rest)
      else (c :: fst (readline rest), snd (readline rest))
  end.

(** [iter(child.stdout.readline, '')] *)
Equations? readlines (stream : list char) : list (list char)
  by wf (List.length stream) lt :=
  readlines stream with inspect (readline stream) := {
    | exist _ ([], _) _ => []
    | exist _ (c :: line, rest) _ => (c :: line) :: readlines rest
  }.
Proof.
  clear readlines.
  assert (Hlen : forall s, (List.length (fst (readline s)) + List.length (snd (readline s))
                            = List.length s)%nat).
  { induction s as [|x s IH]; [reflexivity|].
    cbn [readline]. destruct (is_newline x); cbn [fst snd List.length]; lia. }
  specialize (Hlen stream).
  match goal with H : readline _ = _ |- _ => rewrite H in Hlen end.
  cbn [fst snd List.length] in Hlen. lia.
Qed.

(** The child process: what it writes to its standard output and its
    standard error, which share the pipe, and its return code. *)
Record child_process := { stdout : list char; returncode : Z }.

(** The records that the logger receives: the level, and the message,
    which is the one that announces the subprocess or a line of its output
    after the name of the program in brackets. *)
Inductive subprocess_message :=
| Invoking (popenargs : list string)
| Output (program : string) (line : list char).

Definition logging_DEBUG : Z := 10.
Definition logging_INFO : Z := 20.

(** The exceptions of [logged_subprocess]: the [OSError] of
    [subprocess.Popen], and [subprocess.CalledProcessError]. *)
Inductive subprocess_error :=
| Popen_OSError (e : errno)
| CalledProcessError (code : Z) (cmd : string).

(** The loop over the lines. *)
Fixpoint log_lines (program : string) (log_level : Z) (lines : list (list char))
    : list (Z * subprocess_message) :=
  match lines with
  | [] => []
  | line :: rest =>
      let line := strip line in
      match line with
      | [] => log_lines program log_level rest
      | _ :: _ => (log_level, Output program line) :: log_lines program log_level rest
      end
  end.

(** [logged_subprocess(popenargs, logger, log_level)], where [popenargs] is
    the program followed by its arguments and [child] is what [Popen]
    gives, a child process or an [OSError]: the records that the logger
    has received, and the exception if one is raised. *)
Definition logged_subprocess (program : string) (arguments : list string)
    (log_level : Z) (child : errno + child_process)
    : list (Z * subprocess_message) * option subprocess_error :=
  let popenargs := program :: arguments in
  let records := [(logging_DEBUG, Invoking popenargs)] in
  match child with
  | inl e => (records, Some (Popen_OSError e))
  | inr child =>
      let records := records ++ log_lines program log_level (readlines (stdout child)) in
      let code := returncode child in
      if code =? 0 then (records, None)
      else (records, Some (CalledProcessError code program))
  end.

(** The characters that are not whitespace. *)
Definition ink (s : list char) : list char := List.filter (fun c => negb (isspace c)) s.

(** The lines of the output that have been logged. *)
Definition logged_lines (records : list (Z * subprocess_message)) : list (list char) :=
  flat_map (fun r => match snd r with Output _ line => [line] | Invoking _ => [] end)
           records.
End logged_subprocess.


(** [str.isspace] on the characters of ASCII. *)
Definition ascii_isspace (c : ascii) : bool :=
  let n := nat_of_ascii c in
  ((9 <=? n) && (n <=? 13) || (28 <=? n) && (n <=? 32))%nat.

Definition ascii_is_newline (c : ascii) : bool := Ascii.eqb c "010"%char.

(** A compiler that warns, then fails. *)
Definition failing_compiler : @child_process ascii :=
  {| stdout := list_ascii_of_string
                 (String "009" "warning: unused" ++ String "010" (String "010"
                    ("error: no such file  " ++ String "010" "")));
     returncode := 1 |}.

(** * [clear_directory] *)

(** What [clear_directory] sees of an entry of the directory, and what
    the operating system answers when the entry is removed.  Each of
    [is_file()], [is_symlink()] and [is_dir()] returns a boolean or raises
    the [OSError] of a [stat] that fails for another reason than a missing
    entry; [unlink] may raise an [OSError]; [shutil.rmtree], whose errors are
    ignored, removes the directory or leaves it. *)
Record entry := {
  entry_name : string;
  entry_is_file : errno + bool;
  entry_is_symlink : errno + bool;
  entry_is_dir : errno + bool;
  unlink_error : option errno;
  rmtree_removes : bool
}.














(** * Properties of the hashing walk *)

(** ** MD5 test vectors *)

Example md5_empty :
  MD5.hexdigest (MD5.md5 []) =
  [212; 29; 140; 217; 143; 0; 178; 4; 233; 128; 9; 152; 236; 248; 66; 126]%Z.
Proof. vm_compute. reflexivity. Qed.

Example md5_abc :
  MD5.hexdigest (MD5.md5 (bytes_of "abc")) =
  [144; 1; 80; 152; 60; 210; 79; 176; 214; 150; 63; 125; 40; 225; 127; 114]%Z.
Proof. vm_compute. reflexivity. Qed.

Example md5_of_a_stream :
  MD5.hexdigest (MD5.md5 (bytes_of "./a1b2")) =
  [137; 77; 37; 194; 223; 4; 19; 30; 248; 199; 167; 250; 174; 143; 209; 123]%Z.
Proof. vm_compute. reflexivity. Qed.

Example md5_two_blocks :
  MD5.hexdigest (MD5.md5 (List.repeat "a"%byte 64)) =
  [1; 72; 66; 212; 128; 181; 113; 73; 90; 74; 3; 99; 121; 63; 115; 103]%Z.
Proof. vm_compute. reflexivity. Qed.

Example hash_sample_tree :
  hash_path (abs_path ["src"; "qc"]) sample_tree None None None
  = Return {| MD5.fed := bytes_of "./a.qconesub/sub/b.logtwosub/c.qhthreed" |}.
Proof. vm_compute. reflexivity. Qed.


(** ** Examples *)

Example relative_to_child :
  option_map as_posix (relative_to (abs_path ["src"; "qc"; "sub"; "c.qh"])
                                   (abs_path ["src"; "qc"]))
  = Some "sub/c.qh".
Proof. reflexivity. Qed.

Example relative_to_elsewhere :
  relative_to (abs_path ["src"; "qc"]) (abs_path ["srv"]) = None.
Proof. reflexivity. Qed.

Example read_in_chunks_by_three :
  read_in_chunks {| pending := bytes_of "abcdefg"; fault := None |} 3
  = ([bytes_of "abc"; bytes_of "def"; bytes_of "g"], None).
Proof. reflexivity. Qed.

(** A chunk size of zero makes the first read return [b'']: nothing is
    yielded. *)
Example read_in_chunks_by_zero :
  read_in_chunks {| pending := bytes_of "abcdefg"; fault := None |} 0 = ([], None).
Proof. reflexivity. Qed.

(** The module's filter prunes the log, and a file that cannot be read to
    its end raises after its first chunks were fed. *)
Example hash_filtered_tree :
  hash_path (abs_path ["src"; "qc"]) sample_tree None None (Some namefilter_qcmodule)
  = Return {| MD5.fed := bytes_of "./a.qconesub/sub/c.qhthreed" |}.
Proof. vm_compute. reflexivity. Qed.

Example hash_unreadable_file :
  hash_path (abs_path ["f"])
    (RegularFile st0 (inr {| pending := bytes_of "abc"; fault := Some EIO |}))
    (Some {| MD5.fed := bytes_of "before:" |}) None None
  = Raise (OSError EIO) {| MD5.fed := bytes_of "before:." |}.
Proof. vm_compute. reflexivity. Qed.

(** ** Reading a file in chunks *)

Lemma read_in_chunks_eq (f : file_object) (n : Z) :
  read_in_chunks f n =
  match read f n with
  | (inl e, _) => ([], Some e)
  | (inr [], _) => ([], None)
  | (inr (b :: chunk), f') =>
      ((b :: chunk) :: fst (read_in_chunks f' n), snd (read_in_chunks f' n))
  end.
Proof.
  funelim (read_in_chunks f n);
    match goal with E : read _ _ = _ |- _ => rewrite E end; reflexivity.
Qed.

(** A read that returns bytes leaves fewer bytes to read. *)
Lemma read_shrinks (f f' : file_object) (n : Z) (b : byte) (chunk : list byte) :
  read f n = (inr (b :: chunk), f') ->
  (List.length (pending f') < List.length (pending f))%nat.
Proof.
  unfold read. intros Hr.
  destruct (fault f); [destruct (_ || _); [discriminate|] |];
    inversion Hr as [[Hc Hf]]; cbn [pending]; rewrite length_skipn;
    match type of Hc with firstn ?k ?l = _ =>
      destruct k; [discriminate|]; destruct l; [discriminate|]; simpl; lia
    end.
Qed.

(** Induction along the reads of a file. *)
Lemma reads_ind (n : Z) (P : file_object -> Prop) :
  (forall f,
      (forall b chunk f', read f n = (inr (b :: chunk), f') -> P f') -> P f) ->
  forall f, P f.
Proof.
  intros step f.
  remember (List.length (pending f)) as k eqn:Hk.
  revert f Hk. induction k as [k IH] using lt_wf_ind. intros f Hk.
  apply step. intros b chunk f' Hr.
  apply (IH (List.length (pending f'))); [|reflexivity].
  subst k. eapply read_shrinks; eassumption.
Qed.

Lemma read_no_fault (f : file_object) (n : Z) :
  fault f = None -> 0 < n ->
  read f n = (inr (firstn (Z.to_nat n) (pending f)),
              {| pending := skipn (Z.to_nat n) (pending f); fault := None |}).
Proof.
  intros Hf Hn. unfold read. rewrite Hf.
  destruct (n <? 0) eqn:E; [apply Z.ltb_lt in E; lia | reflexivity].
Qed.

(** Without a fault and with a positive chunk size, the chunks are the
    content cut every [chunksize] bytes: nothing lost, added or repeated. *)
Lemma read_in_chunks_concat (n : Z) (f : file_object) :
  0 < n -> fault f = None ->
  List.concat (fst (read_in_chunks f n)) = pending f /\
  snd (read_in_chunks f n) = None.
Proof.
  intros Hn. induction f as [f IH] using (reads_ind n). intros Hf.
  rewrite read_in_chunks_eq.
  pose proof (read_no_fault f n Hf Hn) as Hr. rewrite Hr in *.
  destruct (firstn (Z.to_nat n) (pending f)) as [|b chunk] eqn:Hc.
  - destruct (pending f); [auto|].
    destruct (Z.to_nat n) eqn:K; [lia | discriminate].
  - destruct (IH b chunk _ eq_refl eq_refl) as [IH1 IH2].
    cbn [fst snd List.concat]. rewrite IH1. cbn [pending].
    rewrite <- Hc. split; [apply firstn_skipn | assumption].
Qed.


(** Every chunk holds at least one byte and at most [chunksize]. *)
Lemma read_in_chunks_sizes (n : Z) (f : file_object) :
  0 < n ->
  Forall (fun c => (0 < List.length c <= Z.to_nat n)%nat) (fst (read_in_chunks f n)).
Proof.
  intros Hn. induction f as [f IH] using (reads_ind n).
  rewrite read_in_chunks_eq.
  destruct (read f n) as [[e|[|b chunk]] f'] eqn:Hr; cbn [fst]; try constructor.
  - unfold read in Hr.
    assert (Hlt : (n <? 0) = false) by (apply Z.ltb_ge; lia).
    rewrite Hlt in Hr.
    destruct (fault f); [destruct (_ || _); [discriminate|] |];
      injection Hr as Hc Hf';
      (split; [simpl; lia | rewrite <- Hc, length_firstn; lia]).
  - eapply IH; reflexivity.
Qed.

(** ** Relative paths *)

Lemma strip_prefix_refl (l : list string) : strip_prefix l l = Some [].
Proof.
  induction l as [|a l IH]; simpl; [reflexivity|].
  now rewrite String.eqb_refl.
Qed.

Lemma strip_prefix_app (pre l rest more : list string) :
  strip_prefix pre l = Some rest -> strip_prefix pre (l ++ more) = Some (rest ++ more).
Proof.
  revert l. induction pre as [|a pre IH]; intros l; simpl.
  - intros [= ->]. reflexivity.
  - destruct l as [|b l]; [discriminate|]. simpl.
    destruct (String.eqb a b); [apply IH | discriminate].
Qed.

(** With the root left to its default, the entry itself is [.]. *)
Lemma relative_to_self (p : Path) :
  relative_to p p = Some {| absolute := false; parts := [] |}.
Proof.
  unfold relative_to. rewrite Bool.eqb_reflx, strip_prefix_refl. reflexivity.
Qed.

Lemma relative_to_relative (p root rel : Path) :
  relative_to p root = Some rel -> absolute rel = false.
Proof.
  unfold relative_to. destruct (Bool.eqb _ _); [|discriminate].
  destruct (strip_prefix _ _); [|discriminate]. intros [= <-]. reflexivity.
Qed.

(** The child of an entry lies one component deeper under the same root. *)
Lemma relative_to_joinpath (p root rel : Path) (c : string) :
  relative_to p root = Some rel ->
  relative_to (joinpath p c) root =
  Some {| absolute := false; parts := parts rel ++ [c] |}.
Proof.
  unfold relative_to, joinpath. cbn [absolute parts].
  destruct (Bool.eqb _ _); [|discriminate].
  destruct (strip_prefix _ _) as [rest|] eqn:E; [|discriminate].
  intros [= <-]. now rewrite (strip_prefix_app _ _ _ _ E).
Qed.

(** ** [hash_path] and the entries of the walk *)

Lemma for_each_app {H A : Type} (body : A -> H -> outcome H) (l1 l2 : list A) (h : H) :
  for_each body (l1 ++ l2) h =
  match for_each body l1 h with
  | Return h' => for_each body l2 h'
  | Raise e h' => Raise e h'
  end.
Proof.
  revert h. induction l1 as [|x l1 IH]; intros h; simpl; [reflexivity|].
  destruct (body x h); [apply IH | reflexivity].
Qed.

Section adequacy.
Context {H : Type} `{HashObject H}.

(** Feeding the chunks one by one is feeding their concatenation. *)
Lemma fold_left_update (chunks : list (list byte)) (h : H) :
  fold_left update chunks h = update h (List.concat chunks).
Proof.
  revert h. induction chunks as [|c chunks IH]; intros h; simpl.
  - now rewrite update_nil.
  - now rewrite IH, update_app.
Qed.

(** One unfolding of [hash_path], the optional arguments given. *)
Lemma hash_path_unfold (path : Path) (node : fsnode) (h : H) (root : Path)
    (namefilter : option (string -> bool)) :
  hash_path path node (Some h) (Some root) namefilter =
  match relative_to path root with
  | None => Raise ValueError h
  | Some rel =>
      let name := as_posix rel in
      let name := if is_dir node then (name ++ "/")%string else name in
      if negb (accepts namefilter name) then Return h
      else
        match encode_utf8 name with
        | None => Raise UnicodeEncodeError h
        | Some encoded =>
            let h := update h encoded in
            match node with
            | Directory _ children =>
                for_each
                  (fun (entry : string * fsnode) h =>
                     hash_path (joinpath path (fst entry)) (snd entry)
                       (Some h) (Some root) namefilter)
                  children h
            | Unlistable _ e => Raise (OSError e) h
            | _ =>
                match open_rb node with
                | inl e => Raise (OSError e) h
                | inr f => update_chunks f h
                end
            end
        end
  end.
Proof.
  destruct node; cbn [hash_path];
    destruct (relative_to path root); try reflexivity;
    destruct namefilter; reflexivity.
Qed.

(** The omitted arguments are filled in with their defaults. *)
Lemma hash_path_defaults (path : Path) (node : fsnode) (hashobject : option H)
    (root : option Path) (namefilter : option (string -> bool)) :
  hash_path path node hashobject root namefilter =
  hash_path path node
    (Some (match hashobject with None => hash_constructor | Some h => h end))
    (Some (match root with None => path | Some r => r end))
    namefilter.
Proof. destruct node, hashobject, root; reflexivity. Qed.

Lemma token_as_posix (rel : Path) (node : fsnode) :
  absolute rel = false ->
  (if is_dir node then (as_posix rel ++ "/")%string else as_posix rel)
  = token (parts rel) node.
Proof. destruct rel as [a ps]. simpl. intros ->. reflexivity. Qed.

(** [hash_path] feeds, in order, the entries that are not pruned, and
    stops at the first one that raises. *)
Lemma hash_path_entries (node : fsnode) :
  forall (path root rel : Path) (h : H) (namefilter : option (string -> bool)),
    relative_to path root = Some rel ->
    hash_path path node (Some h) (Some root) namefilter =
    for_each feed (entries (parts rel) node namefilter) h.
Proof.
  induction node as [st children IH|st e|st o|st o|] using fsnode_ind;
    intros path root rel h namefilter Hrel;
    rewrite hash_path_unfold, Hrel; cbn zeta;
    rewrite (token_as_posix rel _ (relative_to_relative _ _ _ Hrel));
    unfold entries; cbn [visited];
    destruct (accepts namefilter (token (parts rel) _)) eqn:Hacc;
    cbn [negb List.map for_each]; try reflexivity.
  all: unfold feed at 1; cbn [fst snd content_of];
    destruct (encode_utf8 (token (parts rel) _)) as [encoded|]; [|reflexivity].
  1: { (* a directory: the loop over its children *)
    generalize (update h encoded).
    clear h. induction children as [|[c n] children IHc]; intros h.
    + reflexivity.
    + cbn [for_each flat_map fst snd].
      rewrite List.map_app, for_each_app.
      inversion IH as [|? ? Hn Hrest]; subst.
      cbn [snd] in Hn.
      rewrite (Hn _ _ _ h namefilter (relative_to_joinpath _ _ _ c Hrel)).
      cbn [parts]. unfold entries.
      destruct (for_each feed _ h); [apply IHc; assumption | reflexivity]. }
  all: cbn [open_rb];
    try (destruct o; [reflexivity | destruct (update_chunks _ _); reflexivity]);
    reflexivity.
Qed.

End adequacy.

(** ** Pruning by the name filter *)

Lemma visited_pruned (rel : list string) (node : fsnode) (f : string -> bool) :
  f (token rel node) = false -> visited rel node (Some f) = [].
Proof. intros Hf. destruct node; cbn [visited accepts]; now rewrite Hf. Qed.

(** C4. Name-filter pruning.  When the name filter rejects the name computed
    for an entry, [hash_path] returns the hash object as it received it and
    the walk visits neither the entry nor anything below it, whatever the
    entry holds; and a directory hashes the same with and without a child
    that the filter rejects, whatever lies below that child. *)
Theorem name_filter_pruning {H : Type} `{HashObject H}
    (path root rel : Path) (node : fsnode) (h : H) (namefilter : string -> bool) :
  relative_to path root = Some rel ->
  namefilter (token (parts rel) node) = false ->
  hash_path path node (Some h) (Some root) (Some namefilter) = Return h /\
  visited (parts rel) node (Some namefilter) = [] /\
  forall (parent : Path) (st : stat) (before after : list (string * fsnode)) (c : string),
    joinpath parent c = path ->
    hash_path parent (Directory st (before ++ (c, node) :: after))
      (Some h) (Some root) (Some namefilter) =
    hash_path parent (Directory st (before ++ after))
      (Some h) (Some root) (Some namefilter).
Proof.
  intros Hrel Hreject. split; [|split].
  - rewrite (hash_path_entries _ _ _ _ _ _ Hrel). unfold entries.
    now rewrite visited_pruned.
  - now apply visited_pruned.
  - intros parent st before after c <-.
    rewrite !hash_path_unfold.
    destruct (relative_to parent root) as [prel|] eqn:Hp; [|reflexivity].
    cbn zeta. cbn [is_dir].
    destruct (negb _); [reflexivity|].
    destruct (encode_utf8 _); [|reflexivity].
    rewrite !for_each_app. cbn [for_each fst snd].
    destruct (for_each _ before _) as [h1|]; [|reflexivity].
    rewrite (hash_path_entries _ _ _ _ _ _ Hrel). unfold entries.
    now rewrite visited_pruned.
Qed.

Lemma name_filter_pruning_witness :
  (relative_to (abs_path ["repo"; "build"]) (abs_path ["repo"])
   = Some {| absolute := false; parts := ["build"] |} /\
   reject_build (token ["build"] build_dir) = false) /\
  reject_build "build/main.c" = true /\
  hash_path (abs_path ["repo"; "build"]) build_dir
    (Some (hash_constructor (H := MD5.md5_object)))
    (Some (abs_path ["repo"])) (Some reject_build)
  = Return hash_constructor.
Proof.
  split; [split; reflexivity|].
  split; [reflexivity|].
  apply (name_filter_pruning (abs_path ["repo"; "build"]) (abs_path ["repo"])
           {| absolute := false; parts := ["build"] |} build_dir
           hash_constructor reject_build);
    reflexivity.
Defined.

(** ** Chunked reads *)

(** C5. Chunked-read equivalence.  Hashing a readable regular file of any
    length feeds the name and then the chunks of the file, which leaves the
    hash object where one update with the whole content leaves it; for the
    default chunk size and for any other positive one the chunks
    concatenate to exactly the content, each is non-empty and none is
    longer than the chunk size.  (A name that has no encoding raises before
    anything is fed, whatever the file holds.) *)
Theorem chunked_read_equivalence {H : Type} `{HashObject H}
    (path root rel : Path) (st : stat) (data : list byte) (h : H)
    (namefilter : option (string -> bool)) :
  let f := {| pending := data; fault := None |} in
  let node := RegularFile st (inr f) in
  relative_to path root = Some rel ->
  accepts namefilter (token (parts rel) node) = true ->
  hash_path path node (Some h) (Some root) namefilter =
    match encode_utf8 (token (parts rel) node) with
    | Some name => Return (update (update h name) data)
    | None => Raise UnicodeEncodeError h
    end /\
  digest (final_state (hash_path path node (Some h) (Some root) namefilter)) =
    digest match encode_utf8 (token (parts rel) node) with
           | Some name => update (update h name) data
           | None => h
           end /\
  forall chunksize : Z,
    0 < chunksize ->
    List.concat (fst (read_in_chunks f chunksize)) = data /\
    snd (read_in_chunks f chunksize) = None /\
    Forall (fun c => (0 < List.length c <= Z.to_nat chunksize)%nat)
           (fst (read_in_chunks f chunksize)).
Proof.
  intros f node Hrel Hacc.
  assert (Hhash : hash_path path node (Some h) (Some root) namefilter =
                  match encode_utf8 (token (parts rel) node) with
                  | Some name => Return (update (update h name) data)
                  | None => Raise UnicodeEncodeError h
                  end).
  { rewrite (hash_path_entries _ _ _ _ _ _ Hrel). unfold entries, node.
    cbn [visited]. fold node. rewrite Hacc.
    cbn [List.map for_each fst snd content_of open_rb]. unfold feed.
    cbn [fst snd].
    destruct (encode_utf8 (token (parts rel) node)) as [name|]; [|reflexivity].
    unfold update_chunks. cbv zeta.
    change (content_of node) with (Opened f). cbv iota beta.
    destruct (read_in_chunks_concat chunksize_default f) as [Hc Hn];
      [reflexivity | reflexivity |].
    rewrite Hn, fold_left_update, Hc. reflexivity. }
  split; [exact Hhash | split].
  { rewrite Hhash. now destruct (encode_utf8 (token (parts rel) node)). }
  intros chunksize Hpos.
  destruct (read_in_chunks_concat chunksize f Hpos eq_refl) as [Hc Hn].
  split; [exact Hc | split; [exact Hn | now apply read_in_chunks_sizes]].
Qed.

Lemma chunked_read_equivalence_witness :
  (relative_to (abs_path ["repo"; "big.bin"]) (abs_path ["repo"])
   = Some {| absolute := false; parts := ["big.bin"] |} /\
   accepts None "big.bin" = true) /\
  (List.length five_thousand_bytes mod 4096 <> 0)%nat /\
  digest (final_state
            (hash_path (abs_path ["repo"; "big.bin"])
               (RegularFile st0 (inr {| pending := five_thousand_bytes; fault := None |}))
               (Some (hash_constructor (H := MD5.md5_object)))
               (Some (abs_path ["repo"])) None)) =
  digest (update (update (hash_constructor (H := MD5.md5_object))
                    (bytes_of "big.bin")) five_thousand_bytes).
Proof.
  split; [split; reflexivity|].
  split; [vm_compute; discriminate|].
  exact (proj1 (proj2
    (chunked_read_equivalence (abs_path ["repo"; "big.bin"]) (abs_path ["repo"])
       {| absolute := false; parts := ["big.bin"] |} st0 five_thousand_bytes
       hash_constructor None eq_refl eq_refl))).
Defined.

(** ** The bytes of a walk *)

Section walk.
Context {H : Type} `{HashObject H}.

Lemma feed_feed_bytes (entry : string * content) (h : H) :
  feed entry h =
  match snd (feed_bytes entry) with
  | None => Return (update h (fst (feed_bytes entry)))
  | Some e => Raise e (update h (fst (feed_bytes entry)))
  end.
Proof.
  destruct entry as [name c]; unfold feed, feed_bytes; cbn [fst snd].
  destruct (encode_utf8 name) as [encoded|]; [|cbn; now rewrite update_nil].
  destruct c as [|e|f|e]; cbn [fst snd]; try reflexivity.
  unfold update_chunks. cbv zeta. rewrite fold_left_update, update_app.
  now destruct (snd (read_in_chunks f chunksize_default)).
Qed.

(** A walk is one update of the hash object, with the bytes of the
    entries up to the first one that raises. *)
Lemma for_each_walk_bytes (l : list (string * content)) (h : H) :
  for_each feed l h =
  match snd (walk_bytes l) with
  | None => Return (update h (fst (walk_bytes l)))
  | Some e => Raise e (update h (fst (walk_bytes l)))
  end.
Proof.
  revert h. induction l as [|entry l IH]; intros h; cbn [for_each walk_bytes].
  - cbn. now rewrite update_nil.
  - rewrite feed_feed_bytes. destruct (feed_bytes entry) as [b [e|]]; cbn [fst snd].
    + reflexivity.
    + rewrite IH, update_app. reflexivity.
Qed.

Lemma for_each_final_state (l : list (string * content)) (h : H) :
  final_state (for_each feed l h) = update h (fst (walk_bytes l)).
Proof. rewrite for_each_walk_bytes. now destruct (snd (walk_bytes l)). Qed.

End walk.

(** The bytes of a walk start with the name of its first entry. *)
Lemma walk_bytes_head (entry : string * content) (rest : list (string * content))
    (encoded : list byte) :
  encode_utf8 (fst entry) = Some encoded ->
  exists below, fst (walk_bytes (entry :: rest)) = encoded ++ below.
Proof.
  intros Henc. cbn [walk_bytes]. unfold feed_bytes. rewrite Henc.
  destruct (snd entry) as [|e|f|e]; cbn [fst snd].
  - now exists (fst (walk_bytes rest)).
  - exists []. now rewrite app_nil_r.
  - destruct (snd (read_in_chunks f chunksize_default)) as [e|]; cbn [option_map fst].
    + now exists (List.concat (fst (read_in_chunks f chunksize_default))).
    + exists (List.concat (fst (read_in_chunks f chunksize_default))
                ++ fst (walk_bytes rest)).
      now rewrite <- app_assoc.
  - exists []. now rewrite app_nil_r.
Qed.

(** ** Names of files and names of directories *)

Lemma ends_with_slash_app (s t : string) :
  t <> "" -> ends_with_slash (s ++ t) = ends_with_slash t.
Proof.
  intros Ht. induction s as [|c s IH]; [reflexivity|].
  cbn [String.append]. cbn [ends_with_slash].
  destruct (s ++ t)%string eqn:E; [|exact IH].
  destruct s; [simpl in E; congruence | discriminate].
Qed.

Lemma no_slash_no_trailing_slash (s : string) :
  has_slash s = false -> ends_with_slash s = false.
Proof.
  induction s as [|c s IH]; [reflexivity|].
  cbn [has_slash]. intros Hs. apply orb_false_iff in Hs as [Hc Hs].
  cbn [ends_with_slash]. destruct s; [exact Hc | now apply IH].
Qed.

Lemma valid_name_inv (s : string) :
  valid_name s = true -> s <> "" /\ has_slash s = false.
Proof.
  unfold valid_name. intros Hv. apply andb_true_iff in Hv as [Hne Hns].
  apply negb_true_iff in Hne, Hns. split; [|exact Hns].
  intros ->. discriminate.
Qed.

Lemma concat_valid (ps : list string) :
  ps <> [] -> forallb valid_name ps = true ->
  String.concat "/" ps <> "" /\ ends_with_slash (String.concat "/" ps) = false.
Proof.
  induction ps as [|p ps IH]; [congruence|]. intros _ Hv.
  cbn [forallb] in Hv. apply andb_true_iff in Hv as [Hp Hps].
  apply valid_name_inv in Hp as [Hne Hns].
  destruct ps as [|q ps].
  - cbn [String.concat]. split; [exact Hne | now apply no_slash_no_trailing_slash].
  - cbn [String.concat]. destruct IH as [IH1 IH2]; [congruence | exact Hps |].
    split.
    + destruct p; [congruence | discriminate].
    + rewrite ends_with_slash_app.
      * rewrite ends_with_slash_app; [exact IH2 | exact IH1].
      * discriminate.
Qed.

(** The name of an entry ends with the separator exactly when the entry is
    a directory. *)
Lemma token_trailing_slash (rel : list string) (node : fsnode) :
  forallb valid_name rel = true ->
  ends_with_slash (token rel node) = is_dir node.
Proof.
  intros Hv. unfold token, as_posix. cbn [absolute parts].
  destruct (is_dir node).
  - apply ends_with_slash_app. discriminate.
  - destruct rel as [|p ps]; [reflexivity|].
    apply concat_valid; [discriminate | exact Hv].
Qed.

Lemma strip_prefix_suffix (pre l rest : list string) :
  strip_prefix pre l = Some rest -> l = pre ++ rest.
Proof.
  revert l. induction pre as [|a pre IH]; intros l; simpl.
  - now intros [= ->].
  - destruct l as [|b l]; [discriminate|].
    destruct (String.eqb a b) eqn:E; [|discriminate].
    apply String.eqb_eq in E as ->. intros Hs. f_equal. now apply IH.
Qed.

Lemma relative_to_valid (p root rel : Path) :
  relative_to p root = Some rel ->
  forallb valid_name (parts p) = true -> forallb valid_name (parts rel) = true.
Proof.
  unfold relative_to. destruct (Bool.eqb _ _); [|discriminate].
  destruct (strip_prefix _ _) as [rest|] eqn:E; [|discriminate].
  intros [= <-]. cbn [parts]. apply strip_prefix_suffix in E. rewrite E.
  rewrite forallb_app. intros Hv. now apply andb_true_iff in Hv as [_ Hv].
Qed.

(** In a tree of valid names, every visited entry has valid components. *)
Lemma visited_valid (node : fsnode) :
  forall (rel : list string) (namefilter : option (string -> bool)),
    forallb valid_name rel = true -> valid_tree node = true ->
    Forall (fun v => forallb valid_name (fst v) = true) (visited rel node namefilter).
Proof.
  induction node as [st children IH|st e|st o|st o|] using fsnode_ind;
    intros rel namefilter Hrel Htree; cbn [visited];
    destruct (accepts namefilter _); try constructor; try exact Hrel;
    try constructor.
  cbn [valid_tree] in Htree.
  induction children as [|[c n] children IHc]; cbn [flat_map]; [constructor|].
  cbn [forallb fst snd] in Htree.
  apply andb_true_iff in Htree as [Hcn Hrest].
  apply andb_true_iff in Hcn as [Hc Hn].
  inversion IH as [|? ? Hhead Htail]; subst.
  apply Forall_app. split.
  - apply Hhead; [|exact Hn].
    rewrite forallb_app. cbn [forallb fst]. now rewrite Hrel, Hc.
  - now apply IHc.
Qed.

(** C7, counterexample.  The names are fed with no separator after them:
    a directory [a] that holds an empty file [b] and a file [a] that holds
    the bytes [/a/b] have different names, [a/] and [a], and yet feed the
    same bytes, so that the two trees have the same digest. *)
Lemma trailing_separator_counterexample :
  token ["a"] (Directory st0 [("b", plain_file "")]) = "a/" /\
  token ["a"] (plain_file "/a/b") = "a" /\
  hash_path (abs_path ["repo"]) tree_a_directory
    (None : option MD5.md5_object) None None
  = Return {| MD5.fed := bytes_of "./a/a/b" |} /\
  hash_path (abs_path ["repo"]) tree_a_file
    (None : option MD5.md5_object) None None
  = Return {| MD5.fed := bytes_of "./a/a/b" |} /\
  digest (final_state (hash_path (abs_path ["repo"]) tree_a_directory
                         (None : option MD5.md5_object) None None)) =
  digest (final_state (hash_path (abs_path ["repo"]) tree_a_file
                         (None : option MD5.md5_object) None None)).
Proof. repeat split. Qed.

(** C7 (amended). Trailing-separator disambiguation.  [hash_path] feeds the
    entries of the walk in order, each under its name, and in a tree whose
    names are valid path components the name of every entry ends with [/]
    if and only if the entry is a directory; hence the name of a directory
    and the name of an entry that is not a directory are never equal,
    wherever the two lie.  The name of an entry that is not pruned is the
    first thing fed for it: the hash object is left with the encoded name
    and then what the walk feeds below it. *)
Theorem trailing_separator_disambiguation {H : Type} `{HashObject H}
    (path root rel : Path) (node : fsnode) (h : H)
    (namefilter : option (string -> bool)) :
  relative_to path root = Some rel ->
  forallb valid_name (parts path) = true ->
  valid_tree node = true ->
  hash_path path node (Some h) (Some root) namefilter
  = for_each feed
      (List.map (fun v => (token (fst v) (snd v), content_of (snd v)))
                (visited (parts rel) node namefilter)) h /\
  Forall (fun v => ends_with_slash (token (fst v) (snd v)) = is_dir (snd v))
         (visited (parts rel) node namefilter) /\
  (forall encoded,
      accepts namefilter (token (parts rel) node) = true ->
      encode_utf8 (token (parts rel) node) = Some encoded ->
      ends_with_slash (token (parts rel) node) = is_dir node /\
      exists below,
        final_state (hash_path path node (Some h) (Some root) namefilter)
        = update h (encoded ++ below)) /\
  forall (rel1 rel2 : list string) (n1 n2 : fsnode),
    forallb valid_name rel1 = true -> forallb valid_name rel2 = true ->
    is_dir n1 = true -> is_dir n2 = false ->
    token rel1 n1 <> token rel2 n2.
Proof.
  intros Hrel Hpath Htree.
  assert (Hall : Forall (fun v => ends_with_slash (token (fst v) (snd v)) = is_dir (snd v))
                        (visited (parts rel) node namefilter)).
  { eapply List.Forall_impl;
      [|exact (visited_valid node (parts rel) namefilter
                 (relative_to_valid _ _ _ Hrel Hpath) Htree)].
    intros [r m] Hr. now apply token_trailing_slash. }
  split; [exact (hash_path_entries _ _ _ _ _ _ Hrel)|].
  split; [exact Hall|]. split.
  - intros encoded Hacc Henc. split.
    + apply token_trailing_slash. exact (relative_to_valid _ _ _ Hrel Hpath).
    + rewrite (hash_path_entries _ _ _ _ _ _ Hrel), for_each_final_state.
      assert (Hentries : exists rest,
                 entries (parts rel) node namefilter
                 = (token (parts rel) node, content_of node) :: rest).
      { unfold entries. destruct node; cbn [visited]; rewrite Hacc;
          cbn [List.map fst snd]; eauto. }
      destruct Hentries as [rest ->].
      destruct (walk_bytes_head (token (parts rel) node, content_of node) rest
                  encoded Henc) as [below ->].
      now exists below.
  - intros rel1 rel2 n1 n2 Hv1 Hv2 Hd1 Hd2 Heq.
    pose proof (token_trailing_slash rel1 n1 Hv1) as E1.
    pose proof (token_trailing_slash rel2 n2 Hv2) as E2.
    rewrite Heq in E1. congruence.
Qed.

Lemma trailing_separator_disambiguation_witness :
  (relative_to (abs_path ["src"; "qc"]) (abs_path ["src"; "qc"])
   = Some {| absolute := false; parts := [] |} /\
   forallb valid_name ["src"; "qc"] = true /\
   valid_tree sample_tree = true) /\
  Forall (fun v => ends_with_slash (token (fst v) (snd v)) = is_dir (snd v))
         (visited [] sample_tree None) /\
  (exists below,
      final_state (hash_path (abs_path ["src"; "qc"]) sample_tree
                     (Some (hash_constructor (H := MD5.md5_object)))
                     (Some (abs_path ["src"; "qc"])) None)
      = update hash_constructor (bytes_of "./" ++ below)) /\
  token ["a"] (Directory st0 []) <> token ["a"] (plain_file "").
Proof.
  split; [repeat split|].
  pose proof (trailing_separator_disambiguation
                (abs_path ["src"; "qc"]) (abs_path ["src"; "qc"])
                {| absolute := false; parts := [] |} sample_tree
                (hash_constructor (H := MD5.md5_object)) None
                eq_refl eq_refl eq_refl) as (_ & Hall & Hfed & Hne).
  split; [exact Hall|]. split.
  - exact (proj2 (Hfed (bytes_of "./") eq_refl eq_refl)).
  - apply Hne; reflexivity.
Defined.

(** ** The default root *)

(** C9. Default root.  With the root omitted, [hash_path] takes the path
    itself as the root: the walk is the one of the entries relative to the
    path, so the outcome is the same wherever the entry lies and whatever it
    is called; the name of the entry itself is [.], or [./] for a
    directory; and a name filter that rejects that name leaves a fresh hash
    object with nothing fed. *)
Theorem default_root_name {H : Type} `{HashObject H}
    (path : Path) (node : fsnode) (namefilter : option (string -> bool)) :
  hash_path path node None None namefilter =
    for_each feed (entries [] node namefilter) hash_constructor /\
  (forall elsewhere : Path,
      hash_path elsewhere node None None namefilter =
      hash_path path node None None namefilter) /\
  token [] node = (if is_dir node then "./" else ".") /\
  (accepts namefilter (token [] node) = true ->
   exists rest, entries [] node namefilter =
                (token [] node, content_of node) :: rest) /\
  (accepts namefilter (token [] node) = false ->
   hash_path path node None None namefilter = Return hash_constructor).
Proof.
  assert (Hwalk : forall p, hash_path p node None None namefilter =
                            for_each feed (entries [] node namefilter) hash_constructor).
  { intros p. rewrite hash_path_defaults.
    now rewrite (hash_path_entries node p p _ _ namefilter (relative_to_self p)). }
  split; [apply Hwalk | split; [|split; [|split]]].
  - intros elsewhere. now rewrite !Hwalk.
  - unfold token. cbn. destruct (is_dir node); reflexivity.
  - intros Hacc. unfold entries.
    destruct node; cbn [visited]; rewrite Hacc; cbn [List.map fst snd]; eauto.
  - intros Hrej. rewrite Hwalk. unfold entries.
    destruct node; cbn [visited]; rewrite Hrej; reflexivity.
Qed.

Lemma default_root_name_witness :
  accepts (Some reject_dot) (token [] sample_tree) = false /\
  hash_path (abs_path ["home"; "user"; "proj"]) sample_tree None None (Some reject_dot)
  = Return (hash_constructor (H := MD5.md5_object)).
Proof.
  split; [reflexivity|].
  exact (proj2 (proj2 (proj2 (proj2
    (default_root_name (abs_path ["home"; "user"; "proj"]) sample_tree
       (Some reject_dot))))) eq_refl).
Defined.

(** ** What the digest depends on *)

(** C3, counterexample.  The digest is not a function of the set of
    entries: two directories that hold the same two files, which [iterdir]
    yields in a different order, have different MD5 digests. *)
Lemma hash_determinism_counterexample :
  Permutation (entries [] tree_ab None) (entries [] tree_ba None) /\
  digest (final_state (hash_path (abs_path ["repo"]) tree_ab
                         (None : option MD5.md5_object) None None)) <>
  digest (final_state (hash_path (abs_path ["repo"]) tree_ba
                         (None : option MD5.md5_object) None None)).
Proof.
  split.
  - vm_compute. apply perm_skip. apply perm_swap.
  - vm_compute. discriminate.
Qed.

(** C3 (amended). Hash determinism.  The outcome of [hash_path], and with it
    the digest, is a function of the sequence of the entries that are not
    pruned, in the order of the walk, each with its name relative to the
    root and what is read of it: two walks with the same such sequence end
    with equal hash objects and equal digests, whatever the location of the
    root, the metadata of the entries and the content of what is pruned.
    In particular two walks of the same snapshot give the same digest. *)
Theorem hash_determinism {H : Type} `{HashObject H}
    (path1 root1 rel1 path2 root2 rel2 : Path) (node1 node2 : fsnode)
    (filter1 filter2 : option (string -> bool)) :
  relative_to path1 root1 = Some rel1 ->
  relative_to path2 root2 = Some rel2 ->
  entries (parts rel1) node1 filter1 = entries (parts rel2) node2 filter2 ->
  hash_path path1 node1 None (Some root1) filter1 =
  hash_path path2 node2 None (Some root2) filter2 /\
  digest (final_state (hash_path path1 node1 None (Some root1) filter1)) =
  digest (final_state (hash_path path2 node2 None (Some root2) filter2)).
Proof.
  intros Hrel1 Hrel2 Hentries.
  assert (Heq : hash_path path1 node1 None (Some root1) filter1 =
                hash_path path2 node2 None (Some root2) filter2).
  { rewrite (hash_path_defaults path1), (hash_path_defaults path2).
    rewrite (hash_path_entries _ _ _ _ _ _ Hrel1).
    rewrite (hash_path_entries _ _ _ _ _ _ Hrel2).
    now rewrite Hentries. }
  split; [exact Heq | now rewrite Heq].
Qed.

Lemma hash_determinism_witness :
  (relative_to (abs_path ["home"; "a"; "qc"]) (abs_path ["home"; "a"; "qc"])
   = Some {| absolute := false; parts := [] |} /\
   relative_to (abs_path ["srv"; "build"]) (abs_path ["srv"; "build"])
   = Some {| absolute := false; parts := [] |} /\
   entries [] checkout_here (Some namefilter_qcmodule) =
   entries [] checkout_there (Some namefilter_qcmodule)) /\
  digest (final_state
            (hash_path (abs_path ["home"; "a"; "qc"]) checkout_here
               (None : option MD5.md5_object)
               (Some (abs_path ["home"; "a"; "qc"])) (Some namefilter_qcmodule))) =
  digest (final_state
            (hash_path (abs_path ["srv"; "build"]) checkout_there
               (None : option MD5.md5_object)
               (Some (abs_path ["srv"; "build"])) (Some namefilter_qcmodule))).
Proof.
  split; [repeat split|].
  exact (proj2 (hash_determinism
                  (abs_path ["home"; "a"; "qc"]) (abs_path ["home"; "a"; "qc"])
                  {| absolute := false; parts := [] |}
                  (abs_path ["srv"; "build"]) (abs_path ["srv"; "build"])
                  {| absolute := false; parts := [] |}
                  checkout_here checkout_there
                  (Some namefilter_qcmodule) (Some namefilter_qcmodule)
                  eq_refl eq_refl eq_refl)).
Defined.

(** ** Entries that cannot be read *)

Section failures.
Context {H : Type} `{HashObject H}.




End failures.





(** * Properties of the worker pool *)

(** ** Examples *)

Example worker_thread_names :
  List.map thread_name (threads (Worker_init "qc" 3)) = ["qc:0"; "qc:1"; "qc:2"].
Proof. reflexivity. Qed.

Example three_tasks_trace :
  List.map task_id (invoked (trace three_tasks_run)) = [1; 2; 3]%nat /\
  returned three_tasks_run = true.
Proof. vm_compute. auto. Qed.

Example race_trace :
  trace race_run =
  [Dequeued 0 (failing_task 1); Invoked 0 (failing_task 1);
   Recorded 0 (TaskError 1);
   Dequeued 1 (peaceful_task 2); Invoked 1 (peaceful_task 2)].
Proof. vm_compute. reflexivity. Qed.

(** ** Threads in a list *)

(** Moving one thread leaves the others where they are. *)
Lemma alter_split (f : thread -> thread) (ths : list thread) (i : nat) (th : thread) :
  ths !! i = Some th ->
  exists pre post,
    ths = pre ++ th :: post /\ alter f i ths = pre ++ f th :: post /\
    List.length pre = i.
Proof.
  revert i. induction ths as [|x ths IH]; intros [|i] Hi; try discriminate.
  - injection Hi as ->. exists [], ths. auto.
  - destruct (IH i Hi) as (pre & post & -> & Halter & Hlen).
    exists (x :: pre), post. cbn. rewrite <- Hlen.
    change (list_alter f (List.length pre) (pre ++ th :: post))
      with (alter f (List.length pre) (pre ++ th :: post)).
    rewrite Hlen, Halter. subst i. auto.
Qed.

Lemma in_flight_app (l1 l2 : list thread) :
  in_flight (l1 ++ l2) = in_flight l1 ++ in_flight l2.
Proof. apply flat_map_app. Qed.

Lemma in_flight_cons (th : thread) (l : list thread) :
  in_flight (th :: l) = holding th ++ in_flight l.
Proof. reflexivity. Qed.

Lemma count_app (p : thread -> bool) (l1 l2 : list thread) :
  count p (l1 ++ l2) = (count p l1 + count p l2)%nat.
Proof. unfold count. now rewrite List.filter_app, length_app. Qed.

Lemma count_cons (p : thread -> bool) (th : thread) (l : list thread) :
  count p (th :: l) = ((if p th then 1 else 0) + count p l)%nat.
Proof. unfold count. cbn. destruct (p th); reflexivity. Qed.

Lemma count_le_length (p : thread -> bool) (l : list thread) :
  (count p l <= List.length l)%nat.
Proof. unfold count. apply List.filter_length_le. Qed.

Lemma invoked_app (t1 t2 : list event) : invoked (t1 ++ t2) = invoked t1 ++ invoked t2.
Proof. apply flat_map_app. Qed.

Lemma recorded_app (t1 t2 : list event) : recorded (t1 ++ t2) = recorded t1 ++ recorded t2.
Proof. apply flat_map_app. Qed.

Lemma dequeued_app (t1 t2 : list event) : dequeued (t1 ++ t2) = dequeued t1 ++ dequeued t2.
Proof. apply flat_map_app. Qed.

Lemma pending_adds_app (c1 c2 : list call) :
  pending_adds (c1 ++ c2) = pending_adds c1 ++ pending_adds c2.
Proof. apply flat_map_app. Qed.

Lemma pending_adds_map (tasks : list task) : pending_adds (List.map AddTask tasks) = tasks.
Proof.
  induction tasks as [|t l IH]; [reflexivity|].
  unfold pending_adds in *. cbn. now f_equal.
Qed.

(** The events after the first error, when one more event is recorded. *)
Lemma after_first_error_snoc (tr : list event) (ev : event) :
  after_first_error (tr ++ [ev]) =
  match recorded tr with
  | [] => []
  | _ :: _ => after_first_error tr ++ [ev]
  end.
Proof.
  induction tr as [|x tr IH]; cbn.
  - destruct ev; reflexivity.
  - destruct x; cbn; try exact IH. reflexivity.
Qed.

(** ** The step function, case by case *)

Lemma _func_inv (i : nat) (s s' : state) :
  _func i s = Some s' -> thread_step i s s'.
Proof.
  unfold _func. intros Hstep.
  destruct (threads (self s) !! i) as [th|] eqn:Hth; [|discriminate].
  destruct (alter_split (set_loc AtGet) _ _ _ Hth) as (pre & post & Hsplit & _ & Hlen).
  assert (Halter : forall l, alter (set_loc l) i (threads (self s)) =
                             pre ++ set_loc l th :: post).
  { intros l.
    destruct (alter_split (set_loc l) _ _ _ Hth) as (pre' & post' & Hs' & -> & Hl').
    rewrite Hsplit in Hs'. apply app_inj_1 in Hs' as [-> Hs']; [|congruence].
    now injection Hs' as ->. }
  assert (Hbuild : forall l q lg errs evs,
             thread_effect (self s) i th l q lg errs evs ->
             Some {| self := move i l {| name := name (self s); queue := q;
                                         threads := threads (self s); log := lg;
                                         started := started (self s); errors := errs |};
                     todo := todo s; position := position s;
                     trace := trace s ++ evs |} = Some s' ->
             thread_step i s s').
  { intros l q lg errs evs Heff [= <-].
    unfold move, with_threads. cbn [name queue threads log started errors].
    rewrite Halter.
    exact (thread_step_intro i s pre th post l q lg errs evs Hsplit Hlen Heff). }
  assert (Hself : forall l, move i l (self s) =
                            move i l {| name := name (self s); queue := queue (self s);
                                        threads := threads (self s); log := log (self s);
                                        started := started (self s);
                                        errors := errors (self s) |}).
  { reflexivity. }
  destruct (loc th) eqn:Hloc; try discriminate.
  - destruct (errors (self s)) eqn:He.
    + eapply Hbuild; [apply check_passes; assumption|].
      rewrite app_nil_r, He, <- Hself. rewrite <- Hstep. reflexivity.
    + eapply Hbuild; [apply check_breaks; [assumption | congruence]|].
      rewrite app_nil_r, He, <- Hself. rewrite <- Hstep. reflexivity.
  - unfold get_nowait in Hstep. destruct (items (queue (self s))) eqn:Hq.
    + eapply Hbuild; [apply get_empty; assumption|].
      rewrite app_nil_r, <- Hself. exact Hstep.
    + eapply Hbuild; [eapply get_task; eassumption|]. exact Hstep.
  - destruct (raises t) as [e|] eqn:Hr; [destruct (isinstance_Exception e) eqn:Hi|].
    + eapply Hbuild; [eapply call_caught; eassumption|].
      rewrite <- Hself. exact Hstep.
    + eapply Hbuild; [eapply call_kills; eassumption|].
      rewrite <- Hself. exact Hstep.
    + eapply Hbuild; [eapply call_returns; eassumption|].
      rewrite <- Hself. exact Hstep.
  - eapply Hbuild; [eapply handler_records; eassumption|]. exact Hstep.
  - unfold task_done in Hstep. destruct (unfinished_tasks (queue (self s))) eqn:Hu.
    + eapply Hbuild; [apply task_done_fails; assumption|].
      rewrite app_nil_r, <- Hself. exact Hstep.
    + eapply Hbuild; [eapply task_done_counts; eassumption|].
      rewrite app_nil_r. exact Hstep.
  - eapply Hbuild; [apply thread_exits; assumption|].
    rewrite app_nil_r. exact Hstep.
Qed.

Lemma step_caller_inv (s s' : state) :
  step_caller s = Some s' -> caller_step s s'.
Proof.
  unfold step_caller, start, wait, add_task. intros Hstep.
  destruct (position s) as [|k|k|e] eqn:Hpos; [| | |discriminate].
  - destruct (todo s) as [|[t| |] rest] eqn:Htodo; [discriminate| | |];
      injection Hstep as <-.
    + now apply caller_adds.
    + now apply caller_enters_start.
    + destruct (started (self s)) eqn:Hst.
      * now apply caller_enters_wait.
      * now apply caller_wait_not_started.
  - destruct (threads (self s) !! k) as [th|] eqn:Hth.
    + destruct (alter_split (set_loc AtErrorsCheck) _ _ _ Hth)
        as (pre & post & Hsplit & Halter & Hlen).
      destruct (loc th) eqn:Hloc; injection Hstep as <-;
        try (apply (caller_starts_twice s k th); [assumption | assumption | congruence]).
      unfold move, with_threads. cbn [name queue threads log started errors].
      rewrite Halter. apply (caller_starts_thread s k pre th post); assumption.
    + injection Hstep as <-. apply (caller_leaves_start s k); assumption.
  - destruct (threads (self s) !! k) as [th|] eqn:Hth.
    + destruct (loc th) eqn:Hloc; try discriminate; injection Hstep as <-.
      * apply (caller_joins_unstarted s k th); assumption.
      * apply (caller_joins s k th); [assumption | assumption |].
        unfold terminated. now rewrite Hloc.
      * apply (caller_joins s k th); [assumption | assumption |].
        unfold terminated. now rewrite Hloc.
    + injection Hstep as <-. apply (caller_leaves_wait s k); assumption.
Qed.

(** Every step of the model is one of the cases above. *)
Lemma step_inv (a : actor) (s s' : state) :
  step a s = Some s' ->
  match a with
  | Caller => caller_step s s'
  | Thread i => thread_step i s s'
  end.
Proof.
  destruct a; cbn [step]; [apply step_caller_inv | apply _func_inv].
Qed.

(** An invariant of the steps holds in every state that is reached. *)
Lemma reaches_ind_steps (P : state -> Prop) (s0 : state) :
  P s0 ->
  (forall s s', P s -> caller_step s s' -> P s') ->
  (forall i s s', P s -> thread_step i s s' -> P s') ->
  forall s, reaches s0 s -> P s.
Proof.
  intros H0 Hc Ht s Hr. induction Hr as [|a s1 s2 Hr IH Hstep]; [exact H0|].
  apply step_inv in Hstep. destruct a; [eapply Hc | eapply Ht]; eassumption.
Qed.

Lemma reaches_trans (s1 s2 s3 : state) :
  reaches s1 s2 -> reaches s2 s3 -> reaches s1 s3.
Proof.
  intros H12 H23. induction H23 as [|a s s' _ IH Hstep]; [exact H12|].
  eapply reaches_step; eassumption.
Qed.

Lemma run_reaches (schedule : list actor) (s : state) : reaches s (run schedule s).
Proof.
  revert s. induction schedule as [|a rest IH]; intros s; cbn [run].
  - apply reaches_refl.
  - destruct (step a s) as [s'|] eqn:Hstep; [|apply IH].
    eapply reaches_trans; [|apply IH].
    eapply reaches_step; [apply reaches_refl | exact Hstep].
Qed.

(** ** The general invariant *)

Lemma holding_eq th : holding th = match loc th with AtCall t => [t] | _ => [] end.
Proof. reflexivity. Qed.
Lemma busy_eq th : busy th = match loc th with AtCall _ | AtExcept _ | AtTaskDone => true | _ => false end.
Proof. reflexivity. Qed.
Lemma taking_eq th : taking th = match loc th with AtGet | AtCall _ => true | _ => false end.
Proof. reflexivity. Qed.
Lemma at_get_eq th : at_get th = match loc th with AtGet => true | _ => false end.
Proof. reflexivity. Qed.

Ltac at_loc :=
  rewrite ?in_flight_app, ?in_flight_cons, ?count_app, ?count_cons,
    ?invoked_app, ?recorded_app, ?dequeued_app, ?length_app,
    ?holding_eq, ?busy_eq, ?taking_eq, ?at_get_eq in *;
  cbn [loc set_loc] in *;
  repeat match goal with H : loc _ = _ |- _ => rewrite H in * end;
  repeat match goal with H : items _ = _ |- _ => rewrite H in * end;
  repeat match goal with H : unfinished_tasks _ = _ |- _ => rewrite H in * end;
  cbn [items unfinished_tasks] in *;
  cbn [List.length invoked recorded dequeued flat_map app] in *;
  rewrite ?app_nil_r in *.

(** The threads other than the one that moves are found where they were. *)
Lemma lookup_elsewhere (pre post : list thread) (th th' : thread) (j : nat) :
  j <> List.length pre ->
  (pre ++ th' :: post) !! j = (pre ++ th :: post) !! j.
Proof.
  intros Hne. destruct (Nat.lt_ge_cases j (List.length pre)).
  - now rewrite !lookup_app_l by assumption.
  - rewrite !lookup_app_r by assumption.
    destruct (j - List.length pre)%nat eqn:E; [lia | reflexivity].
Qed.

Lemma lookup_moved (pre post : list thread) (th th' x : thread) (j : nat) :
  (pre ++ th' :: post) !! j = Some x ->
  (j = List.length pre /\ x = th') \/
  (j <> List.length pre /\ (pre ++ th :: post) !! j = Some x).
Proof.
  intros Hj. destruct (decide (j = List.length pre)) as [->|Hne].
  - left. split; [reflexivity|].
    rewrite list_lookup_middle in Hj by reflexivity. congruence.
  - right. split; [assumption|]. now rewrite (lookup_elsewhere _ _ th th') in Hj.
Qed.

Lemma invariant_thread_step pool n calls i s s' :
  invariant pool n calls s -> thread_step i s s' -> invariant pool n calls s'.
Proof.
  intros [Hname Hthreads Hcons Herrs Hunf Hdied Hraised Hlogged Hai Had Hfifo Hdeq] Hstep.
  destruct Hstep as [pre th post l q lg errs evs Hsplit Hlen Heff].
  rewrite Hsplit in *.
  constructor; cbn [self todo position trace name queue threads log started errors].
  - exact Hname.
  - rewrite length_app in *. exact Hthreads.
  - destruct Heff; at_loc; try exact Hcons;
      (etrans; [exact Hcons|]); solve_Permutation.
  - destruct Heff; at_loc; congruence.
  - destruct Heff; at_loc; cbn [items unfinished_tasks] in *; try lia.
  - rewrite Forall_app, Forall_cons in *. destruct Hdied as (Hd1 & Hd2 & Hd3).
    repeat split; try assumption.
    destruct Heff; at_loc; intros e' He'; try discriminate.
    + congruence.
    + cbn [items unfinished_tasks] in *; lia.
  - intros j t0 e0 Hin Hr Hi. apply in_app_or in Hin as [Hin|Hin].
    + destruct (Hraised j t0 e0 Hin Hr Hi) as [Hrec|(th0 & Hj & Hl0)].
      * left. apply in_or_app. now left.
      * destruct (decide (j = List.length pre)) as [->|Hne].
        -- rewrite list_lookup_middle in Hj by reflexivity. injection Hj as <-.
           destruct Heff; try congruence.
           left. apply in_or_app. right. left. congruence.
        -- right. exists th0. split; [|assumption].
           now rewrite (lookup_elsewhere _ _ th).
    + destruct Heff; cbn in Hin; try contradiction;
        destruct Hin as [Hin|[]]; try discriminate;
        injection Hin as <- <-; try congruence.
      right. exists (set_loc (AtExcept e) th). split.
      * now apply list_lookup_middle.
      * cbn. congruence.
  - intros j e0 Hin. apply in_app_or in Hin as [Hin|Hin].
    + specialize (Hlogged _ _ Hin).
      destruct Heff; unfold _log; try assumption; apply in_or_app; now left.
    + destruct Heff; cbn in Hin; try contradiction;
        destruct Hin as [Hin|[]]; try discriminate.
      injection Hin as <- <-. unfold _log. apply in_or_app. right. left.
      now rewrite Hname.
  - pose proof (count_le_length taking pre). pose proof (count_le_length taking post).
    rewrite Herrs in *.
    destruct (recorded (trace s)) as [|e1 es] eqn:Erec;
      [|specialize (Hai ltac:(discriminate))];
      destruct Heff; at_loc; rewrite ?after_first_error_snoc, ?Erec; at_loc;
      intros Hne; try congruence; try lia.
  - pose proof (count_le_length at_get pre). pose proof (count_le_length at_get post).
    rewrite Herrs in *.
    destruct (recorded (trace s)) as [|e1 es] eqn:Erec;
      [|specialize (Had ltac:(discriminate))];
      destruct Heff; at_loc; rewrite ?after_first_error_snoc, ?Erec; at_loc;
      intros Hne; try congruence; try lia.
  - destruct Heff; at_loc; try exact Hfifo.
    rewrite Hfifo. now rewrite <- app_assoc.
  - destruct Heff; at_loc; try exact Hdeq;
      (etrans; [apply (Permutation_app_tail _ Hdeq) || exact Hdeq|]);
      solve_Permutation.
Qed.

Lemma invariant_caller_step pool n calls s s' :
  invariant pool n calls s -> caller_step s s' -> invariant pool n calls s'.
Proof.
  intros [Hname Hthreads Hcons Herrs Hunf Hdied Hraised Hlogged Hai Had Hfifo Hdeq] Hstep.
  destruct Hstep;
    try match goal with E : todo s = _ |- _ => rewrite E in Hcons, Hfifo end;
    try (constructor;
         cbn [self todo position trace name queue threads log started errors];
         solve [assumption | exact Hcons | exact Hfifo]).
  - (* add_task *)
    unfold pending_adds at 2 in Hcons. cbn [flat_map] in Hcons.
    fold (pending_adds rest) in Hcons.
    constructor; cbn [self todo position trace name queue threads log started errors put items unfinished_tasks]; try assumption.
    + etrans; [exact Hcons|]. solve_Permutation.
    + rewrite length_app. cbn. lia.
    + intros i e Hin. unfold _log. apply in_or_app. left. now apply Hlogged.
    + rewrite Hfifo. cbn [pending_adds flat_map app]. now rewrite <- !app_assoc.
  - (* thread.start() *)
    rewrite H0 in *.
    constructor; cbn [self todo position trace name queue threads log started errors]; try assumption.
    + rewrite length_app in *. exact Hthreads.
    + at_loc. exact Hcons.
    + at_loc. exact Hunf.
    + rewrite Forall_app, Forall_cons in *. destruct Hdied as (Hd1 & Hd2 & Hd3).
      repeat split; try assumption. cbn. discriminate.
    + intros j t0 e0 Hin Hr Hi.
      destruct (Hraised j t0 e0 Hin Hr Hi) as [Hrec|(th0 & Hj & Hl0)]; [now left|].
      right. destruct (decide (j = List.length pre)) as [->|Hne].
      * rewrite list_lookup_middle in Hj by reflexivity. injection Hj as <-. congruence.
      * exists th0. split; [|assumption].
        now rewrite (lookup_elsewhere _ _ th).
    + intros i e Hin. unfold _log. apply in_or_app. left. now apply Hlogged.
    + intros Hne. specialize (Hai Hne). at_loc. exact Hai.
    + intros Hne. specialize (Had Hne). at_loc. exact Had.
    + at_loc. exact Hdeq.
  - (* start() on a started thread *)
    constructor; cbn [self todo position trace name queue threads log started errors]; try assumption.
    intros i e Hin. unfold _log. apply in_or_app. left. now apply Hlogged.
Qed.

Lemma Worker_init_threads (pool : string) (n : Z) :
  Forall (fun th => loc th = Unstarted) (threads (Worker_init pool n)).
Proof.
  unfold Worker_init. cbn [threads]. destruct (1 <? n)%Z.
  - apply Forall_forall. intros th Hin. apply list_elem_of_In in Hin.
    apply List.in_map_iff in Hin as (i & <- & _). reflexivity.
  - repeat constructor.
Qed.

Lemma unstarted_idle (ths : list thread) :
  Forall (fun th => loc th = Unstarted) ths ->
  in_flight ths = [] /\ count busy ths = 0%nat /\ count taking ths = 0%nat /\
  count at_get ths = 0%nat.
Proof.
  induction 1 as [|th ths Hth _ (I1 & I2 & I3 & I4)]; [auto|].
  rewrite in_flight_cons, !count_cons, holding_eq, busy_eq, taking_eq, at_get_eq, Hth.
  rewrite I1, I2, I3, I4. auto.
Qed.

Lemma invariant_initial (pool : string) (n : Z) (calls : list call) :
  invariant pool (List.length (threads (Worker_init pool n))) calls
            (initial (Worker_init pool n) calls).
Proof.
  pose proof (Worker_init_threads pool n) as Hun.
  destruct (unstarted_idle _ Hun) as (I1 & I2 & I3 & I4).
  constructor; cbn [initial self todo position trace]; try reflexivity.
  - rewrite I1. cbn. reflexivity.
  - rewrite I2. cbn. lia.
  - eapply Forall_impl; [exact Hun|]. intros th -> e. discriminate.
  - intros i t e [].
  - intros i e [].
  - cbn. congruence.
  - cbn. congruence.
  - rewrite I1. reflexivity.
Qed.

(** ** The phases of a run, and runs in which no task raises *)

Lemma every_moved (P : nat -> thread -> Prop) (pre post : list thread) (th th' : thread) :
  every P (pre ++ th :: post) -> P (List.length pre) th' ->
  every P (pre ++ th' :: post).
Proof.
  intros Hall Hnew j x Hj.
  destruct (lookup_moved pre post th th' x j Hj) as [[-> ->]|[Hne Hold]];
    [exact Hnew | now apply Hall].
Qed.

Lemma every_moved_except (P : nat -> thread -> Prop) (pre post : list thread)
    (th th' : thread) :
  (forall j x, (pre ++ th :: post) !! j = Some x -> j <> List.length pre -> P j x) ->
  P (List.length pre) th' ->
  every P (pre ++ th' :: post).
Proof.
  intros Hall Hnew j x Hj.
  destruct (lookup_moved pre post th th' x j Hj) as [[-> ->]|[Hne Hold]];
    [exact Hnew | now apply Hall].
Qed.

Lemma every_here (P : nat -> thread -> Prop) (pre post : list thread) (th : thread) :
  every P (pre ++ th :: post) -> P (List.length pre) th.
Proof. intros Hall. apply Hall. now apply list_lookup_middle. Qed.

(** A thread that takes a step is started and has not terminated, and the
    step does not take it back to the start. *)
Lemma thread_effect_alive w i th l q lg errs evs :
  thread_effect w i th l q lg errs evs ->
  loc th <> Unstarted /\ terminated th = false /\ l <> Unstarted.
Proof.
  unfold terminated. destruct 1;
    repeat match goal with H : loc _ = _ |- _ => rewrite H end;
    repeat split; discriminate.
Qed.

Lemma phase_thread_step i s s' : phase s -> thread_step i s s' -> phase s'.
Proof.
  intros Hph Hstep.
  destruct Hstep as [pre th post l q lg errs evs Hsplit Hlen Heff].
  destruct (thread_effect_alive _ _ _ _ _ _ _ _ Heff) as (Hstarted & Halive & Hl).
  destruct Hph as [rest Hpos Htodo Hst Hall|k Hpos Htodo Hst Hlow Hhigh
                  |Hpos Htodo Hst Hall|k Hpos Htodo Hall Hlow|Hpos Htodo Hall];
    rewrite Hsplit in *.
  - apply every_here in Hall. contradiction.
  - destruct (Nat.lt_ge_cases (List.length pre) k) as [Hlt|Hge].
    + apply (starting _ k); cbn [self todo position threads started]; try assumption.
      * eapply every_moved; [exact Hlow|]. intros _. exact Hl.
      * eapply every_moved; [exact Hhigh|]. lia.
    + apply every_here in Hhigh. specialize (Hhigh Hge). contradiction.
  - apply running; cbn [self todo position threads started]; try assumption.
    eapply every_moved; [exact Hall | exact Hl].
  - apply (waiting _ k); cbn [self todo position threads started]; try assumption.
    + eapply every_moved; [exact Hall | exact Hl].
    + destruct (Nat.lt_ge_cases (List.length pre) k) as [Hlt|Hge].
      * apply every_here in Hlow. specialize (Hlow Hlt). congruence.
      * eapply every_moved; [exact Hlow|]. lia.
  - apply every_here in Hall. congruence.
Qed.

Lemma map_AddTask_cons (rest : list task) (c : call) (calls : list call) (tail : list call) :
  c :: calls = List.map AddTask rest ++ tail ->
  (rest = [] /\ c :: calls = tail) \/
  exists t rest', rest = t :: rest' /\ c = AddTask t /\ calls = List.map AddTask rest' ++ tail.
Proof.
  destruct rest as [|t rest']; cbn; [auto|].
  intros [= -> ->]. right. eauto.
Qed.

Lemma phase_caller_step s s' : phase s -> caller_step s s' -> phase s'.
Proof.
  intros Hph Hstep.
  destruct Hph as [rest Hpos Htodo Hst Hall|k Hpos Htodo Hst Hlow Hhigh
                  |Hpos Htodo Hst Hall|k Hpos Htodo Hall Hlow|Hpos Htodo Hall];
    destruct Hstep; try congruence;
    repeat match goal with
           | H1 : position s = _, H2 : position s = _ |- _ =>
               rewrite H1 in H2; injection H2 as <-
           | H1 : todo s = _, H2 : todo s = _ |- _ => rewrite H1 in H2
           end.
  - (* add_task *)
    symmetry in H0. apply map_AddTask_cons in H0 as [[_ [=]]|(t' & rest' & -> & _ & ->)].
    now apply (enqueueing _ rest').
  - (* start() begins *)
    symmetry in H0. apply map_AddTask_cons in H0 as [[_ [= ->]]|(t' & rest' & _ & [=] & _)].
    apply (starting _ 0%nat); cbn [self todo position]; try assumption; try reflexivity.
    + intros j th _ Hj. lia.
    + intros j th Hj _. now apply (Hall j).
  - (* wait() cannot come first *)
    symmetry in H0. apply map_AddTask_cons in H0 as [[_ [=]]|(t' & rest' & _ & [=] & _)].
  - (* thread.start() *)
    rewrite H0 in *. subst k.
    apply (starting _ (S (List.length pre))); cbn [self todo position threads started];
      try assumption; try reflexivity.
    + apply (every_moved_except _ pre post th); [|cbn; intros _; discriminate].
      intros j x Hj Hne Hlt. apply (Hlow j x Hj). lia.
    + apply (every_moved_except _ pre post th); [|lia].
      intros j x Hj Hne Hle. apply (Hhigh j x Hj). lia.
  - (* start() on a started thread *)
    specialize (Hhigh _ _ H0 ltac:(lia)). contradiction.
  - (* start() ends *)
    apply running; cbn [self todo position threads started]; try assumption; try reflexivity.
    intros j x Hj. apply (Hlow j x Hj).
    apply lookup_ge_None in H0. apply lookup_lt_Some in Hj. lia.
  - (* wait() begins *)
    injection H0 as <-.
    apply (waiting _ 0%nat); cbn [self todo position]; try assumption; try reflexivity.
    intros j x Hj Hlt. lia.
  - (* join() of a thread that was not started *)
    specialize (Hall _ _ H0). contradiction.
  - (* join() *)
    apply (waiting _ (S k)); cbn [self todo position]; try assumption; try reflexivity.
    intros j x Hj Hlt. destruct (decide (j = k)) as [->|Hne].
    + congruence.
    + apply (Hlow j x Hj). lia.
  - (* wait() ends *)
    apply joined; cbn [self todo position]; try assumption; try reflexivity.
    intros j x Hj. apply (Hlow j x Hj).
    apply lookup_ge_None in H0. apply lookup_lt_Some in Hj. lia.
Qed.

Lemma calm_thread_step pool n calls i s s' :
  invariant pool n calls s -> calm s -> thread_step i s s' -> calm s'.
Proof.
  intros Hinv [Herrs Hths Hq Htodo Hdrained] Hstep.
  pose proof (inv_unfinished _ _ _ _ Hinv) as Hunf.
  destruct Hstep as [pre th post l q lg errs evs Hsplit Hlen Heff].
  rewrite Hsplit in *.
  rewrite Forall_app, Forall_cons in Hths. destruct Hths as (Hpre & Hth & Hpost).
  assert (Hold : forall l', l' <> AtExit -> l' <> Finished ->
            Exists (fun th => loc th = AtExit \/ loc th = Finished)
                   (pre ++ set_loc l' th :: post) ->
            Exists (fun th => loc th = AtExit \/ loc th = Finished)
                   (pre ++ th :: post)).
  { intros l' H1 H2. rewrite !Exists_app, !Exists_cons. cbn [loc set_loc].
    intros [?|[[?|?]|?]]; auto; contradiction. }
  destruct Heff; at_loc;
    try contradiction; try congruence; try (unfold peaceful in *; congruence);
    try lia;
    constructor; cbn [self todo position trace name queue threads log started errors items];
    try assumption;
    try (rewrite Forall_app, Forall_cons; cbn [loc set_loc]; now repeat split);
    try (intros Hex; apply Hold in Hex; [auto | discriminate | discriminate]).
  - rewrite H0. constructor.
  - intros _. exact H0.
  - inversion Hq; subst. rewrite Forall_app, Forall_cons. cbn [loc set_loc].
    now repeat split.
  - now inversion Hq.
  - specialize (Hdrained Hex). discriminate.
  - intros _. apply Hdrained. rewrite Exists_app, Exists_cons. auto.
Qed.

Lemma calm_caller_step s s' : phase s -> calm s -> caller_step s s' -> calm s'.
Proof.
  intros Hph [Herrs Hths Hq Htodo Hdrained] Hstep.
  destruct Hstep;
    try match goal with E : todo s = _ |- _ => rewrite E in Htodo end;
    try (constructor;
         cbn [self todo position trace name queue threads log started errors];
         solve [assumption | exact Htodo]).
  - (* add_task *)
    unfold pending_adds in Htodo. cbn [flat_map] in Htodo.
    fold (pending_adds rest) in Htodo. inversion Htodo; subst.
    constructor; cbn [self todo position trace name queue threads log started errors put items];
      try assumption.
    + rewrite Forall_app. split; [assumption | now constructor].
    + intros Hex. exfalso.
      destruct Hph as [rest' Hpos Htd Hst Hall| | | |]; try congruence.
      apply Exists_exists in Hex as (th & Hin & Hloc).
      apply list_elem_of_lookup in Hin as [j Hj].
      specialize (Hall j th Hj). destruct Hloc; congruence.
  - (* thread.start() *)
    rewrite H0 in *.
    rewrite Forall_app, Forall_cons in Hths. destruct Hths as (Hpre & Hth & Hpost).
    constructor; cbn [self todo position trace name queue threads log started errors];
      try assumption.
    + rewrite Forall_app, Forall_cons. cbn [loc set_loc]. now repeat split.
    + intros Hex. apply Hdrained. revert Hex.
      rewrite !Exists_app, !Exists_cons. cbn [loc set_loc].
      intros [?|[[?|?]|?]]; auto; discriminate.
Qed.


Lemma thread_weight_eq th :
  thread_weight th =
  match loc th with
  | Unstarted | AtErrorsCheck => 3 | AtGet => 2 | AtCall _ => 6 | AtExcept _ => 5
  | AtTaskDone => 4 | AtExit => 1 | Finished | Died _ => 0
  end%nat.
Proof. reflexivity. Qed.

Lemma list_sum_cons (x : nat) (l : list nat) : list_sum (x :: l) = (x + list_sum l)%nat.
Proof. reflexivity. Qed.

Lemma weights_moved (pre post : list thread) (th : thread) :
  list_sum (List.map thread_weight (pre ++ th :: post)) =
  (list_sum (List.map thread_weight pre) + thread_weight th
   + list_sum (List.map thread_weight post))%nat.
Proof. rewrite List.map_app, list_sum_app. cbn [List.map]. rewrite list_sum_cons. lia. Qed.

(** Every step makes the measure smaller: no run goes on for ever. *)
Lemma step_decreases (a : actor) (s s' : state) :
  step a s = Some s' -> (measure s' < measure s)%nat.
Proof.
  intros Hstep. apply step_inv in Hstep. destruct a as [|i].
  - destruct Hstep; unfold measure, caller_weight;
      cbn [self todo position trace name queue threads log started errors put items];
      repeat match goal with H : position s = _ |- _ => rewrite H end;
      repeat match goal with H : todo s = _ |- _ => rewrite H end;
      repeat match goal with H : threads (self s) = _ |- _ => rewrite H end;
      repeat match goal with H : threads (self s) !! _ = _ |- _ =>
               apply lookup_lt_Some in H || apply lookup_ge_None in H end;
      rewrite ?weights_moved, ?thread_weight_eq;
      cbn [List.map list_sum call_weight loc set_loc];
      repeat match goal with H : loc _ = _ |- _ => rewrite H end;
      rewrite ?length_app, ?list_sum_cons; cbn [List.length]; lia.
  - destruct Hstep as [pre th post l q lg errs evs Hsplit Hlen Heff].
    unfold measure, caller_weight.
    cbn [self todo position trace name queue threads log started errors].
    rewrite Hsplit, !weights_moved, !thread_weight_eq, !length_app.
    cbn [loc set_loc List.length].
    destruct Heff;
      repeat match goal with H : loc _ = _ |- _ => rewrite H end;
      repeat match goal with H : items _ = _ |- _ => rewrite H end;
      cbn [items List.length]; destruct (position s); lia.
Qed.

(** Until the caller has returned from its last call, or died, somebody
    can take a step. *)
Lemma progress (s : state) :
  returned s = false -> (forall e, position s <> CallerDied e) ->
  exists a s', step a s = Some s'.
Proof.
  intros Hret Halive.
  destruct (position s) as [|k|k|e] eqn:Hpos.
  - exists Caller. cbn [step]. unfold step_caller. rewrite Hpos.
    unfold returned in Hret. rewrite Hpos in Hret.
    destruct (todo s) as [|[t| |] rest]; [discriminate|eauto..].
  - exists Caller. cbn [step]. unfold step_caller. rewrite Hpos. eauto.
  - destruct (threads (self s) !! k) as [th|] eqn:Hth.
    + destruct (loc th) eqn:Hloc;
        try (exists Caller; cbn [step]; unfold step_caller, wait;
             rewrite Hpos, Hth, Hloc; eauto; fail);
        exists (Thread k); cbn [step]; unfold _func; rewrite Hth, Hloc;
        eauto.
      * destruct (get_nowait _) as [[t q]|]; eauto.
      * destruct (task_done _); eauto.
    + exists Caller. cbn [step]. unfold step_caller, wait. rewrite Hpos, Hth. eauto.
  - now destruct (Halive e).
Qed.

(** ** Runs of [add_task]..., [start()], [wait()] *)

Lemma Worker_init_count (pool : string) (n : Z) :
  List.length (threads (Worker_init pool n)) = if (1 <? n)%Z then Z.to_nat n else 1%nat.
Proof.
  unfold Worker_init. cbn [threads]. destruct (1 <? n)%Z; [|reflexivity].
  now rewrite length_map, length_seq.
Qed.

Lemma Worker_init_nonempty (pool : string) (n : Z) :
  (1 <= List.length (threads (Worker_init pool n)))%nat.
Proof.
  rewrite Worker_init_count. destruct (1 <? n)%Z eqn:E; [|lia].
  apply Z.ltb_lt in E. lia.
Qed.

Lemma every_Forall (Q : thread -> Prop) (ths : list thread) :
  every (fun _ th => Q th) ths <-> Forall Q ths.
Proof. unfold every. now rewrite Forall_lookup. Qed.

Lemma terminated_idle (ths : list thread) :
  Forall (fun th => terminated th = true) ths -> in_flight ths = [].
Proof.
  induction 1 as [|th ths Hth _ IH]; [reflexivity|].
  rewrite in_flight_cons, IH, holding_eq. unfold terminated in Hth.
  now destruct (loc th).
Qed.

Lemma pending_adds_program (tasks : list task) :
  pending_adds (enqueue_start_wait tasks) = tasks.
Proof.
  unfold enqueue_start_wait. rewrite pending_adds_app, pending_adds_map.
  apply app_nil_r.
Qed.

(** What holds all along a run of the program on a new pool. *)
Lemma run_invariant (pool : string) (n : Z) (tasks : list task) (s : state) :
  reaches (initial (Worker_init pool n) (enqueue_start_wait tasks)) s ->
  invariant pool (List.length (threads (Worker_init pool n)))
            (enqueue_start_wait tasks) s /\ phase s.
Proof.
  revert s.
  apply (reaches_ind_steps
           (fun s => invariant pool (List.length (threads (Worker_init pool n)))
                               (enqueue_start_wait tasks) s /\ phase s)).
  - split; [apply invariant_initial|].
    apply (enqueueing _ tasks); try reflexivity.
    apply every_Forall, Worker_init_threads.
  - intros s1 s2 [Hinv Hph] Hstep. split.
    + eapply invariant_caller_step; eassumption.
    + eapply phase_caller_step; eassumption.
  - intros i s1 s2 [Hinv Hph] Hstep. split.
    + eapply invariant_thread_step; eassumption.
    + eapply phase_thread_step; eassumption.
Qed.

Lemma run_calm (pool : string) (n : Z) (tasks : list task) (s : state) :
  Forall peaceful tasks ->
  reaches (initial (Worker_init pool n) (enqueue_start_wait tasks)) s ->
  calm s.
Proof.
  intros Htasks Hreach.
  enough (calm s /\ invariant pool (List.length (threads (Worker_init pool n)))
                              (enqueue_start_wait tasks) s /\ phase s) by tauto.
  revert s Hreach.
  apply (reaches_ind_steps
           (fun s => calm s /\
                     invariant pool (List.length (threads (Worker_init pool n)))
                               (enqueue_start_wait tasks) s /\ phase s)).
  - split; [|apply (run_invariant pool n tasks); apply reaches_refl].
    constructor; cbn [initial self todo position trace]; try reflexivity.
    + eapply Forall_impl; [apply Worker_init_threads|]. now intros th ->.
    + constructor.
    + now rewrite pending_adds_program.
  - intros s1 s2 (Hcalm & Hinv & Hph) Hstep. split; [|split].
    + eapply calm_caller_step; eassumption.
    + eapply invariant_caller_step; eassumption.
    + eapply phase_caller_step; eassumption.
  - intros i s1 s2 (Hcalm & Hinv & Hph) Hstep. split; [|split].
    + eapply calm_thread_step; eassumption.
    + eapply invariant_thread_step; eassumption.
    + eapply phase_thread_step; eassumption.
Qed.

(** When [wait()] has returned, every thread has terminated. *)
Lemma returned_joined (s : state) :
  phase s -> returned s = true ->
  Forall (fun th => terminated th = true) (threads (self s)).
Proof.
  unfold returned.
  intros [rest Hpos Htodo _ _|k Hpos Htodo _ _ _|Hpos Htodo _ _|k Hpos Htodo _ _
         |Hpos Htodo Hall]; rewrite Hpos, Htodo; try discriminate.
  - destruct rest; discriminate.
  - intros _. now apply every_Forall.
Qed.

Lemma phase_caller_alive (s : state) (e : exception) :
  phase s -> position s <> CallerDied e.
Proof. intros [ ]; congruence. Qed.

(** C1. Pool completeness.  Tasks that raise nothing are enqueued on a new
    pool, then [start()] and [wait()] are called.  Whatever the
    interleaving of the threads: until [wait()] has returned some thread can
    take a step, and every step makes the measure smaller, so [wait()]
    returns; and when it has returned, the tasks invoked are the tasks
    enqueued, each one once, and the errors are empty. *)
Theorem pool_completeness (pool : string) (n : Z) (tasks : list task) :
  Forall peaceful tasks ->
  forall s : state,
    reaches (initial (Worker_init pool n) (enqueue_start_wait tasks)) s ->
    (returned s = true ->
     Permutation (invoked (trace s)) tasks /\ errors (self s) = []) /\
    (returned s = false -> exists a s', step a s = Some s') /\
    (forall a s', step a s = Some s' -> (measure s' < measure s)%nat).
Proof.
  intros Htasks s Hreach.
  destruct (run_invariant pool n tasks s Hreach) as [Hinv Hph].
  pose proof (run_calm pool n tasks s Htasks Hreach) as Hcalm.
  split; [|split].
  - intros Hret.
    pose proof (returned_joined s Hph Hret) as Hterm.
    split; [|apply Hcalm].
    assert (Hempty : items (queue (self s)) = []).
    { apply (calm_drained _ Hcalm).
      pose proof (Worker_init_nonempty pool n) as Hne.
      rewrite <- (inv_threads _ _ _ _ Hinv) in Hne.
      destruct (threads (self s)) as [|th ths] eqn:Hths; [cbn in Hne; lia|].
      apply Exists_cons_hd. right.
      pose proof (calm_threads _ Hcalm) as Hc. rewrite Hths in Hc.
      inversion Hc as [|? ? Hth _]; subst.
      inversion Hterm as [|? ? Hdead _]; subst.
      unfold terminated in Hdead. destruct (loc th); try discriminate;
        [reflexivity | contradiction]. }
    pose proof (inv_conserve _ _ _ _ Hinv) as Hperm.
    rewrite pending_adds_program, (terminated_idle _ Hterm), Hempty in Hperm.
    unfold returned in Hret. destruct (todo s); [|discriminate].
    cbn in Hperm. rewrite app_nil_r in Hperm. now symmetry.
  - intros Hret. apply progress; [exact Hret|].
    intros e. now apply phase_caller_alive.
  - intros a s'. apply step_decreases.
Qed.

Lemma pool_completeness_witness :
  Forall peaceful three_tasks /\
  returned three_tasks_run = true /\
  Permutation (invoked (trace three_tasks_run)) three_tasks /\
  errors (self three_tasks_run) = [].
Proof.
  assert (Hp : Forall peaceful three_tasks) by (repeat constructor).
  split; [exact Hp|]. split; [reflexivity|].
  exact (proj1 (pool_completeness "qc" 2 three_tasks Hp three_tasks_run
                  (run_reaches _ _)) eq_refl).
Defined.

(** ** Tasks that raise *)




(** ** [wait()] *)

(** From a call of [wait()] on a started pool: the caller has not yet
    entered [wait()], or it is joining the threads and those before the one
    it joins have terminated, or it has died, or every thread has
    terminated. *)
Lemma wait_joins (s : state) (rest : list call) :
  position s = Between -> todo s = Wait :: rest -> started (self s) = true ->
  forall s', reaches s s' ->
    (position s' = Between /\ todo s' = Wait :: rest /\ started (self s') = true) \/
    (exists k, position s' = InWait k /\ todo s' = rest /\
               every (fun j th => (j < k)%nat -> terminated th = true)
                     (threads (self s'))) \/
    (exists e, position s' = CallerDied e) \/
    Forall (fun th => terminated th = true) (threads (self s')).
Proof.
  intros Hpos Htodo Hst.
  apply (reaches_ind_steps
           (fun s' =>
              (position s' = Between /\ todo s' = Wait :: rest /\
               started (self s') = true) \/
              (exists k, position s' = InWait k /\ todo s' = rest /\
                         every (fun j th => (j < k)%nat -> terminated th = true)
                               (threads (self s'))) \/
              (exists e, position s' = CallerDied e) \/
              Forall (fun th => terminated th = true) (threads (self s')))).
  - left. auto.
  - (* the caller *)
    intros s1 s2 [(Hp & Ht & Hs)|[(k & Hp & Ht & Hlow)|[(e & Hp)|Hall]]] Hstep.
    + destruct Hstep; try congruence.
      right. left. exists 0%nat. cbn [position todo self].
      split; [reflexivity|]. split; [congruence|]. intros j th _ Hj. lia.
    + destruct Hstep; try congruence;
        match goal with H : position s1 = InWait _ |- _ =>
          rewrite Hp in H; injection H as <- end.
      * right. right. left. now exists RuntimeError.
      * right. left. exists (S k). cbn [position todo self].
        split; [reflexivity|]. split; [assumption|].
        intros j x Hj Hlt. destruct (decide (j = k)) as [->|Hne].
        -- congruence.
        -- apply (Hlow j x Hj). lia.
      * right. right. right. cbn [self]. apply every_Forall.
        intros j x Hj. apply (Hlow j x Hj).
        match goal with H : _ !! k = None |- _ => apply lookup_ge_None in H end.
        apply lookup_lt_Some in Hj. lia.
    + destruct Hstep; congruence.
    + right. right. right.
      destruct Hstep; cbn [self threads]; try assumption.
      match goal with H : threads (self s1) = _ |- _ => rewrite H in Hall end.
      rewrite Forall_app, Forall_cons in Hall. destruct Hall as (_ & Hth & _).
      unfold terminated in Hth.
      match goal with H : loc _ = Unstarted |- _ => rewrite H in Hth end.
      discriminate.
  - (* a worker thread *)
    intros i s1 s2 Hcases Hstep.
    destruct Hstep as [pre th post l q lg errs evs Hsplit Hlen Heff].
    destruct (thread_effect_alive _ _ _ _ _ _ _ _ Heff) as (_ & Halive & _).
    cbn [position todo self started threads].
    destruct Hcases as [(Hp & Ht & Hs)|[(k & Hp & Ht & Hlow)|[(e & Hp)|Hall]]].
    + left. auto.
    + right. left. exists k. split; [assumption|]. split; [assumption|].
      rewrite Hsplit in Hlow.
      destruct (Nat.lt_ge_cases (List.length pre) k) as [Hlt|Hge].
      * apply every_here in Hlow. specialize (Hlow Hlt). congruence.
      * eapply every_moved; [exact Hlow|]. lia.
    + right. right. left. now exists e.
    + rewrite Hsplit in Hall.
      rewrite Forall_app, Forall_cons in Hall. destruct Hall as (_ & Hth & _).
      congruence.
Qed.

(** Once every thread has terminated, [wait()] joins them one after the
    other and returns, by steps of the caller alone, and changes nothing. *)
Lemma wait_returns (n : nat) :
  forall (s : state) (k : nat),
    position s = InWait k ->
    Forall (fun th => terminated th = true) (threads (self s)) ->
    List.length (threads (self s)) = (k + n)%nat ->
    run (List.repeat Caller (n + 1)) s
    = {| self := self s; todo := todo s; position := Between; trace := trace s |}.
Proof.
  induction n as [|n IH]; intros s k Hpos Hall Hlen.
  - cbn [List.repeat Nat.add run step]. unfold step_caller, wait. rewrite Hpos.
    rewrite (proj2 (lookup_ge_None (threads (self s)) k)) by lia. reflexivity.
  - destruct (lookup_lt_is_Some_2 (threads (self s)) k ltac:(lia)) as [th Hth].
    pose proof (proj1 (Forall_lookup _ _) Hall k th Hth) as Hterm.
    cbn [List.repeat Nat.add run step]. unfold step_caller, wait at 1.
    rewrite Hpos, Hth. unfold terminated in Hterm.
    destruct (loc th) eqn:Hloc; try discriminate;
      rewrite (IH _ (S k)); try reflexivity; cbn [self]; try assumption; lia.
Qed.

(** C8. [wait()] before [start()] is a no-op.  On a pool whose [started]
    flag is not set, [wait()] returns in one step of the caller, whatever
    the threads are doing, and leaves the pool and the trace as they were.
    On a started pool, [wait()] joins the threads in turn: it does not
    proceed while the thread that it joins is running, it proceeds past a
    thread that has terminated, and once every thread has terminated it
    returns, by steps of the caller alone, and leaves the pool and the trace
    as they were; and when it has returned every thread has terminated. *)
Theorem wait_before_start_is_noop (s : state) (rest : list call) :
  position s = Between -> todo s = Wait :: rest ->
  (started (self s) = false ->
   step Caller s =
   Some {| self := self s; todo := rest; position := Between; trace := trace s |}) /\
  (started (self s) = true ->
   (forall s', reaches s s' -> todo s' = rest -> position s' = Between ->
               Forall (fun th => terminated th = true) (threads (self s'))) /\
   (forall s' k th,
       position s' = InWait k -> threads (self s') !! k = Some th ->
       loc th <> Unstarted -> terminated th = false ->
       step Caller s' = None) /\
   step Caller s =
   Some {| self := self s; todo := rest; position := InWait 0; trace := trace s |} /\
   (forall s' k th,
       position s' = InWait k -> threads (self s') !! k = Some th ->
       terminated th = true ->
       step Caller s' =
       Some {| self := self s'; todo := todo s'; position := InWait (S k);
               trace := trace s' |}) /\
   (forall s' k,
       position s' = InWait k ->
       Forall (fun th => terminated th = true) (threads (self s')) ->
       (k <= List.length (threads (self s')))%nat ->
       run (List.repeat Caller (List.length (threads (self s')) - k + 1)) s'
       = {| self := self s'; todo := todo s'; position := Between;
            trace := trace s' |}) /\
   (Forall (fun th => terminated th = true) (threads (self s)) ->
    run (List.repeat Caller (List.length (threads (self s)) + 2)) s
    = {| self := self s; todo := rest; position := Between; trace := trace s |})).
Proof.
  intros Hpos Htodo. split.
  - intros Hst. cbn [step]. unfold step_caller. now rewrite Hpos, Htodo, Hst.
  - intros Hst.
    assert (Henter : step Caller s =
                     Some {| self := self s; todo := rest; position := InWait 0;
                             trace := trace s |}).
    { cbn [step]. unfold step_caller. now rewrite Hpos, Htodo, Hst. }
    assert (Hreturns : forall s' k,
               position s' = InWait k ->
               Forall (fun th => terminated th = true) (threads (self s')) ->
               (k <= List.length (threads (self s')))%nat ->
               run (List.repeat Caller (List.length (threads (self s')) - k + 1)) s'
               = {| self := self s'; todo := todo s'; position := Between;
                    trace := trace s' |}).
    { intros s' k Hp Hall Hk. apply (wait_returns _ s' k Hp Hall). lia. }
    split; [|split; [|split; [exact Henter|split; [|split; [exact Hreturns|]]]]].
    + intros s' Hreach Ht Hp.
      destruct (wait_joins s rest Hpos Htodo Hst s' Hreach)
        as [(_ & Ht' & _)|[(k & Hp' & _)|[(e & Hp')|Hall]]]; try congruence.
      rewrite Ht in Ht'. apply (f_equal (@List.length call)) in Ht'.
      cbn in Ht'. lia.
    + intros s' k th Hp Hth Hun Halive. cbn [step]. unfold step_caller, wait.
      rewrite Hp, Hth. unfold terminated in Halive.
      destruct (loc th); congruence.
    + intros s' k th Hp Hth Hterm. cbn [step]. unfold step_caller, wait.
      rewrite Hp, Hth. unfold terminated in Hterm.
      destruct (loc th); try discriminate; reflexivity.
    + intros Hall.
      replace (List.length (threads (self s)) + 2)%nat
        with (S (List.length (threads (self s)) + 1))%nat by lia.
      cbn [List.repeat run]. rewrite Henter.
      exact (wait_returns (List.length (threads (self s)))
               {| self := self s; todo := rest; position := InWait 0; trace := trace s |}
               0%nat eq_refl Hall eq_refl).
Qed.

(** [wait()] on a pool with tasks in its queue that was never started, and
    on a started pool whose threads have terminated. *)
Lemma wait_before_start_is_noop_witness :
  ((position idle_pool = Between /\ todo idle_pool = [Wait; Start] /\
    started (self idle_pool) = false) /\
   step Caller idle_pool =
   Some {| self := self idle_pool; todo := [Start]; position := Between;
           trace := trace idle_pool |}) /\
  ((position workers_done = Between /\
    todo workers_done = [Wait; AddTask (peaceful_task 4)] /\
    started (self workers_done) = true /\
    Forall (fun th => terminated th = true) (threads (self workers_done))) /\
   run (List.repeat Caller (List.length (threads (self workers_done)) + 2)) workers_done
   = {| self := self workers_done; todo := [AddTask (peaceful_task 4)];
        position := Between; trace := trace workers_done |}).
Proof.
  split.
  - split; [repeat split|].
    exact (proj1 (wait_before_start_is_noop idle_pool [Start] eq_refl eq_refl) eq_refl).
  - assert (Hall : Forall (fun th => terminated th = true)
                          (threads (self workers_done)))
      by (vm_compute; repeat constructor).
    split; [repeat split; try reflexivity; exact Hall|].
    exact (proj2 (proj2 (proj2 (proj2 (proj2
             (proj2 (wait_before_start_is_noop workers_done
                       [AddTask (peaceful_task 4)] eq_refl eq_refl) eq_refl)))))
             Hall).
Defined.

(** ** The number of threads *)

(** C10. Worker-count floor.  [Worker(name, threads)] creates [threads]
    threads when [threads] is greater than one and one thread otherwise,
    also for zero and for negative numbers: never none.  The threads are
    daemons, named after the pool, and none is started. *)
Theorem worker_count_floor (pool : string) (n : Z) :
  List.length (threads (Worker_init pool n))
  = (if (1 <? n)%Z then Z.to_nat n else 1%nat) /\
  (1 <= List.length (threads (Worker_init pool n)))%nat /\
  Forall (fun th => loc th = Unstarted /\ thread_daemon th = true)
         (threads (Worker_init pool n)) /\
  List.map thread_name (threads (Worker_init pool n))
  = (if (1 <? n)%Z
     then List.map (fun i => (pool ++ ":" ++ decimal i)%string) (seq 0 (Z.to_nat n))
     else [pool]) /\
  started (Worker_init pool n) = false.
Proof.
  split; [apply Worker_init_count|]. split; [apply Worker_init_nonempty|].
  split; [|split; [|reflexivity]].
  - unfold Worker_init. cbn [threads]. destruct (1 <? n)%Z.
    + apply Forall_forall. intros th Hin. apply list_elem_of_In in Hin.
      apply List.in_map_iff in Hin as (i & <- & _). split; reflexivity.
    + repeat constructor.
  - unfold Worker_init. cbn [threads]. destruct (1 <? n)%Z; [|reflexivity].
    rewrite List.map_map. reflexivity.
Qed.

Lemma worker_count_floor_witness :
  List.length (threads (Worker_init "qc" 4)) = 4%nat /\
  List.length (threads (Worker_init "qc" 1)) = 1%nat /\
  List.length (threads (Worker_init "qc" 0)) = 1%nat /\
  List.length (threads (Worker_init "qc" (-3))) = 1%nat.
Proof.
  split; [exact (proj1 (worker_count_floor "qc" 4))|].
  split; [exact (proj1 (worker_count_floor "qc" 1))|].
  split; [exact (proj1 (worker_count_floor "qc" 0))|].
  exact (proj1 (worker_count_floor "qc" (-3))).
Defined.

(** * More properties of the hashing walk *)

(** ** The exceptions of [hash_path] *)



(** ** Hashing into a hash object that has been fed before *)



Lemma entries_single_file (st st' : stat) (name : string) (f : file_object) :
  entries (parts {| absolute := false; parts := [] |})
          (Directory st [(name, RegularFile st' (inr f))]) None
  = [("./", Listed); (name, Opened f)].
Proof. reflexivity. Qed.

Lemma feed_bytes_readable (name : string) (f : file_object) :
  fault f = None ->
  feed_bytes (name, Opened f)
  = match encode_utf8 name with
    | Some encoded => (encoded ++ pending f, None)
    | None => ([], Some UnicodeEncodeError)
    end.
Proof.
  intros Hf. unfold feed_bytes. cbn [fst snd].
  destruct (read_in_chunks_concat chunksize_default f) as [Hc Hn];
    [reflexivity | exact Hf |].
  now rewrite Hc, Hn.
Qed.

Lemma walk_bytes_single_file (name : string) (f : file_object) :
  fault f = None ->
  walk_bytes [("./", Listed); (name, Opened f)]
  = match encode_utf8 name with
    | Some encoded => (bytes_of "./" ++ encoded ++ pending f, None)
    | None => (bytes_of "./", Some UnicodeEncodeError)
    end.
Proof.
  intros Hf. cbn [walk_bytes]. rewrite (feed_bytes_readable name f Hf).
  change (feed_bytes ("./", Listed)) with (bytes_of "./", @None exception).
  destruct (encode_utf8 name) as [encoded|]; cbn [fst snd].
  - now rewrite app_nil_r.
  - reflexivity.
Qed.

(** X3. Names and contents are fed without a separator between them: two
    directories that each hold one readable file hash the same as soon as
    the name followed by the content is the same byte string, whatever the
    names are (and also when neither name has an encoding). *)
Theorem hash_path_no_separator {H : Type} `{HashObject H}
    (path : Path) (st1 st2 st3 st4 : stat) (name1 name2 : string)
    (data1 data2 : list byte) (h : H) :
  option_map (fun encoded => encoded ++ data1) (encode_utf8 name1)
  = option_map (fun encoded => encoded ++ data2) (encode_utf8 name2) ->
  hash_path path
    (Directory st1 [(name1, RegularFile st2 (inr {| pending := data1; fault := None |}))])
    (Some h) None None =
  hash_path path
    (Directory st3 [(name2, RegularFile st4 (inr {| pending := data2; fault := None |}))])
    (Some h) None None.
Proof.
  intros Heq.
  rewrite !(hash_path_defaults path _ (Some h) None).
  rewrite !(hash_path_entries _ _ _ _ _ _ (relative_to_self path)).
  rewrite !for_each_walk_bytes, !entries_single_file, !walk_bytes_single_file
    by reflexivity.
  destruct (encode_utf8 name1), (encode_utf8 name2); cbn [option_map] in Heq;
    try discriminate; cbn [fst snd pending]; [|reflexivity].
  injection Heq as Heq. now rewrite Heq.
Qed.

Lemma hash_path_no_separator_witness :
  option_map (fun encoded => encoded ++ bytes_of "c") (encode_utf8 "ab")
  = option_map (fun encoded => encoded ++ bytes_of "bc") (encode_utf8 "a") /\
  hash_path (abs_path ["repo"])
    (Directory st0 [("ab", plain_file "c")])
    (Some (hash_constructor (H := MD5.md5_object))) None None =
  hash_path (abs_path ["repo"])
    (Directory st0 [("a", plain_file "bc")])
    (Some (hash_constructor (H := MD5.md5_object))) None None.
Proof.
  split; [reflexivity|].
  exact (hash_path_no_separator (abs_path ["repo"]) st0 st0 st0 st0 "ab" "a"
           (bytes_of "c") (bytes_of "bc") hash_constructor eq_refl).
Defined.

(** ** The chunks of [read_in_chunks] *)

(** X4. With a positive chunk size and a file that can be read to its end,
    the chunk of index [i] is the slice of the content that starts at
    [i * chunksize] and is [chunksize] long (shorter at the end of the
    file), and there are as many chunks as it takes to cover the content
    and not one more. *)
Theorem read_in_chunks_slices (n : Z) (f : file_object) :
  0 < n -> fault f = None ->
  let k := Z.to_nat n in
  let chunks := fst (read_in_chunks f n) in
  (forall i c, nth_error chunks i = Some c ->
               c = firstn k (skipn (i * k) (pending f))) /\
  (List.length (pending f) <= List.length chunks * k)%nat /\
  (List.length chunks * k < List.length (pending f) + k)%nat.
Proof.
  intros Hn. cbv zeta. induction f as [f IH] using (reads_ind n). intros Hf.
  rewrite read_in_chunks_eq.
  pose proof (read_no_fault f n Hf Hn) as Hr. rewrite Hr in *.
  assert (Hk : (0 < Z.to_nat n)%nat) by lia.
  destruct (firstn (Z.to_nat n) (pending f)) as [|b chunk] eqn:Hc.
  - cbn [fst List.length]. destruct (pending f) as [|x l] eqn:Hp.
    + split; [intros [|i] c; discriminate | cbn; lia].
    + destruct (Z.to_nat n); [lia | discriminate].
  - destruct (IH b chunk _ eq_refl eq_refl) as (IH1 & IH2 & IH3).
    cbn [pending] in IH1, IH2, IH3. rewrite length_skipn in IH2, IH3.
    cbn [fst List.length]. split; [|split].
    + intros [|i] c Hi.
      * cbn in Hi. injection Hi as <-. cbn [Nat.mul]. now rewrite skipn_O, Hc.
      * cbn [nth_error] in Hi. rewrite (IH1 i c Hi), skipn_skipn.
        f_equal. f_equal. lia.
    + lia.
    + assert (Hpos : (0 < List.length (pending f))%nat).
      { destruct (pending f); [destruct (Z.to_nat n); discriminate | cbn; lia]. }
      destruct (Nat.le_gt_cases (Z.to_nat n) (List.length (pending f))) as [Hge|Hlt].
      * lia.
      * assert (Hz : (List.length (fst (read_in_chunks
                        {| pending := skipn (Z.to_nat n) (pending f); fault := None |} n))
                      = 0)%nat) by nia.
        rewrite Hz. lia.
Qed.

Lemma read_in_chunks_slices_witness :
  (0 < 4 /\ fault {| pending := bytes_of "0123456789"; fault := None |} = None) /\
  List.length (fst (read_in_chunks {| pending := bytes_of "0123456789"; fault := None |} 4))
  = 3%nat /\
  nth_error (fst (read_in_chunks {| pending := bytes_of "0123456789"; fault := None |} 4)) 2
  = Some (bytes_of "89").
Proof.
  split; [split; [lia | reflexivity]|].
  pose proof (read_in_chunks_slices 4 {| pending := bytes_of "0123456789"; fault := None |}
                ltac:(lia) eq_refl) as (Hslice & Hlow & Hhigh).
  cbn [pending] in Hlow, Hhigh. change (List.length (bytes_of "0123456789")) with 10%nat in *.
  change (Z.to_nat 4) with 4%nat in *.
  assert (Hlen : List.length (fst (read_in_chunks
              {| pending := bytes_of "0123456789"; fault := None |} 4)) = 3%nat) by lia.
  split; [exact Hlen|].
  destruct (nth_error (fst (read_in_chunks
              {| pending := bytes_of "0123456789"; fault := None |} 4)) 2) as [c|] eqn:Hc.
  - now rewrite (Hslice 2%nat c Hc).
  - apply nth_error_None in Hc. lia.
Defined.

(** X5. A chunk size that is not positive.  With a chunk size of zero the
    first read returns [b''], so nothing is yielded, whatever the file
    holds, and no error is met.  With a negative chunk size a read returns
    all that is left: the content comes as one chunk, and a file that
    cannot be read to its end yields nothing but its error. *)
Theorem read_in_chunks_not_positive (f : file_object) (n : Z) :
  read_in_chunks f 0 = ([], None) /\
  (n < 0 -> fault f = None ->
   read_in_chunks f n
   = (match pending f with [] => [] | _ :: _ => [pending f] end, None)) /\
  (n < 0 -> forall e, fault f = Some e -> read_in_chunks f n = ([], Some e)).
Proof.
  split; [|split].
  - rewrite read_in_chunks_eq. unfold read. cbn.
    destruct (fault f); reflexivity.
  - intros Hn Hf. rewrite read_in_chunks_eq. unfold read. rewrite Hf.
    assert (Hlt : (n <? 0) = true) by (apply Z.ltb_lt; lia). rewrite Hlt.
    rewrite firstn_all, skipn_all.
    destruct (pending f) as [|b l]; [reflexivity|].
    rewrite read_in_chunks_eq. unfold read. cbn [fault pending]. rewrite Hlt.
    reflexivity.
  - intros Hn e Hf. rewrite read_in_chunks_eq. unfold read. rewrite Hf.
    assert (Hlt : (n <? 0) = true) by (apply Z.ltb_lt; lia). rewrite Hlt.
    now rewrite orb_true_r.
Qed.

Lemma read_in_chunks_not_positive_witness :
  (-1 < 0 /\ fault {| pending := bytes_of "abcdefg"; fault := None |} = None) /\
  read_in_chunks {| pending := bytes_of "abcdefg"; fault := None |} (-1)
  = ([bytes_of "abcdefg"], None).
Proof.
  split; [split; [lia | reflexivity]|].
  exact (proj1 (proj2 (read_in_chunks_not_positive
                         {| pending := bytes_of "abcdefg"; fault := None |} (-1)))
           ltac:(lia) eq_refl).
Defined.

(** ** [namefilter_qcmodule] on the names of a walk *)

Lemma ends_with_suffix (suffix s : string) :
  ends_with suffix s = true <-> exists pre, s = (pre ++ suffix)%string.
Proof.
  split.
  - induction s as [|c s IH]; cbn [ends_with].
    + rewrite orb_false_r. intros E. apply String.eqb_eq in E. now exists "".
    + intros E. apply orb_true_iff in E as [E|E].
      * apply String.eqb_eq in E. now exists "".
      * destruct (IH E) as [pre ->]. now exists (String c pre).
  - intros [pre ->]. induction pre as [|c pre IH].
    + cbn [String.append]. destruct suffix; cbn [ends_with];
        now rewrite String.eqb_refl.
    + cbn [String.append ends_with]. rewrite IH. apply orb_true_r.
Qed.

Lemma append_assoc (a b c : string) : ((a ++ b) ++ c = a ++ b ++ c)%string.
Proof. induction a as [|x a IH]; cbn; [reflexivity | now rewrite IH]. Qed.

(** Two strings that are equal end with the same character. *)
Lemma append_last_char (a b : string) (x y : ascii) :
  (a ++ String x "" = b ++ String y "")%string -> x = y.
Proof.
  revert b. induction a as [|c a IH]; intros [|d b]; cbn [String.append].
  - now intros [= ->].
  - intros [= _ E]. destruct b; discriminate.
  - intros [= _ E]. destruct a; discriminate.
  - intros [= _ E]. now apply (IH b).
Qed.

Lemma no_log_suffix (s : string) (x : ascii) :
  x <> "g"%char -> ends_with ".log" (s ++ String x "") = false.
Proof.
  intros Hx. destruct (ends_with ".log" (s ++ String x "")) eqn:E; [|reflexivity].
  apply ends_with_suffix in E as [pre E].
  change ".log" with (".lo" ++ "g")%string in E. rewrite <- append_assoc in E.
  apply append_last_char in E. congruence.
Qed.

Lemma length_append (a b : string) :
  String.length (a ++ b) = (String.length a + String.length b)%nat.
Proof. induction a as [|c a IH]; cbn; [reflexivity | now rewrite IH]. Qed.

Lemma concat_snoc (sep : string) (ps : list string) (name : string) :
  ps <> [] ->
  String.concat sep (ps ++ [name]) = (String.concat sep ps ++ sep ++ name)%string.
Proof.
  induction ps as [|p ps IH]; [congruence|]. intros _.
  destruct ps as [|q ps].
  - reflexivity.
  - change (String.concat sep ((p :: q :: ps) ++ [name]))
      with (p ++ sep ++ String.concat sep ((q :: ps) ++ [name]))%string.
    rewrite IH by discriminate.
    change (String.concat sep (p :: q :: ps))
      with (p ++ sep ++ String.concat sep (q :: ps))%string.
    now rewrite !append_assoc.
Qed.

(** X6. [namefilter_qcmodule] in a walk.  It never prunes a directory, for
    the name of a directory ends with the separator; it prunes every entry
    that is not a directory and whose name ends with [.log], at any depth;
    and it prunes a file [rm_auto.qh] that lies directly under the root, but
    not one in a subdirectory, whose name relative to the root is longer:
    that one is hashed. *)
Theorem namefilter_qcmodule_in_walk (rel : list string) (node : fsnode) :
  (is_dir node = true -> namefilter_qcmodule (token rel node) = true) /\
  (forall name,
      is_dir node = false -> ends_with ".log" name = true ->
      namefilter_qcmodule (token (rel ++ [name]) node) = false) /\
  (is_dir node = false ->
   namefilter_qcmodule (token ["rm_auto.qh"] node) = false) /\
  (is_dir node = false -> rel <> [] ->
   namefilter_qcmodule (token (rel ++ ["rm_auto.qh"]) node) = true).
Proof.
  unfold token, as_posix. cbn [absolute parts]. split; [|split; [|split]].
  - intros ->. unfold namefilter_qcmodule.
    rewrite no_log_suffix by discriminate. cbn [negb andb].
    apply negb_true_iff. apply String.eqb_neq. intros E.
    change "rm_auto.qh" with ("rm_auto.q" ++ "h")%string in E.
    apply append_last_char in E. discriminate.
  - intros name -> Hlog. unfold namefilter_qcmodule.
    destruct (rel ++ [name]) as [|p ps] eqn:Hl; [now destruct rel|].
    rewrite <- Hl.
    assert (Hends : ends_with ".log" (String.concat "/" (rel ++ [name])) = true).
    { apply ends_with_suffix in Hlog as [pre ->]. apply ends_with_suffix.
      destruct rel as [|r rel'].
      - now exists pre.
      - rewrite concat_snoc by discriminate.
        exists (String.concat "/" (r :: rel') ++ "/" ++ pre)%string.
        now rewrite !append_assoc. }
    now rewrite Hends.
  - intros ->. reflexivity.
  - intros -> Hrel. unfold namefilter_qcmodule.
    destruct (rel ++ ["rm_auto.qh"]) as [|p ps] eqn:Hl; [now destruct rel|].
    rewrite <- Hl, concat_snoc by exact Hrel.
    change "rm_auto.qh" with ("rm_auto.q" ++ "h")%string at 1.
    rewrite <- !append_assoc, no_log_suffix by discriminate. cbn [negb andb].
    apply negb_true_iff. apply String.eqb_neq. intros E.
    apply (f_equal String.length) in E. rewrite !length_append in E.
    cbn in E. lia.
Qed.

Lemma namefilter_qcmodule_in_walk_witness :
  (is_dir (plain_file "auto") = false /\ ["sub"] <> ([] : list string)) /\
  namefilter_qcmodule (token (["sub"] ++ ["rm_auto.qh"]) (plain_file "auto")) = true /\
  namefilter_qcmodule (token ["rm_auto.qh"] (plain_file "auto")) = false.
Proof.
  split; [split; [reflexivity | discriminate]|].
  pose proof (namefilter_qcmodule_in_walk ["sub"] (plain_file "auto"))
    as (_ & _ & Htop & Hsub).
  split; [apply Hsub; [reflexivity | discriminate] | apply Htop; reflexivity].
Defined.


(** * More properties of the worker pool *)

(** What holds all along a run of any calls on a new pool. *)
Lemma any_run_invariant (pool : string) (n : Z) (calls : list call) (s : state) :
  reaches (initial (Worker_init pool n) calls) s ->
  invariant pool (List.length (threads (Worker_init pool n))) calls s.
Proof.
  revert s.
  apply (reaches_ind_steps
           (invariant pool (List.length (threads (Worker_init pool n))) calls)).
  - apply invariant_initial.
  - intros s1 s2 Hinv Hstep. eapply invariant_caller_step; eassumption.
  - intros i s1 s2 Hinv Hstep. eapply invariant_thread_step; eassumption.
Qed.

(** X7. The queue is first in, first out, whatever the calls and the
    interleaving: at any time the tasks that were handed to [add_task] are
    those taken so far by the workers, in the order in which they were
    taken, followed by those still in the queue; and a task that was taken
    has been invoked once or is about to be, never twice. *)
Theorem queue_is_fifo (pool : string) (n : Z) (calls : list call) (s : state) :
  reaches (initial (Worker_init pool n) calls) s ->
  pending_adds calls
  = dequeued (trace s) ++ items (queue (self s)) ++ pending_adds (todo s) /\
  Permutation (dequeued (trace s))
              (invoked (trace s) ++ in_flight (threads (self s))).
Proof.
  intros Hreach. pose proof (any_run_invariant pool n calls s Hreach) as Hinv.
  split; [apply (inv_fifo _ _ _ _ Hinv) | apply (inv_dequeued _ _ _ _ Hinv)].
Qed.

Lemma queue_is_fifo_witness :
  reaches (initial (Worker_init "qc" 2)
                   (enqueue_start_wait [failing_task 1; peaceful_task 2])) race_run /\
  pending_adds (enqueue_start_wait [failing_task 1; peaceful_task 2])
  = dequeued (trace race_run) ++ items (queue (self race_run))
    ++ pending_adds (todo race_run) /\
  dequeued (trace race_run) = [failing_task 1; peaceful_task 2].
Proof.
  split; [apply run_reaches|]. split; [|vm_compute; reflexivity].
  exact (proj1 (queue_is_fifo "qc" 2
                  (enqueue_start_wait [failing_task 1; peaceful_task 2])
                  race_run (run_reaches _ _))).
Defined.

(** X8. Tasks that come too late never run.  Once every worker thread has
    terminated, nothing that follows invokes a task, starts a thread or
    records an error: [add_task] still puts its task in the queue, where it
    stays. *)
Theorem late_tasks_never_run (s s' : state) :
  Forall (fun th => terminated th = true) (threads (self s)) ->
  reaches s s' ->
  trace s' = trace s /\
  threads (self s') = threads (self s) /\
  errors (self s') = errors (self s) /\
  exists added, items (queue (self s')) = items (queue (self s)) ++ added.
Proof.
  intros Hdead.
  apply (reaches_ind_steps
           (fun s' => trace s' = trace s /\
                      threads (self s') = threads (self s) /\
                      errors (self s') = errors (self s) /\
                      exists added,
                        items (queue (self s')) = items (queue (self s)) ++ added)).
  - repeat split. exists []. now rewrite app_nil_r.
  - intros s1 s2 (Htr & Hths & Herr & added & Hq) Hstep.
    destruct Hstep; cbn [self todo position trace threads errors queue put items];
      try (repeat split; eauto; fail).
    + repeat split; try assumption. exists (added ++ [t]).
      now rewrite Hq, app_assoc.
    + exfalso. rewrite Hths in *.
      match goal with H : threads (self s) = _ |- _ => rewrite H in Hdead end.
      rewrite Forall_app, Forall_cons in Hdead. destruct Hdead as (_ & Hth & _).
      unfold terminated in Hth.
      match goal with H : loc _ = Unstarted |- _ => rewrite H in Hth end.
      discriminate.
  - intros i s1 s2 (Htr & Hths & Herr & added & Hq) Hstep. exfalso.
    destruct Hstep as [pre th post l q lg errs evs Hsplit Hlen Heff].
    destruct (thread_effect_alive _ _ _ _ _ _ _ _ Heff) as (_ & Halive & _).
    rewrite Hths in Hsplit. rewrite Hsplit in Hdead.
    rewrite Forall_app, Forall_cons in Hdead. destruct Hdead as (_ & Hth & _).
    congruence.
Qed.

Lemma late_tasks_never_run_witness :
  (Forall (fun th => terminated th = true) (threads (self late_add)) /\
   reaches late_add late_add_run /\ returned late_add_run = true) /\
  trace late_add_run = trace late_add /\
  List.map task_id (items (queue (self late_add_run))) = [4%nat].
Proof.
  assert (Hdead : Forall (fun th => terminated th = true) (threads (self late_add))).
  { vm_compute. repeat constructor. }
  split.
  { split; [exact Hdead|]. split; [apply run_reaches|].
    vm_compute; reflexivity. }
  split; [|vm_compute; reflexivity].
  exact (proj1 (late_tasks_never_run late_add _ Hdead (run_reaches _ _))).
Defined.

Lemma killed_eq th : killed th = match loc th with Died _ => true | _ => false end.
Proof. reflexivity. Qed.

Lemma unstarted_not_killed (ths : list thread) :
  Forall (fun th => loc th = Unstarted) ths -> count killed ths = 0%nat.
Proof.
  induction 1 as [|th ths Hth _ IH]; [reflexivity|].
  rewrite count_cons, killed_eq, Hth, IH. reflexivity.
Qed.

Lemma busy_counted (th : thread) (ths : list thread) :
  th ∈ ths -> busy th = true -> (1 <= count busy ths)%nat.
Proof.
  intros Hin Hbusy. apply list_elem_of_In in Hin. unfold count.
  assert (Hf : In th (List.filter busy ths)) by (apply List.filter_In; auto).
  destruct (List.filter busy ths); [destruct Hf | cbn [List.length]; lia].
Qed.

(** The tasks that were put and are not yet marked as done are those in
    the queue, those that a thread has taken, and those that ended their
    thread. *)
Lemma accounting_thread_step (i : nat) (s s' : state) :
  unfinished_tasks (queue (self s))
  = (List.length (items (queue (self s))) + count busy (threads (self s))
     + count killed (threads (self s)))%nat ->
  thread_step i s s' ->
  unfinished_tasks (queue (self s'))
  = (List.length (items (queue (self s'))) + count busy (threads (self s'))
     + count killed (threads (self s')))%nat.
Proof.
  intros Hacc Hstep.
  destruct Hstep as [pre th post l q lg errs evs Hsplit Hlen Heff].
  rewrite Hsplit in Hacc. cbn [self queue threads].
  rewrite !count_app, !count_cons, ?busy_eq, ?killed_eq in *.
  cbn [loc set_loc].
  destruct Heff;
    repeat match goal with H : loc _ = _ |- _ => rewrite H in * end;
    repeat match goal with H : items _ = _ |- _ => rewrite H in * end;
    repeat match goal with H : unfinished_tasks _ = _ |- _ => rewrite H in * end;
    cbn [items unfinished_tasks List.length] in *; lia.
Qed.

Lemma accounting_caller_step (s s' : state) :
  unfinished_tasks (queue (self s))
  = (List.length (items (queue (self s))) + count busy (threads (self s))
     + count killed (threads (self s)))%nat ->
  caller_step s s' ->
  unfinished_tasks (queue (self s'))
  = (List.length (items (queue (self s'))) + count busy (threads (self s'))
     + count killed (threads (self s')))%nat.
Proof.
  intros Hacc Hstep.
  destruct Hstep; cbn [self queue threads put items unfinished_tasks];
    try exact Hacc.
  - rewrite length_app. cbn [List.length]. lia.
  - match goal with H : threads (self s) = _ |- _ => rewrite H in Hacc end.
    rewrite !count_app, !count_cons, ?busy_eq, ?killed_eq in *.
    cbn [loc set_loc].
    repeat match goal with H : loc _ = _ |- _ => rewrite H in * end. lia.
Qed.

(** X9. [task_done()] keeps the count right, whatever the calls and the
    interleaving: the tasks that were put and are not yet marked as done
    are those still in the queue, those that a worker has taken and not yet
    marked, and those whose exception ended their worker.  So a worker that
    comes to [task_done()] finds a count that is positive, and the
    [ValueError] of a [task_done()] called once too many is never raised;
    and no exception derived from [Exception] ever leaves a worker. *)
Theorem task_done_accounting (pool : string) (n : Z) (calls : list call) (s : state) :
  reaches (initial (Worker_init pool n) calls) s ->
  unfinished_tasks (queue (self s))
  = (List.length (items (queue (self s))) + count busy (threads (self s))
     + count killed (threads (self s)))%nat /\
  Forall (fun th => loc th = AtTaskDone ->
                    (1 <= unfinished_tasks (queue (self s)))%nat)
         (threads (self s)) /\
  Forall (fun th => forall e, loc th = Died e -> isinstance_Exception e = false)
         (threads (self s)).
Proof.
  intros Hreach.
  assert (Hacc : unfinished_tasks (queue (self s))
                 = (List.length (items (queue (self s)))
                    + count busy (threads (self s))
                    + count killed (threads (self s)))%nat).
  { revert s Hreach.
    apply (reaches_ind_steps
             (fun s => unfinished_tasks (queue (self s))
                       = (List.length (items (queue (self s)))
                          + count busy (threads (self s))
                          + count killed (threads (self s)))%nat)).
    - destruct (unstarted_idle _ (Worker_init_threads pool n)) as (_ & Hb & _ & _).
      cbn [initial self]. rewrite Hb.
      rewrite (unstarted_not_killed _ (Worker_init_threads pool n)). reflexivity.
    - intros s1 s2. apply accounting_caller_step.
    - intros i s1 s2. apply accounting_thread_step. }
  split; [exact Hacc|split].
  - apply Forall_forall. intros th Hin Hloc.
    assert (Hbusy : busy th = true) by (rewrite busy_eq, Hloc; reflexivity).
    pose proof (busy_counted _ _ Hin Hbusy). lia.
  - apply (inv_died _ _ _ _ (any_run_invariant pool n calls s Hreach)).
Qed.

Lemma task_done_accounting_witness :
  reaches (initial (Worker_init "qc" 1) (enqueue_start_wait [exiting_task 1])) exit_run /\
  unfinished_tasks (queue (self exit_run)) = 1%nat /\
  items (queue (self exit_run)) = [] /\
  count killed (threads (self exit_run)) = 1%nat.
Proof.
  split; [apply run_reaches|].
  pose proof (proj1 (task_done_accounting "qc" 1 (enqueue_start_wait [exiting_task 1])
                       exit_run (run_reaches _ _))) as Hacc.
  assert (Hi : items (queue (self exit_run)) = []) by (vm_compute; reflexivity).
  assert (Hb : count busy (threads (self exit_run)) = 0%nat) by (vm_compute; reflexivity).
  assert (Hk : count killed (threads (self exit_run)) = 1%nat) by (vm_compute; reflexivity).
  rewrite Hi, Hb, Hk in Hacc. cbn [List.length] in Hacc.
  split; [exact Hacc | split; [exact Hi | exact Hk]].
Defined.

Lemma reaches_in_reaches (s s' : state) (k : nat) : reaches_in s k s' -> reaches s s'.
Proof.
  induction 1 as [|k a s1 s2 _ IH Hstep]; [apply reaches_refl|].
  eapply reaches_step; eassumption.
Qed.

Lemma reaches_reaches_in (s s' : state) : reaches s s' -> exists k, reaches_in s k s'.
Proof.
  induction 1 as [|a s1 s2 _ [k IH] Hstep]; [exists 0%nat; constructor|].
  exists (S k). econstructor; eassumption.
Qed.

Lemma run_reaches_in (schedule : list actor) (s : state) :
  reaches_in s (steps_taken schedule s) (run schedule s).
Proof.
  enough (H : forall s0 k, reaches_in s0 k s ->
                           reaches_in s0 (k + steps_taken schedule s) (run schedule s)).
  { apply (H s 0%nat). constructor. }
  revert s. induction schedule as [|a rest IH]; intros s s0 k Hk; cbn [run steps_taken].
  - now rewrite Nat.add_0_r.
  - destruct (step a s) as [s'|] eqn:Hstep; [|now apply IH].
    rewrite <- Nat.add_succ_comm. apply IH. econstructor; eassumption.
Qed.

Lemma reaches_in_measure (s s' : state) (k : nat) :
  reaches_in s k s' -> (k + measure s' <= measure s)%nat.
Proof.
  induction 1 as [|k a s1 s2 _ IH Hstep]; [lia|].
  apply step_decreases in Hstep. lia.
Qed.

Lemma unstarted_weight (ths : list thread) :
  Forall (fun th => loc th = Unstarted) ths ->
  list_sum (List.map thread_weight ths) = (3 * List.length ths)%nat.
Proof.
  induction 1 as [|th ths Hth _ IH]; [reflexivity|].
  cbn [List.map List.length]. rewrite list_sum_cons, IH.
  unfold thread_weight. rewrite Hth. lia.
Qed.

Lemma measure_enqueue_start_wait (pool : string) (n : Z) (tasks : list task) :
  measure (initial (Worker_init pool n) (enqueue_start_wait tasks))
  = (6 * List.length tasks + 5 * List.length (threads (Worker_init pool n)) + 6)%nat.
Proof.
  unfold measure, caller_weight, initial, enqueue_start_wait.
  cbn [self todo position].
  rewrite (unstarted_weight _ (Worker_init_threads pool n)).
  replace (items (queue (Worker_init pool n))) with (@nil task) by reflexivity.
  cbn [List.length].
  rewrite List.map_app, list_sum_app. cbn [List.map call_weight list_sum].
  rewrite List.map_map.
  assert (Hadds : forall l : list task,
             list_sum (List.map (fun t => call_weight
                         (List.length (threads (Worker_init pool n))) (AddTask t)) l)
             = (6 * List.length l)%nat).
  { induction l as [|t l IH]; [reflexivity|].
    cbn [List.map List.length]. rewrite list_sum_cons, IH. cbn [call_weight]. lia. }
  rewrite Hadds, !list_sum_cons. change (list_sum []) with 0%nat. lia.
Qed.

(** X10. Nothing loops: with [T] tasks and [N] threads, a run of the
    [add_task] calls, [start()] and [wait()] takes at most [6 T + 5 N + 6]
    steps of the caller and of the workers together, whatever the
    interleaving and whatever the tasks raise; and as long as [wait()] has
    not returned some thread can take a step, so [wait()] returns within
    that many steps. *)
Theorem run_length_bound (pool : string) (n : Z) (tasks : list task)
        (k : nat) (s : state) :
  reaches_in (initial (Worker_init pool n) (enqueue_start_wait tasks)) k s ->
  (k <= 6 * List.length tasks + 5 * List.length (threads (Worker_init pool n)) + 6)%nat /\
  (returned s = false -> exists a s', step a s = Some s').
Proof.
  intros Hrun. split.
  - pose proof (reaches_in_measure _ _ _ Hrun) as Hm.
    rewrite measure_enqueue_start_wait in Hm. lia.
  - intros Hret. apply progress; [exact Hret|].
    apply reaches_in_reaches in Hrun.
    destruct (run_invariant pool n tasks s Hrun) as [_ Hphase].
    intros e. now apply phase_caller_alive.
Qed.

Lemma run_length_bound_witness :
  reaches_in (initial (Worker_init "qc" 2)
                      (enqueue_start_wait [failing_task 1; peaceful_task 2]))
             (steps_taken race_schedule
                (initial (Worker_init "qc" 2)
                         (enqueue_start_wait [failing_task 1; peaceful_task 2])))
             race_run /\
  (steps_taken race_schedule
     (initial (Worker_init "qc" 2)
              (enqueue_start_wait [failing_task 1; peaceful_task 2])) <= 28)%nat.
Proof.
  split; [apply run_reaches_in|].
  exact (proj1 (run_length_bound "qc" 2 [failing_task 1; peaceful_task 2] _ race_run
                  (run_reaches_in race_schedule _))).
Defined.

Lemma count_starts_cons (c : call) (calls : list call) :
  count_starts (c :: calls)
  = ((match c with Start => 1 | _ => 0 end) + count_starts calls)%nat.
Proof. destruct c; reflexivity. Qed.

Lemma discipline_thread_step i s s' : discipline s -> thread_step i s s' -> discipline s'.
Proof.
  intros Hd Hstep.
  destruct Hstep as [pre th post l q lg errs evs Hsplit Hlen Heff].
  destruct (thread_effect_alive _ _ _ _ _ _ _ _ Heff) as (Hstarted & Halive & Hl).
  destruct Hd as [Hpos Hst Hcount Hall|k Hpos Hst Hcount Hlow Hhigh|Hst Hcount Hpos Hall];
    rewrite Hsplit in *.
  - apply every_here in Hall. contradiction.
  - destruct (Nat.lt_ge_cases (List.length pre) k) as [Hlt|Hge].
    + apply (during_start _ k); cbn [self todo position threads started]; try assumption.
      * eapply every_moved; [exact Hlow|]. intros _. exact Hl.
      * eapply every_moved; [exact Hhigh|]. lia.
    + apply every_here in Hhigh. specialize (Hhigh Hge). contradiction.
  - apply after_start; cbn [self todo position threads started]; try assumption.
    eapply every_moved; [exact Hall | exact Hl].
Qed.

Lemma discipline_caller_step s s' : discipline s -> caller_step s s' -> discipline s'.
Proof.
  intros Hd Hstep.
  destruct Hd as [Hpos Hst Hcount Hall|k Hpos Hst Hcount Hlow Hhigh|Hst Hcount Hpos Hall].
  - destruct Hstep; try congruence;
      match goal with H : todo s = _ |- _ => rewrite H in Hcount end;
      rewrite count_starts_cons in Hcount.
    + now apply before_start.
    + apply (during_start _ 0%nat); cbn [self todo position]; try assumption;
        try reflexivity; [lia| |].
      * intros j th _ Hj. lia.
      * intros j th Hj _. now apply (Hall j).
    + now apply before_start.
  - destruct Hstep; try congruence;
      match goal with
      | H1 : position s = InStart _, H2 : position s = InStart _ |- _ =>
          rewrite H1 in H2; injection H2 as <-
      end.
    + match goal with H : threads (self s) = _ |- _ => rewrite H in * end. subst k.
      apply (during_start _ (S (List.length pre)));
        cbn [self todo position threads started]; try assumption; try reflexivity.
      * apply (every_moved_except _ pre post th); [|cbn; intros _; discriminate].
        intros j x Hj Hne Hlt. apply (Hlow j x Hj). lia.
      * apply (every_moved_except _ pre post th); [|lia].
        intros j x Hj Hne Hle. apply (Hhigh j x Hj). lia.
    + match goal with H : threads (self s) !! _ = Some _ |- _ =>
                        specialize (Hhigh _ _ H ltac:(lia)) end.
      contradiction.
    + apply after_start; cbn [self todo position threads started]; try assumption;
        try reflexivity; [now left|].
      intros j x Hj. apply (Hlow j x Hj).
      match goal with H : threads (self s) !! _ = None |- _ =>
                        apply lookup_ge_None in H end.
      apply lookup_lt_Some in Hj. lia.
  - destruct Hstep; try congruence;
      try (match goal with H : todo s = _ |- _ => rewrite H in Hcount end;
           rewrite count_starts_cons in Hcount);
      try discriminate.
    + apply after_start; cbn [self todo position threads started]; auto.
    + apply after_start; cbn [self todo position threads started]; eauto.
    + destruct Hpos as [Hpos|[k' Hpos]]; congruence.
    + destruct Hpos as [Hpos|[k' Hpos]]; congruence.
    + destruct Hpos as [Hpos|[k' Hpos]]; congruence.
    + match goal with H : threads (self s) !! _ = Some _ |- _ =>
                        specialize (Hall _ _ H) end.
      contradiction.
    + apply after_start; cbn [self todo position threads started]; eauto.
    + apply after_start; cbn [self todo position threads started]; auto.
Qed.

Lemma discipline_alive (s : state) (e : exception) :
  discipline s -> position s <> CallerDied e.
Proof.
  intros [Hpos _ _ _|k Hpos _ _ _ _|_ _ [Hpos|[k Hpos]] _]; congruence.
Qed.

(** X11. The calls may come in any order: as long as [start()] is called
    at most once, no call on the pool raises, whatever the tasks do and
    whatever the interleaving, and the run goes on until the last call has
    returned. *)
Theorem start_once_never_raises (pool : string) (n : Z) (calls : list call) (s : state) :
  (count_starts calls <= 1)%nat ->
  reaches (initial (Worker_init pool n) calls) s ->
  (forall e, position s <> CallerDied e) /\
  (returned s = false -> exists a s', step a s = Some s').
Proof.
  intros Hcount Hreach.
  assert (Hd : discipline s).
  { revert s Hreach. apply (reaches_ind_steps discipline).
    - apply before_start; cbn [initial self todo position]; try reflexivity;
        [exact Hcount|].
      apply every_Forall, Worker_init_threads.
    - intros s1 s2. apply discipline_caller_step.
    - intros i s1 s2. apply discipline_thread_step. }
  assert (Halive : forall e, position s <> CallerDied e)
    by (intros e; now apply discipline_alive).
  split; [exact Halive|].
  intros Hret. now apply progress.
Qed.

Lemma start_marks_thread_step i s s' : start_marks s -> thread_step i s s' -> start_marks s'.
Proof.
  intros Hm Hstep.
  destruct Hstep as [pre th post l q lg errs evs Hsplit Hlen Heff].
  destruct (thread_effect_alive _ _ _ _ _ _ _ _ Heff) as (Hstarted & Halive & Hl).
  destruct Hm as [Hpos Hst Hall|k Hpos Hst Hlow Hhigh|Hst Hall Hdied];
    rewrite Hsplit in *.
  - apply every_here in Hall. contradiction.
  - destruct (Nat.lt_ge_cases (List.length pre) k) as [Hlt|Hge].
    + apply (marks_first_start _ k); cbn [self todo position threads started];
        try assumption.
      * eapply every_moved; [exact Hlow|]. intros _. exact Hl.
      * eapply every_moved; [exact Hhigh|]. lia.
    + apply every_here in Hhigh. specialize (Hhigh Hge). contradiction.
  - apply marks_started; cbn [self todo position threads started]; try assumption.
    eapply every_moved; [exact Hall | exact Hl].
Qed.

Lemma start_marks_caller_step s s' : start_marks s -> caller_step s s' -> start_marks s'.
Proof.
  intros Hm Hstep.
  destruct Hm as [Hpos Hst Hall|k Hpos Hst Hlow Hhigh|Hst Hall Hdied].
  - destruct Hstep; try congruence.
    + now apply marks_idle.
    + apply (marks_first_start _ 0%nat); cbn [self todo position]; try assumption;
        try reflexivity.
      * intros j th _ Hj. lia.
      * intros j th Hj _. now apply (Hall j).
    + now apply marks_idle.
  - destruct Hstep; try congruence;
      match goal with
      | H1 : position s = InStart _, H2 : position s = InStart _ |- _ =>
          rewrite H1 in H2; injection H2 as <-
      end.
    + match goal with H : threads (self s) = _ |- _ => rewrite H in * end. subst k.
      apply (marks_first_start _ (S (List.length pre)));
        cbn [self todo position threads started]; try assumption; try reflexivity.
      * apply (every_moved_except _ pre post th); [|cbn; intros _; discriminate].
        intros j x Hj Hne Hlt. apply (Hlow j x Hj). lia.
      * apply (every_moved_except _ pre post th); [|lia].
        intros j x Hj Hne Hle. apply (Hhigh j x Hj). lia.
    + match goal with H : threads (self s) !! _ = Some _ |- _ =>
                        specialize (Hhigh _ _ H ltac:(lia)) end.
      contradiction.
    + apply marks_started; cbn [self todo position threads started]; try reflexivity.
      * intros j x Hj. apply (Hlow j x Hj).
        match goal with H : threads (self s) !! _ = None |- _ =>
                          apply lookup_ge_None in H end.
        apply lookup_lt_Some in Hj. lia.
      * intros e [=].
  - destruct Hstep; try congruence;
      try (apply marks_started; cbn [self todo position threads started];
           try assumption; try reflexivity; intros e' [=]; congruence).
    + match goal with H : threads (self s) = _ |- _ => rewrite H in Hall end.
      apply every_here in Hall. contradiction.
Qed.

Lemma any_run_start_marks (pool : string) (n : Z) (calls : list call) (s : state) :
  reaches (initial (Worker_init pool n) calls) s -> start_marks s.
Proof.
  revert s. apply (reaches_ind_steps start_marks).
  - apply marks_idle; cbn [initial self todo position]; try reflexivity.
    apply every_Forall, Worker_init_threads.
  - intros s1 s2. apply start_marks_caller_step.
  - intros i s1 s2. apply start_marks_thread_step.
Qed.

(** X12. The only call on the pool that can raise is a [start()] that
    comes after a [start()] that has returned: it raises the
    [RuntimeError] of the first thread at once, having started nothing.
    [wait()] never raises, since it joins threads only when [started] is
    set, and then every thread has been started; and a first [start()]
    finds every thread new. *)
Theorem only_second_start_raises (pool : string) (n : Z) (calls : list call) (s : state) :
  reaches (initial (Worker_init pool n) calls) s ->
  (forall e, position s = CallerDied e -> e = RuntimeError /\ started (self s) = true) /\
  (forall k, position s = InWait k ->
             started (self s) = true /\
             forall s' e, step Caller s = Some s' -> position s' <> CallerDied e) /\
  (forall k, position s = InStart k -> started (self s) = false ->
             forall s' e, step Caller s = Some s' -> position s' <> CallerDied e) /\
  (position s = InStart 0 -> started (self s) = true ->
   exists s', step Caller s = Some s' /\ position s' = CallerDied RuntimeError /\
              threads (self s') = threads (self s) /\
              queue (self s') = queue (self s) /\
              started (self s') = true).
Proof.
  intros Hreach.
  pose proof (any_run_start_marks pool n calls s Hreach) as Hm.
  pose proof (inv_threads _ _ _ _ (any_run_invariant pool n calls s Hreach)) as Hlen.
  pose proof (Worker_init_nonempty pool n) as Hne.
  split; [|split; [|split]].
  - intros e Hpos.
    destruct Hm as [Hpos' _ _|k Hpos' _ _ _|Hst _ Hdied]; try congruence.
    split; [now apply Hdied | exact Hst].
  - intros k Hpos.
    destruct Hm as [Hpos' _ _|k' Hpos' _ _ _|Hst Hall _]; try congruence.
    split; [exact Hst|].
    intros s' e Hstep. cbn [step] in Hstep. unfold step_caller in Hstep.
    rewrite Hpos in Hstep. unfold wait in Hstep.
    destruct (threads (self s) !! k) as [th|] eqn:Hk.
    + specialize (Hall _ _ Hk). cbn beta in Hall.
      destruct (loc th); try discriminate; try contradiction;
        injection Hstep as <-; discriminate.
    + injection Hstep as <-. discriminate.
  - intros k Hpos Hst.
    destruct Hm as [Hpos' _ _|k' Hpos' _ _ Hhigh|Hst' _ _]; try congruence.
    rewrite Hpos in Hpos'. injection Hpos' as <-.
    intros s' e Hstep. cbn [step] in Hstep. unfold step_caller in Hstep.
    rewrite Hpos in Hstep. injection Hstep as <-. unfold start.
    destruct (threads (self s) !! k) as [th|] eqn:Hk; [|discriminate].
    rewrite (Hhigh _ _ Hk (Nat.le_refl k)). discriminate.
  - intros Hpos Hst.
    destruct Hm as [_ Hst' _|k' _ Hst' _ _|_ Hall _]; try congruence.
    destruct (threads (self s) !! 0%nat) as [th|] eqn:H0.
    + specialize (Hall _ _ H0). cbn beta in Hall.
      exists (start 0 s). cbn [step]. unfold step_caller. rewrite Hpos.
      split; [reflexivity|]. unfold start. rewrite H0.
      destruct (loc th); try contradiction; cbn [position self threads queue started];
        auto.
    + apply lookup_ge_None in H0. lia.
Qed.

Lemma start_once_never_raises_witness :
  (count_starts any_order <= 1)%nat /\
  reaches (initial (Worker_init "qc" 2) any_order) any_order_run /\
  returned any_order_run = true /\
  forall e, position any_order_run <> CallerDied e.
Proof.
  split; [exact (le_n 1)|]. split; [apply run_reaches|].
  split; [vm_compute; reflexivity|].
  exact (proj1 (start_once_never_raises "qc" 2 any_order any_order_run
                  (le_n 1) (run_reaches _ _))).
Defined.

Lemma only_second_start_raises_witness :
  reaches (initial (Worker_init "qc" 1) [AddTask (peaceful_task 1); Start; Start; Wait])
          start_twice /\
  position start_twice = InStart 0 /\ started (self start_twice) = true /\
  exists s', step Caller start_twice = Some s' /\ position s' = CallerDied RuntimeError /\
             threads (self s') = threads (self start_twice) /\
             queue (self s') = queue (self start_twice) /\
             started (self s') = true.
Proof.
  split; [apply run_reaches|].
  assert (Hpos : position start_twice = InStart 0) by (vm_compute; reflexivity).
  assert (Hst : started (self start_twice) = true) by (vm_compute; reflexivity).
  split; [exact Hpos|]. split; [exact Hst|].
  exact (proj2 (proj2 (proj2
           (only_second_start_raises "qc" 1 [AddTask (peaceful_task 1); Start; Start; Wait]
              start_twice (run_reaches _ _)))) Hpos Hst).
Defined.

Lemma until_raise_peaceful (l rest : list task) :
  Forall peaceful l -> until_raise (l ++ rest) = l ++ until_raise rest.
Proof.
  induction 1 as [|t l Ht _ IH]; [reflexivity|].
  cbn [app until_raise]. rewrite Ht, IH. reflexivity.
Qed.

Lemma first_error_peaceful (l rest : list task) :
  Forall peaceful l -> first_error (l ++ rest) = first_error rest.
Proof.
  induction 1 as [|t l Ht _ IH]; [reflexivity|].
  cbn [app first_error]. rewrite Ht, IH. reflexivity.
Qed.

Lemma single_thread (pre post : list thread) (th th0 : thread) :
  pre ++ th :: post = [th0] -> pre = [] /\ post = [] /\ th = th0.
Proof.
  destruct pre as [|x pre]; cbn.
  - intros [= -> <-]. auto.
  - intros [= _ H]. destruct pre; discriminate.
Qed.

Lemma in_order_thread_step pool n calls i s s' :
  invariant pool n calls s -> in_order s -> thread_step i s s' -> in_order s'.
Proof.
  intros Hinv (th0 & Hths & Hdeq & Hcourse) Hstep.
  pose proof (inv_unfinished _ _ _ _ Hinv) as Hunf.
  destruct Hstep as [pre th post l q lg errs evs Hsplit Hlen Heff].
  rewrite Hths in Hsplit. symmetry in Hsplit.
  apply single_thread in Hsplit as (-> & -> & <-).
  rewrite Hths in Hunf. rewrite count_cons, busy_eq in Hunf.
  exists (set_loc l th). cbn [self threads trace app].
  split; [reflexivity|].
  rewrite invoked_app, dequeued_app, holding_eq in *. cbn [loc set_loc].
  destruct Hcourse as [Herrs Hpeace Hloc|ps t' e' Hinvk Hpeace Hraises Hloc].
  all: destruct Heff;
    match goal with H : loc _ = _ |- _ => rewrite H in Hloc, Hdeq, Hunf end;
    cbn [invoked dequeued flat_map app] in *; rewrite ?app_nil_r.
  all: try contradiction.
  all: split; [now rewrite ?Hdeq, ?app_nil_r, <- ?app_assoc|].
  all: try contradiction.
  all: try (destruct Hloc as (? & ? & ?)); try (destruct Hloc as (? & ?)).
  all: try congruence.
  all: try (destruct Hloc as (? & ? & ?)); try (destruct Hloc as (? & ?)).
  all: try congruence.
  all: try (cbn [List.length] in Hunf; lia).
  all: try (apply course_clean;
            cbn [self trace errors queue items loc set_loc];
            rewrite ?invoked_app; cbn [invoked flat_map app];
            rewrite ?app_nil_r; now auto).
  all: try (apply (course_tripped _ _ ps t' e');
            cbn [self trace errors queue items loc set_loc];
            rewrite ?invoked_app; cbn [invoked flat_map app];
            rewrite ?app_nil_r; now auto).
  - apply course_clean; cbn [self trace errors queue items loc set_loc];
      [assumption| |exact I].
    rewrite invoked_app. apply Forall_app. split; [exact Hpeace|].
    cbn [invoked flat_map app]. repeat constructor. assumption.
  - apply (course_tripped _ _ (invoked (trace s)) t e);
      cbn [self trace errors queue items loc set_loc]; auto.
    now rewrite invoked_app.
  - apply (course_tripped _ _ (invoked (trace s)) t e);
      cbn [self trace errors queue items loc set_loc]; auto.
    now rewrite invoked_app.
  - apply (course_tripped _ _ ps t' e');
      cbn [self trace errors queue items loc set_loc]; auto.
    + rewrite invoked_app. cbn [invoked flat_map app]. now rewrite app_nil_r.
    + subst. split; [assumption|].
      match goal with H : errors (self s) = [] |- _ => now rewrite H end.
Qed.

Lemma in_order_caller_step s s' :
  phase s -> in_order s -> caller_step s s' -> in_order s'.
Proof.
  intros Hph (th0 & Hths & Hdeq & Hcourse) Hstep.
  destruct Hstep; cbn [self threads trace];
    try (exists th0; split; [assumption|]; split; [assumption|];
         destruct Hcourse as [Herrs Hpeace Hloc|ps t' e' Hinvk Hpeace Hraises Hloc];
         [now apply course_clean | now apply (course_tripped _ _ ps t' e')]).
  - (* add_task: the thread is not started yet *)
    exists th0. split; [assumption|]. split; [assumption|].
    assert (Hun : loc th0 = Unstarted).
    { destruct Hph as [rest' Hpos Htodo Hst Hall|k Hpos Htodo Hst Hlow Hhigh
                      |Hpos Htodo Hst Hall|k Hpos Htodo Hall Hlow|Hpos Htodo Hall];
        try congruence.
      apply (Hall 0%nat). now rewrite Hths. }
    destruct Hcourse as [Herrs Hpeace Hloc|ps t' e' Hinvk Hpeace Hraises Hloc];
      rewrite Hun in Hloc; cbn beta iota in Hloc; [|contradiction].
    apply course_clean; cbn [self trace errors queue]; try assumption.
    now rewrite Hun.
  - (* thread.start() *)
    match goal with H : threads (self s) = _ |- _ => rewrite Hths in H; symmetry in H;
      apply single_thread in H as (-> & -> & <-) end.
    exists (set_loc AtErrorsCheck th). split; [reflexivity|].
    rewrite holding_eq in *. cbn [loc set_loc].
    assert (Hun : loc th = Unstarted) by assumption.
    rewrite Hun in Hdeq. split; [assumption|].
    destruct Hcourse as [Herrs Hpeace Hloc|ps t' e' Hinvk Hpeace Hraises Hloc];
      rewrite Hun in Hloc; cbn beta iota in Hloc; [|contradiction].
    now apply course_clean.
Qed.

(** X13. With one worker thread, which is the default, the tasks are
    invoked one after the other in the order of the [add_task] calls, up to
    the first one that raises and no further: at any time the tasks invoked
    so far are the first ones of that list, and when [wait()] has returned
    they are all of it, the errors being the exception of that task when it
    derives from [Exception], and none otherwise. *)
Theorem single_worker_in_order (pool : string) (n : Z) (tasks : list task) (s : state) :
  n <= 1 ->
  reaches (initial (Worker_init pool n) (enqueue_start_wait tasks)) s ->
  (exists rest, until_raise tasks = invoked (trace s) ++ rest) /\
  (returned s = true ->
   invoked (trace s) = until_raise tasks /\ errors (self s) = first_error tasks).
Proof.
  intros Hn Hreach.
  destruct (run_invariant pool n tasks s Hreach) as [Hinv Hph].
  assert (Hio : in_order s).
  { enough (in_order s /\
            invariant pool (List.length (threads (Worker_init pool n)))
                      (enqueue_start_wait tasks) s /\ phase s) by tauto.
    clear Hinv Hph. revert s Hreach.
    apply (reaches_ind_steps
             (fun s => in_order s /\
                       invariant pool (List.length (threads (Worker_init pool n)))
                                 (enqueue_start_wait tasks) s /\ phase s)).
    - split; [|apply run_invariant, reaches_refl].
      exists (daemon pool false). cbn [initial self trace]. split.
      + unfold Worker_init. cbn [threads].
        destruct (1 <? n) eqn:E; [apply Z.ltb_lt in E; lia | reflexivity].
      + split; [reflexivity|]. now apply course_clean.
    - intros s1 s2 (Hio & Hinv & Hph) Hstep. split; [|split].
      + eapply in_order_caller_step; eassumption.
      + eapply invariant_caller_step; eassumption.
      + eapply phase_caller_step; eassumption.
    - intros i s1 s2 (Hio & Hinv & Hph) Hstep. split; [|split].
      + eapply in_order_thread_step; eassumption.
      + eapply invariant_thread_step; eassumption.
      + eapply phase_thread_step; eassumption. }
  destruct Hio as (th & Hths & Hdeq & Hcourse).
  pose proof (inv_fifo _ _ _ _ Hinv) as Hfifo.
  rewrite pending_adds_program, Hdeq in Hfifo.
  split.
  - destruct Hcourse as [Herrs Hpeace Hloc|ps t e Hinvk Hpeace Hraises Hloc].
    + rewrite Hfifo, <- app_assoc, until_raise_peaceful by assumption. eauto.
    + exists []. rewrite app_nil_r, Hfifo, Hinvk, <- !app_assoc.
      rewrite until_raise_peaceful by assumption.
      cbn [app until_raise]. now rewrite Hraises.
  - intros Hret.
    pose proof (returned_joined s Hph Hret) as Hall.
    rewrite Hths in Hall. apply Forall_cons in Hall as [Hterm _].
    assert (Htodo : todo s = []).
    { unfold returned in Hret. destruct (todo s); [reflexivity|discriminate]. }
    rewrite Htodo in Hfifo. cbn [pending_adds flat_map] in Hfifo.
    rewrite holding_eq in Hfifo. unfold terminated in Hterm.
    destruct Hcourse as [Herrs Hpeace Hloc|ps t e Hinvk Hpeace Hraises Hloc];
      destruct (loc th); try discriminate; try contradiction.
    + rewrite Hloc, !app_nil_r in Hfifo. rewrite Hfifo.
      pose proof (until_raise_peaceful _ [] Hpeace) as Hu.
      pose proof (first_error_peaceful _ [] Hpeace) as Hf.
      cbn [until_raise first_error] in Hu, Hf.
      rewrite !app_nil_r in Hu. rewrite app_nil_r in Hf.
      rewrite Hu, Hf. auto.
    + destruct Hloc as (Hinst & Herrs).
      rewrite Hfifo, Hinvk, <- !app_assoc.
      rewrite until_raise_peaceful, first_error_peaceful by assumption.
      cbn [app until_raise first_error]. now rewrite Hraises, Hinst.
    + destruct Hloc as (-> & Hinst & Herrs).
      rewrite Hfifo, Hinvk, <- !app_assoc.
      rewrite until_raise_peaceful, first_error_peaceful by assumption.
      cbn [app until_raise first_error]. now rewrite Hraises, Hinst.
Qed.

Lemma single_worker_in_order_witness :
  1 <= 1 /\
  reaches (initial (Worker_init "qc" 1)
                   (enqueue_start_wait [peaceful_task 1; failing_task 2; peaceful_task 3]))
          one_worker_run /\
  returned one_worker_run = true /\
  invoked (trace one_worker_run) = [peaceful_task 1; failing_task 2] /\
  errors (self one_worker_run) = [TaskError 2].
Proof.
  split; [exact (Z.le_refl 1)|]. split; [apply run_reaches|].
  assert (Hret : returned one_worker_run = true) by (vm_compute; reflexivity).
  split; [exact Hret|].
  exact (proj2 (single_worker_in_order "qc" 1
                  [peaceful_task 1; failing_task 2; peaceful_task 3] one_worker_run
                  (Z.le_refl 1) (run_reaches _ _)) Hret).
Defined.

(** * Properties of the context managers *)

Section in_dir_properties.
Context {W : Type} `{OS W}.

Lemma with_in_dir_entered (p : Path) (body : W -> outcome W) (w w' : W) (old : Path) :
  getcwd w = inr old -> chdir p w = inr w' ->
  with_ (in_dir p) body w =
  match body w' with
  | Return w2 =>
      match chdir old w2 with
      | inl e => Raise (OSError e) w2
      | inr w3 => Return w3
      end
  | Raise e w2 => Raise e w2
  end.
Proof.
  intros Hcwd Hch. unfold with_, in_dir. cbn [gen_start gen_next gen_throw].
  rewrite Hcwd, Hch. destruct (body w') as [w2|e w2]; [|reflexivity].
  destruct (chdir old w2); reflexivity.
Qed.

Lemma nested_in_dir_raise (paths : list Path) (body : W -> outcome W)
    (w w1 w2 : W) (e : exception) :
  enter paths w = inr w1 -> body w1 = Raise e w2 ->
  nested_in_dir paths body w = Raise e w2.
Proof.
  revert w. induction paths as [|p rest IH]; intros w Henter Hbody.
  - cbn in Henter. injection Henter as ->. exact Hbody.
  - cbn [enter] in Henter. cbn [nested_in_dir].
    destruct (getcwd w) as [err|old] eqn:Hcwd; [discriminate|].
    destruct (chdir p w) as [err|w'] eqn:Hch; [discriminate|].
    rewrite (with_in_dir_entered p _ w w' old Hcwd Hch).
    now rewrite (IH w' Henter Hbody).
Qed.

Lemma nested_in_dir_not_entered (paths : list Path) (body : W -> outcome W)
    (w wk : W) (err : errno) :
  enter paths w = inl (err, wk) ->
  nested_in_dir paths body w = Raise (OSError err) wk.
Proof.
  revert w. induction paths as [|p rest IH]; intros w Henter; [discriminate|].
  cbn [enter] in Henter. cbn [nested_in_dir].
  destruct (getcwd w) as [err'|old] eqn:Hcwd.
  - injection Henter as <- <-. unfold with_, in_dir. cbn [gen_start].
    now rewrite Hcwd.
  - destruct (chdir p w) as [err'|w'] eqn:Hch.
    + injection Henter as <- <-. unfold with_, in_dir. cbn [gen_start].
      now rewrite Hcwd, Hch.
    + rewrite (with_in_dir_entered p _ w w' old Hcwd Hch).
      now rewrite (IH w' Henter).
Qed.

(** X14. [in_dir] restores the working directory when its body returns,
    and only then.  When the statement returns, nested to any depth, the
    working directory is the one in which it started.  When the body raises,
    the exception comes out with the world as the body left it: no
    [os.chdir] back is made at any level, for there is no [try] around the
    [yield].  And when one of the directories cannot be entered the body
    does not run, and the process stays in the last directory that was
    entered. *)
Theorem in_dir_restores_only_on_return (paths : list Path) (body : W -> outcome W)
    (w : W) :
  (forall old w', paths <> [] -> getcwd w = inr old ->
                  nested_in_dir paths body w = Return w' -> getcwd w' = inr old) /\
  (forall w1 e w2, enter paths w = inr w1 -> body w1 = Raise e w2 ->
                   nested_in_dir paths body w = Raise e w2) /\
  (forall err wk, enter paths w = inl (err, wk) ->
                  nested_in_dir paths body w = Raise (OSError err) wk).
Proof.
  split; [|split].
  - intros old w' Hne Hcwd. destruct paths as [|p rest]; [contradiction|].
    cbn [nested_in_dir]. unfold with_, in_dir. cbn [gen_start gen_next gen_throw].
    rewrite Hcwd. destruct (chdir p w) as [err|w1]; [discriminate|].
    destruct (nested_in_dir rest body w1) as [w2|e w2]; [|discriminate].
    destruct (chdir old w2) as [err|w3] eqn:Hback; [discriminate|].
    intros [= <-]. exact (chdir_back w old w2 w3 Hcwd Hback).
  - intros w1 e w2. apply nested_in_dir_raise.
  - intros err wk. apply nested_in_dir_not_entered.
Qed.
End in_dir_properties.

Lemma in_dir_restores_only_on_return_witness :
  enter [{| absolute := false; parts := ["qcsrc"] |}] build_tree
  = inr {| here := ["src"; "qcsrc"]; dirs := dirs build_tree; journal := [] |} /\
  nested_in_dir [{| absolute := false; parts := ["qcsrc"] |}] failing_body build_tree
  = Raise (TaskError 1)
          {| here := ["src"; "qcsrc"]; dirs := dirs build_tree; journal := [] |}.
Proof.
  split; [reflexivity|].
  exact (proj1 (proj2 (in_dir_restores_only_on_return
                         [{| absolute := false; parts := ["qcsrc"] |}]
                         failing_body build_tree))
               _ (TaskError 1) _ eq_refl eq_refl).
Defined.

Section suppress_logged_properties.
Context {W : Type}.
Variable log : string -> exception -> W -> W.

(** X15. What [suppress_logged] suppresses.  It raises nothing of its own:
    an exception that comes out is the one of the body, with the world as
    the body left it and nothing logged.  An exception that it suppresses
    is logged once.  Without classes it suppresses what derives from
    [Exception], so [SystemExit] and [KeyboardInterrupt] pass; with
    classes it suppresses the instances of these classes and nothing else,
    so naming a class lets through exceptions that the default would
    suppress. *)
Theorem suppress_logged_classes (ex : list exception_class) (body : W -> outcome W)
    (w : W) :
  (forall w', body w = Return w' -> with_ (suppress_logged log ex) body w = Return w') /\
  (forall e w', with_ (suppress_logged log ex) body w = Raise e w' ->
                body w = Raise e w' /\
                (ex = [] -> isinstance_Exception e = false) /\
                Forall (fun c => isinstance e c = false) ex) /\
  (forall e w', body w = Raise e w' ->
                (ex = [] /\ isinstance_Exception e = true \/
                 Exists (fun c => isinstance e c = true) ex) ->
                with_ (suppress_logged log ex) body w
                = Return (log "Suppressed exception" e w')) /\
  (forall e w', body w = Raise e w' -> ex <> [] ->
                Forall (fun c => isinstance e c = false) ex ->
                with_ (suppress_logged log ex) body w = Raise e w').
Proof.
  unfold with_, suppress_logged. cbn [gen_start gen_next gen_throw].
  split; [|split; [|split]].
  - intros w' ->. reflexivity.
  - intros e w'. destruct (body w) as [w2|e2 w2]; [discriminate|].
    destruct (existsb _ _) eqn:Hex; [discriminate|].
    intros [= -> ->]. split; [reflexivity|].
    destruct ex as [|c cs].
    + cbn in Hex. rewrite orb_false_r in Hex. split; [auto|constructor].
    + split; [discriminate|].
      apply Forall_forall. intros c' Hin. apply list_elem_of_In in Hin.
      destruct (isinstance e c') eqn:Hc; [|reflexivity].
      assert (existsb (isinstance e) (c :: cs) = true)
        by (apply existsb_exists; eauto).
      congruence.
  - intros e w' -> Hmatch.
    assert (Hex : existsb (isinstance e)
                    (match ex with [] => [Exception_class] | _ :: _ => ex end) = true).
    { destruct Hmatch as [[-> Hinst]|Hex].
      - cbn. now rewrite Hinst.
      - apply Exists_exists in Hex as (c & Hin & Hc).
        apply list_elem_of_In in Hin.
        destruct ex as [|c0 cs]; [destruct Hin|].
        apply existsb_exists. eauto. }
    now rewrite Hex.
  - intros e w' -> Hne Hall.
    destruct ex as [|c cs]; [contradiction|].
    assert (Hex : existsb (isinstance e) (c :: cs) = false).
    { destruct (existsb _ _) eqn:Hex; [|reflexivity].
      apply existsb_exists in Hex as (c' & Hin & Hc).
      rewrite Forall_forall in Hall. apply list_elem_of_In in Hin.
      rewrite (Hall c' Hin) in Hc. discriminate. }
    now rewrite Hex.
Qed.

(** X16. An error that [suppress_logged] swallows around [in_dir] changes
    the working directory for good: when the body of
    [with suppress_logged(log): with in_dir(path): ...] raises an exception
    that derives from [Exception], the statement completes without an
    exception, the error is logged, and the process is left in the
    directory in which the body ended. *)
Theorem suppressed_error_keeps_directory `{OS W} (path : Path) (body : W -> outcome W)
    (w w1 w2 : W) (old : Path) (e : exception) :
  (forall m x v, getcwd (log m x v) = getcwd v) ->
  getcwd w = inr old -> chdir path w = inr w1 ->
  body w1 = Raise e w2 -> isinstance_Exception e = true ->
  with_ (suppress_logged log []) (with_ (in_dir path) body) w
  = Return (log "Suppressed exception" e w2) /\
  getcwd (log "Suppressed exception" e w2) = getcwd w2.
Proof.
  intros Hlog Hcwd Hch Hbody Hinst. split; [|apply Hlog].
  unfold with_ at 1. unfold suppress_logged. cbn [gen_start gen_next gen_throw].
  rewrite (with_in_dir_entered path body w w1 old Hcwd Hch), Hbody.
  cbn [existsb isinstance]. now rewrite Hinst.
Qed.
End suppress_logged_properties.

Lemma suppress_logged_classes_witness :
  with_ (suppress_logged small_log [ValueError_class]) failing_body build_tree
  = Raise (TaskError 1) build_tree /\
  with_ (suppress_logged small_log []) failing_body build_tree
  = Return (small_log "Suppressed exception" (TaskError 1) build_tree).
Proof.
  split.
  - exact (proj2 (proj2 (proj2 (suppress_logged_classes small_log [ValueError_class]
                                  failing_body build_tree)))
                 (TaskError 1) build_tree eq_refl ltac:(discriminate)
                 ltac:(repeat constructor)).
  - exact (proj1 (proj2 (proj2 (suppress_logged_classes small_log []
                                  failing_body build_tree)))
                 (TaskError 1) build_tree eq_refl (or_introl (conj eq_refl eq_refl))).
Defined.

Lemma suppressed_error_keeps_directory_witness :
  with_ (suppress_logged small_log [])
        (with_ (in_dir {| absolute := false; parts := ["qcsrc"] |}) failing_body)
        build_tree
  = Return {| here := ["src"; "qcsrc"]; dirs := dirs build_tree;
              journal := [("Suppressed exception", TaskError 1)] |} /\
  here build_tree = ["src"].
Proof.
  split; [|reflexivity].
  exact (proj1 (suppressed_error_keeps_directory small_log
                  {| absolute := false; parts := ["qcsrc"] |} failing_body
                  build_tree _ _ {| absolute := true; parts := ["src"] |} (TaskError 1)
                  (fun _ _ _ => eq_refl) eq_refl eq_refl eq_refl eq_refl)).
Defined.

(** * Properties of [logged_subprocess] *)

Section logged_subprocess_properties.
Context {char : Type}.
Variable isspace : char -> bool.
Variable is_newline : char -> bool.
Hypothesis newline_isspace : forall c, is_newline c = true -> isspace c = true.


Lemma lstrip_split (s : list char) :
  exists pre, s = pre ++ lstrip isspace s /\ ink isspace pre = [].
Proof.
  induction s as [|c s (pre & Hs & Hpre)]; [exists []; auto|].
  cbn [lstrip]. destruct (isspace c) eqn:Hc.
  - exists (c :: pre). split; [cbn; now f_equal|].
    unfold ink in *. cbn [List.filter]. now rewrite Hc.
  - exists []. auto.
Qed.

Lemma lstrip_head (s : list char) (c : char) (rest : list char) :
  lstrip isspace s = c :: rest -> isspace c = false.
Proof.
  induction s as [|x s IH]; [discriminate|].
  cbn [lstrip]. destruct (isspace x) eqn:Hx; [exact IH|].
  now intros [= <- _].
Qed.

Lemma ink_app (a b : list char) :
  ink isspace (a ++ b) = ink isspace a ++ ink isspace b.
Proof. apply List.filter_app. Qed.

Lemma ink_rev (a : list char) : ink isspace (rev a) = rev (ink isspace a).
Proof.
  unfold ink. induction a as [|c a IH]; [reflexivity|].
  cbn [rev List.filter]. rewrite List.filter_app, IH. cbn [List.filter].
  destruct (negb (isspace c)); [reflexivity|]. cbn [rev]. now rewrite app_nil_r.
Qed.

Lemma rstrip_split (s : list char) :
  exists suf, s = rstrip isspace s ++ suf /\ ink isspace suf = [].
Proof.
  unfold rstrip. destruct (lstrip_split (rev s)) as (pre & Hs & Hpre).
  exists (rev pre). split.
  - rewrite <- rev_app_distr, <- Hs. now rewrite rev_involutive.
  - now rewrite ink_rev, Hpre.
Qed.

Lemma rstrip_last (s l : list char) (c : char) :
  rstrip isspace s = l ++ [c] -> isspace c = false.
Proof.
  unfold rstrip. intros Hr.
  apply (f_equal (@rev char)) in Hr. rewrite rev_involutive, rev_app_distr in Hr.
  cbn [rev app] in Hr. eapply lstrip_head. exact Hr.
Qed.

(** What [strip] removes is whitespace, at both ends. *)
Lemma strip_split (s : list char) :
  exists pre suf,
    s = pre ++ strip isspace s ++ suf /\ ink isspace pre = [] /\ ink isspace suf = [].
Proof.
  unfold strip.
  destruct (rstrip_split s) as (suf & Hs & Hsuf).
  destruct (lstrip_split (rstrip isspace s)) as (pre & Hr & Hpre).
  exists pre, suf. split; [|auto].
  rewrite app_assoc, <- Hr. exact Hs.
Qed.

Lemma strip_ink (s : list char) : ink isspace (strip isspace s) = ink isspace s.
Proof.
  destruct (strip_split s) as (pre & suf & Hs & Hpre & Hsuf).
  rewrite Hs at 2. rewrite !ink_app, Hpre, Hsuf. now rewrite app_nil_r.
Qed.

Lemma strip_head (s : list char) (c : char) (rest : list char) :
  strip isspace s = c :: rest -> isspace c = false.
Proof. apply lstrip_head. Qed.

Lemma strip_last (s l : list char) (c : char) :
  strip isspace s = l ++ [c] -> isspace c = false.
Proof.
  unfold strip. intros Hst.
  destruct (lstrip_split (rstrip isspace s)) as (pre & Hr & _).
  rewrite Hst, app_assoc in Hr. exact (rstrip_last _ _ _ Hr).
Qed.

(** A newline is the last character of the line that [readline] returns. *)
Lemma readline_newline_last (s a b : list char) (c : char) :
  fst (readline is_newline s) = a ++ c :: b -> is_newline c = true -> b = [].
Proof.
  revert a. induction s as [|x s IH]; intros a.
  - cbn. destruct a; discriminate.
  - cbn [readline]. destruct (is_newline x) eqn:Hx; cbn [fst].
    + destruct a as [|y a]; [now intros [= _ <-]|].
      intros [= _ H]. destruct a; discriminate.
    + destruct a as [|y a]; cbn.
      * intros [= <- _] Hc. congruence.
      * intros [= _ H] Hc. exact (IH a H Hc).
Qed.

Lemma readline_split (s : list char) :
  fst (readline is_newline s) ++ snd (readline is_newline s) = s.
Proof.
  induction s as [|x s IH]; [reflexivity|].
  cbn [readline]. destruct (is_newline x); cbn [fst snd app]; [reflexivity|].
  now f_equal.
Qed.

Lemma readlines_eq (s : list char) :
  readlines is_newline s =
  match readline is_newline s with
  | ([], _) => []
  | (c :: line, rest) => (c :: line) :: readlines is_newline rest
  end.
Proof.
  funelim (readlines is_newline s);
    match goal with E : readline is_newline _ = _ |- _ => rewrite E end; reflexivity.
Qed.

(** Induction along the lines of a stream. *)
Lemma readlines_ind (P : list char -> Prop) :
  (forall s, (forall c line rest, readline is_newline s = (c :: line, rest) -> P rest) -> P s) ->
  forall s, P s.
Proof.
  intros Hstep s.
  remember (List.length s) as n eqn:Hn. revert s Hn.
  induction n as [n IH] using lt_wf_ind. intros s ->.
  apply Hstep. intros c line rest Hr. apply (IH (List.length rest)); [|reflexivity].
  pose proof (readline_split s) as Hs. rewrite Hr in Hs. cbn [fst snd] in Hs.
  rewrite <- Hs. cbn [app List.length]. rewrite length_app. lia.
Qed.

Lemma readlines_concat (s : list char) : List.concat (readlines is_newline s) = s.
Proof.
  induction s as [s IH] using readlines_ind.
  rewrite readlines_eq. pose proof (readline_split s) as Hs.
  destruct (readline is_newline s) as [[|c line] rest] eqn:Hr; cbn [fst snd] in Hs.
  - cbn in Hs. subst s.
    destruct rest as [|x rest]; [reflexivity|].
    cbn [readline] in Hr. destruct (is_newline x); discriminate.
  - cbn [List.concat]. now rewrite (IH c line rest eq_refl).
Qed.

(** A line that has been read holds no newline but at its end. *)
Lemma readlines_lines (s : list char) :
  Forall (fun line => forall a c b, line = a ++ c :: b -> is_newline c = true -> b = [])
         (readlines is_newline s).
Proof.
  induction s as [s IH] using readlines_ind.
  rewrite readlines_eq.
  destruct (readline is_newline s) as [[|c line] rest] eqn:Hr; [constructor|].
  apply Forall_cons. split; [|now apply (IH c line rest)].
  intros a x b Hline. apply (readline_newline_last s a b x).
  now rewrite Hr.
Qed.

Lemma log_lines_records (program : string) (log_level : Z) (lines : list (list char)) :
  Forall (fun line => forall a c b, line = a ++ c :: b -> is_newline c = true -> b = []) lines ->
  Forall (fun r =>
            fst r = log_level /\
            exists line,
              snd r = Output program line /\ line <> [] /\
              (forall c rest, line = c :: rest -> isspace c = false) /\
              (forall l c, line = l ++ [c] -> isspace c = false) /\
              Forall (fun c => is_newline c = false) line)
         (log_lines isspace program log_level lines).
Proof.
  induction 1 as [|line lines Hline _ IH]; [constructor|].
  cbn [log_lines]. destruct (strip isspace line) as [|c0 l0] eqn:Hst; [exact IH|].
  apply Forall_cons. split; [|exact IH]. cbn [fst snd].
  split; [reflexivity|]. exists (c0 :: l0). split; [reflexivity|].
  split; [discriminate|]. rewrite <- Hst.
  split; [apply strip_head|]. split; [apply strip_last|].
  apply Forall_forall. intros x Hin.
  destruct (is_newline x) eqn:Hx; [|reflexivity].
  apply list_elem_of_In, in_split in Hin as (l1 & l2 & Hsplit).
  destruct (strip_split line) as (pre & suf & Hs & _ & _).
  rewrite Hsplit in Hs.
  assert (Hend : l2 ++ suf = []).
  { apply (Hline (pre ++ l1) x (l2 ++ suf)); [|exact Hx].
    rewrite Hs, <- !app_assoc. reflexivity. }
  apply app_eq_nil in Hend as [-> _].
  pose proof (strip_last line l1 x Hsplit) as Hns.
  rewrite (newline_isspace x Hx) in Hns. discriminate.
Qed.

Lemma log_lines_ink (program : string) (log_level : Z) (lines : list (list char)) :
  ink isspace (List.concat (logged_lines (log_lines isspace program log_level lines)))
  = ink isspace (List.concat lines).
Proof.
  induction lines as [|line lines IH]; [reflexivity|].
  cbn [log_lines List.concat]. rewrite ink_app, <- (strip_ink line), <- IH.
  destruct (strip isspace line) as [|c0 l0]; [reflexivity|].
  change (logged_lines ((log_level, Output program (c0 :: l0))
                          :: log_lines isspace program log_level lines))
    with ((c0 :: l0) :: logged_lines (log_lines isspace program log_level lines)).
  change (List.concat ((c0 :: l0)
                         :: logged_lines (log_lines isspace program log_level lines)))
    with ((c0 :: l0)
            ++ List.concat (logged_lines (log_lines isspace program log_level lines))).
  now rewrite ink_app.
Qed.

(** X17. What [logged_subprocess] logs.  The first record announces the
    subprocess, at the level of debugging, also when the subprocess cannot
    be started.  Every other record is at the level asked for and is one
    line of the output after the name of the program: a line that is not
    empty, that neither starts nor ends with whitespace, and that holds no
    newline. *)
Theorem logged_subprocess_records (program : string) (arguments : list string)
    (log_level : Z) (child : errno + child_process) :
  exists outputs,
    fst (logged_subprocess isspace is_newline program arguments log_level child)
    = (logging_DEBUG, Invoking (program :: arguments)) :: outputs /\
    Forall (fun r =>
              fst r = log_level /\
              exists line,
                snd r = Output program line /\ line <> [] /\
                (forall c rest, line = c :: rest -> isspace c = false) /\
                (forall l c, line = l ++ [c] -> isspace c = false) /\
                Forall (fun c => is_newline c = false) line)
           outputs.
Proof.
  unfold logged_subprocess. destruct child as [e|child].
  - exists []. split; [reflexivity|constructor].
  - exists (log_lines isspace program log_level (readlines is_newline (stdout child))).
    split; [destruct (returncode child =? 0); reflexivity|].
    apply log_lines_records, readlines_lines.
Qed.

(** X18. Nothing but whitespace is lost, and the error comes last.  The
    characters of the logged lines that are not whitespace are those of
    the output of the child, in the same order.  A return code that is not
    zero raises [CalledProcessError] with that code and the name of the
    program, a return code of zero raises nothing, and the records are the
    same in both cases: the whole output is logged before the error is
    raised. *)
Theorem logged_subprocess_loses_only_whitespace (program : string)
    (arguments : list string) (log_level : Z) (child : child_process) :
  let run := logged_subprocess isspace is_newline program arguments log_level in
  ink isspace (List.concat (logged_lines (fst (run (inr child)))))
  = ink isspace (stdout child) /\
  (returncode child = 0 -> snd (run (inr child)) = None) /\
  (returncode child <> 0 ->
   snd (run (inr child)) = Some (CalledProcessError (returncode child) program)) /\
  fst (run (inr child)) = fst (run (inr {| stdout := stdout child; returncode := 0 |})).
Proof.
  cbv zeta. unfold logged_subprocess. cbn [stdout returncode].
  split; [|split; [|split]].
  - destruct (returncode child =? 0); cbn [fst];
      unfold logged_lines; cbn [flat_map snd app];
      fold (logged_lines (log_lines isspace program log_level
                            (readlines is_newline (stdout child))));
      now rewrite log_lines_ink, readlines_concat.
  - intros ->. reflexivity.
  - intros Hne. apply Z.eqb_neq in Hne. now rewrite Hne.
  - destruct (returncode child =? 0); reflexivity.
Qed.
End logged_subprocess_properties.

Lemma ascii_newline_isspace (c : ascii) :
  ascii_is_newline c = true -> ascii_isspace c = true.
Proof. unfold ascii_is_newline. intros Hc. apply Ascii.eqb_eq in Hc. now subst c. Qed.

Lemma logged_subprocess_records_witness :
  fst (logged_subprocess ascii_isspace ascii_is_newline "qcc" ["-O2"] logging_INFO
         (inr failing_compiler))
  = [(logging_DEBUG, Invoking ["qcc"; "-O2"]);
     (logging_INFO, Output "qcc" (list_ascii_of_string "warning: unused"));
     (logging_INFO, Output "qcc" (list_ascii_of_string "error: no such file"))] /\
  exists outputs,
    fst (logged_subprocess ascii_isspace ascii_is_newline "qcc" ["-O2"] logging_INFO
           (inr failing_compiler))
    = (logging_DEBUG, Invoking ["qcc"; "-O2"]) :: outputs /\
    Forall (fun r =>
              fst r = logging_INFO /\
              exists line,
                snd r = Output "qcc" line /\ line <> [] /\
                (forall c rest, line = c :: rest -> ascii_isspace c = false) /\
                (forall l c, line = l ++ [c] -> ascii_isspace c = false) /\
                Forall (fun c => ascii_is_newline c = false) line)
           outputs.
Proof.
  split; [vm_compute; reflexivity|].
  exact (logged_subprocess_records ascii_isspace ascii_is_newline
           ascii_newline_isspace "qcc" ["-O2"] logging_INFO (inr failing_compiler)).
Defined.

Lemma logged_subprocess_loses_only_whitespace_witness :
  ink ascii_isspace (stdout failing_compiler)
  = list_ascii_of_string "warning:unusederror:nosuchfile" /\
  ink ascii_isspace
      (List.concat
         (logged_lines
            (fst (logged_subprocess ascii_isspace ascii_is_newline "qcc" ["-O2"]
                    logging_INFO (inr failing_compiler)))))
  = ink ascii_isspace (stdout failing_compiler) /\
  snd (logged_subprocess ascii_isspace ascii_is_newline "qcc" ["-O2"] logging_INFO
         (inr failing_compiler))
  = Some (CalledProcessError 1 "qcc").
Proof.
  split; [vm_compute; reflexivity|].
  pose proof (logged_subprocess_loses_only_whitespace ascii_isspace ascii_is_newline
                "qcc" ["-O2"] logging_INFO failing_compiler) as (Hink & _ & Hcode & _).
  split; [exact Hink|]. apply Hcode. discriminate.
Defined.

(** * Properties of [clear_directory] *)






